(** * Message coalescing and conversation state of the XMTP agent

    A shallow embedding of the stateful core of the agent:
    - the message batching of [src/index.ts] ([addMessageToBatch], the
      batch timers and the two flush callbacks),
    - the deduplication ledger [processedMessages] of [src/index.ts],
    - [DBHealthService.checkMessageArray],
    - [ReplyService] ([addMapping], [cleanupOldMappings], [sendReply]) and
      the [POST /reply] route,
    - [BackendApiService.processMessage] and the group greeting block of
      the text handler,
    - the [POST /reply/cleanup] and [POST /send-message] routes and the
      statistics of [ReplyService] and [DBHealthService],
    - [GreetedGroupsService] and the handlers of [conversation],
      [group-update] and [reply] of [src/index.ts],
    - [ImageAnalysisService.formatForBackend].

    JavaScript maps are finite maps, arrays that are shared between a
    table entry and a timer closure live in an explicit store of arrays,
    and time is the millisecond clock read by [Date.now()] and by the
    timers of the event loop. Strings are held as the bytes of their
    UTF-8 form and measured in UTF-16 code units where the code reads
    their length. *)

From Stdlib Require Import ZArith Ascii.
From Stdlib Require String.
From stdpp Require Import base option list sorting gmap strings pretty fin_maps.

Open Scope Z_scope.

(** * Part I: the model *)

(** ** Strings *)

(** The line feed of the template literals ["\n\n"]. *)
Definition LF : string := String (ascii_of_nat 10) EmptyString.
Definition LFLF : string := LF +:+ LF.

(** [Array.prototype.join]. *)
Definition join (sep : string) (l : list string) : string := String.concat sep l.

(** Truthiness of a JavaScript string: only the empty string is falsy. *)
Definition truthy (s : string) : bool :=
  match s with EmptyString => false | String _ _ => true end.

(** An optional string property used as a condition: absent and the empty
    string are falsy. *)
Definition given (o : option string) : option string :=
  match o with
  | Some s => if truthy s then Some s else None
  | None => None
  end.

(** [x || y] on optional strings. *)
Definition or_else (o : option string) (d : string) : string :=
  match o with
  | Some s => if truthy s then s else d
  | None => d
  end.

(** A JavaScript string is held as the bytes of its UTF-8 form, and an
    unpaired surrogate as the three bytes of its code point. Where the
    code reads [length] or calls [substring], it counts UTF-16 code
    units: a character of four bytes has two, every other character has
    one. *)

(** The code units that a byte brings: those of its character for a
    first byte, none for a continuation byte (10xxxxxx). *)
Definition units (a : ascii) : nat :=
  let b := N_of_ascii a in
  if (b <? 0x80)%N then 1%nat
  else if (b <? 0xC0)%N then 0%nat
  else if (b <? 0xF0)%N then 1%nat
  else 2%nat.

(** [s.length]. *)
Fixpoint length16 (s : string) : nat :=
  match s with
  | EmptyString => 0%nat
  | String a s' => (units a + length16 s')%nat
  end.

(** The high surrogate of the character of four bytes whose first byte
    is [a] and whose other bytes start [s']: the character
    11110uuu 10uuzzzz 10yyyyyy 10xxxxxx has the high surrogate
    110110wwwwzzzzyy with wwww = uuuuu - 1, held as the three bytes
    11101101 1010wwww 10zzzzyy. A byte that [s'] lacks reads as 0. *)
Definition high_surrogate (a : ascii) (s' : string) : string :=
  let byte i := default 0%N (N_of_ascii <$> String.get i s') in
  let u := ((N_of_ascii a mod 8) * 4 + (byte 0%nat / 16) mod 4)%N in
  let w := ((u - 1) mod 16)%N in
  let zy := ((byte 0%nat mod 16) * 4 + (byte 1%nat / 16) mod 4)%N in
  String (ascii_of_N 0xED)
    (String (ascii_of_N (0xA0 + w)) (String (ascii_of_N (0x80 + zy)) EmptyString)).

(** [s.substring(0, n)]: the first [n] code units. When they end between
    the two code units of a character, the last one is its high
    surrogate. *)
Fixpoint substring16 (n : nat) (s : string) : string :=
  match s with
  | EmptyString => EmptyString
  | String a s' =>
      match units a with
      | 0%nat => String a (substring16 n s')
      | 1%nat =>
          match n with
          | 0%nat => EmptyString
          | S n' => String a (substring16 n' s')
          end
      | _ =>
          match n with
          | 0%nat => EmptyString
          | 1%nat => high_surrogate a s'
          | S (S n') => String a (substring16 n' s')
          end
      end
  end.

(** ** Completions of asynchronous calls *)

(** An awaited call either returns a value or throws; of the error the
    model keeps its message. *)
Inductive Completion (A : Type) : Type :=
  | Returns (a : A)
  | Throws (message : string).
Arguments Returns {A} a.
Arguments Throws {A} message.

Definition bind {A B} (c : Completion A) (k : A → Completion B) : Completion B :=
  match c with
  | Returns a => k a
  | Throws e => Throws e
  end.

(** [try { c } catch (error) { h error }]. *)
Definition try_catch {A} (c : Completion A) (h : string → Completion A)
    : Completion A :=
  match c with
  | Returns a => Returns a
  | Throws e => h e
  end.

(** ** The batching system of [src/index.ts] *)

Module Batch.

(** The type of a batched message, ["text" | "image"] (lines 27-37). *)
Inductive MessageType := text | image.

#[global] Instance MessageType_eq_dec : EqDecision MessageType.
Proof. solve_decision. Defined.

(** An element of [PendingMessage.messages]. *)
Record Message := {
  id : string;
  type : MessageType;
  content : string;
  timestamp : Z;
}.

(** The callback of a batch. Of all that a callback does, the model keeps
    the text it builds from the batch and hands to the backend. *)
Definition ProcessFn := list Message → string.

(** A value of [pendingMessages]. [messages] is a reference into the store
    of arrays, [timeout] is the handle that [setTimeout] returned. *)
Record PendingMessage := {
  conversationId : string;
  senderAddress : string;
  messages : nat;
  timeout : nat;
}.

(** An armed timer: the instant from which the event loop may run it and
    what its closure captured ([batchKey], [messages], [processFn]). *)
Record Timer := {
  deadline : Z;
  t_batchKey : string;
  t_messages : nat;
  t_processFn : ProcessFn;
}.

(** One run of a timer callback: when it ran, for which key, and the call
    [processFn(messages)] it made. *)
Record Flush := {
  f_time : Z;
  f_batchKey : string;
  f_processFn : ProcessFn;
  f_messages : list Message;
}.

(** The text the flush hands to the backend. *)
Definition f_text (f : Flush) : string := f_processFn f (f_messages f).

(** The state of the batching system: the clock, the table
    [pendingMessages] (line 39), the store of the [messages] arrays, the
    armed timers of the event loop, and a log of the timer callbacks that
    have run. *)
Record State := {
  clock : Z;
  pendingMessages : gmap string PendingMessage;
  arrays : gmap nat (list Message);
  nextArray : nat;
  timers : gmap nat Timer;
  nextTimer : nat;
  flushes : list Flush;
}.

Definition MESSAGE_BATCH_DELAY : Z := 1000.

Definition init : State :=
  {| clock := 0; pendingMessages := ∅; arrays := ∅; nextArray := 0%nat;
     timers := ∅; nextTimer := 0%nat; flushes := [] |}.

(** [`${conversationId}-${senderAddress}`] (line 56). *)
Definition batchKey (conversationId senderAddress : string) : string :=
  conversationId +:+ "-" +:+ senderAddress.

(** [addMessageToBatch] (lines 46-102), run at instant [now]. *)
Definition addMessageToBatch (now : Z)
    (conversationId senderAddress messageId : string)
    (messageType : MessageType) (content : string) (processFn : ProcessFn)
    (st : State) : State :=
  let key := batchKey conversationId senderAddress in
  let existing := pendingMessages st !! key in
  (* clearTimeout(existing.timeout) *)
  let timers1 :=
    match existing with
    | Some e => delete (timeout e) (timers st)
    | None => timers st
    end in
  (* existing?.messages || [] *)
  let '(ref, arrays1, nextArray1) :=
    match existing with
    | Some e => (messages e, arrays st, nextArray st)
    | None => (nextArray st, <[nextArray st := []]> (arrays st), S (nextArray st))
    end in
  (* messages.push({...}) *)
  let msg := {| id := messageId; type := messageType; content := content;
                timestamp := now |} in
  let arrays2 := alter (λ l, l ++ [msg]) ref arrays1 in
  (* setTimeout(..., MESSAGE_BATCH_DELAY) *)
  let tid := nextTimer st in
  let timer := {| deadline := now + MESSAGE_BATCH_DELAY; t_batchKey := key;
                  t_messages := ref; t_processFn := processFn |} in
  {| clock := now;
     pendingMessages :=
       <[key := {| conversationId := conversationId;
                   senderAddress := senderAddress;
                   messages := ref; timeout := tid |}]> (pendingMessages st);
     arrays := arrays2;
     nextArray := nextArray1;
     timers := <[tid := timer]> timers1;
     nextTimer := S tid;
     flushes := flushes st |}.

(** The body of the timer callback (lines 81-93), run at instant [now]:
    it deletes the entry of its key and calls [processFn(messages)] on the
    array its closure captured. *)
Definition fire (now : Z) (tid : nat) (tm : Timer) (st : State) : State :=
  {| clock := now;
     pendingMessages := delete (t_batchKey tm) (pendingMessages st);
     arrays := arrays st;
     nextArray := nextArray st;
     timers := delete tid (timers st);
     nextTimer := nextTimer st;
     flushes := flushes st ++
       [{| f_time := now; f_batchKey := t_batchKey tm;
           f_processFn := t_processFn tm;
           f_messages := default [] (arrays st !! t_messages tm) |}] |}.

(** What the event loop does: a handler adds a message, or an armed
    timer whose delay has elapsed runs. *)
Inductive Event :=
  | EvAdd (now : Z) (conversationId senderAddress messageId : string)
      (messageType : MessageType) (content : string) (processFn : ProcessFn)
  | EvTimeout (now : Z) (tid : nat).

Definition ev_time (ev : Event) : Z :=
  match ev with
  | EvAdd now _ _ _ _ _ _ => now
  | EvTimeout now _ => now
  end.

(** One turn of the event loop; [None] when the event cannot happen: the
    clock does not run backwards, a cleared or fired timer never runs, and
    an armed timer does not run before its delay has elapsed. *)
Definition step (st : State) (ev : Event) : option State :=
  if decide (clock st ≤ ev_time ev) then
    match ev with
    | EvAdd now c s i ty co fn => Some (addMessageToBatch now c s i ty co fn st)
    | EvTimeout now tid =>
        match timers st !! tid with
        | Some tm =>
            if decide (deadline tm ≤ now) then Some (fire now tid tm st) else None
        | None => None
        end
    end
  else None.

Fixpoint run (st : State) (evs : list Event) : option State :=
  match evs with
  | [] => Some st
  | ev :: evs => st' ← step st ev; run st' evs
  end.

(** *** The flush callbacks of the handlers *)

Definition contents (ty : MessageType) (ms : list Message) : list string :=
  content <$> filter (λ m, type m = ty) ms.

(** The callback given by the text handler (lines 359-370). *)
Definition textProcessFn : ProcessFn := λ messages,
  let finalMessage := join LFLF (contents text messages) in
  if decide (0 < length (contents image messages))%nat
  then finalMessage +:+ LFLF +:+ join LFLF (contents image messages)
  else finalMessage.

(** The callback given by the attachment handler (lines 714-727). *)
Definition attachmentProcessFn : ProcessFn := λ messages,
  let finalMessage := join LFLF (contents text messages) in
  if decide (0 < length (contents image messages))%nat
  then
    if truthy finalMessage
    then finalMessage +:+ LFLF +:+ join LFLF (contents image messages)
    else join LFLF (contents image messages)
  else finalMessage.

(** A handler passes its own callback with the type of the message it
    adds: ["text"] in the text handler (lines 353-359), ["image"] in the
    attachment handler (lines 708-714). *)
Definition handlerProcessFn (ty : MessageType) : ProcessFn :=
  match ty with
  | text => textProcessFn
  | image => attachmentProcessFn
  end.

(** *** Well-formed states *)

(** What every reachable state satisfies: table entries and armed timers
    are in one-to-one correspondence, the arrays of two entries are
    distinct store cells, handles and references are never reused, and a
    timer is armed for one delay after every message of its batch. *)
Record Inv (st : State) : Prop := {
  inv_pending_timer : ∀ k p, pendingMessages st !! k = Some p →
    ∃ tm, timers st !! timeout p = Some tm ∧ t_batchKey tm = k ∧
          t_messages tm = messages p;
  inv_timer_pending : ∀ tid tm, timers st !! tid = Some tm →
    ∃ p, pendingMessages st !! t_batchKey tm = Some p ∧ timeout p = tid;
  inv_array_alloc : ∀ k p, pendingMessages st !! k = Some p →
    is_Some (arrays st !! messages p);
  inv_array_fresh : ∀ r, is_Some (arrays st !! r) → (r < nextArray st)%nat;
  inv_array_sep : ∀ k1 k2 p1 p2,
    pendingMessages st !! k1 = Some p1 → pendingMessages st !! k2 = Some p2 →
    messages p1 = messages p2 → k1 = k2;
  inv_timer_fresh : ∀ tid, is_Some (timers st !! tid) → (tid < nextTimer st)%nat;
  inv_deadline : ∀ tid tm ms m, timers st !! tid = Some tm →
    arrays st !! t_messages tm = Some ms → m ∈ ms →
    timestamp m + MESSAGE_BATCH_DELAY ≤ deadline tm;
  inv_stamp : ∀ r ms m, arrays st !! r = Some ms → m ∈ ms →
    timestamp m ≤ clock st;
  inv_flush : ∀ f m, f ∈ flushes st → m ∈ f_messages f →
    timestamp m + MESSAGE_BATCH_DELAY ≤ f_time f;
}.

(** *** The batch of one key *)

(** What the table, the store of arrays and the timers hold for one key:
    the messages of its batch, the deadline of its timer and the callback
    the timer will call. *)
Definition batch_of (key : string) (st : State)
    : option (list Message * Z * ProcessFn) :=
  p ← pendingMessages st !! key;
  tm ← timers st !! timeout p;
  ms ← arrays st !! messages p;
  Some (ms, deadline tm, t_processFn tm).

Definition flushes_of (key : string) (st : State) : list Flush :=
  filter (λ f, f_batchKey f = key) (flushes st).

Definition old_messages (b : option (list Message * Z * ProcessFn)) : list Message :=
  match b with Some (ms, _, _) => ms | None => [] end.

(** *** Runs seen from one key *)

Definition message_of (ev : Event) : option (string * Message * ProcessFn) :=
  match ev with
  | EvAdd now c s i ty co fn =>
      Some (batchKey c s,
            {| id := i; type := ty; content := co; timestamp := now |}, fn)
  | EvTimeout _ _ => None
  end.

(** The messages that a run adds under [key], in order of arrival. *)
Fixpoint fragments (key : string) (evs : list Event) : list Message :=
  match evs with
  | [] => []
  | ev :: evs =>
      match message_of ev with
      | Some (k, m, _) =>
          if decide (k = key) then m :: fragments key evs else fragments key evs
      | None => fragments key evs
      end
  end.

(** Every message added under [key] is added by its handler: with the
    callback of the text handler when it is a text, of the attachment
    handler when it is an image. *)
Definition handler_adds (key : string) (evs : list Event) : Prop :=
  Forall (λ ev, ∀ m fn, message_of ev = Some (key, m, fn) →
                        fn = handlerProcessFn (type m)) evs.

(** Each message arrives within the quiet period of the one before. *)
Fixpoint quiet (ms : list Message) : Prop :=
  match ms with
  | m1 :: ms1 =>
      match ms1 with
      | m2 :: _ => timestamp m2 < timestamp m1 + MESSAGE_BATCH_DELAY ∧ quiet ms1
      | [] => True
      end
  | [] => True
  end.

(** The batch of [key] holds [ms], and its timer is the one armed with
    the last of them. *)
Definition collecting (key : string) (ms : list Message) (st : State) : Prop :=
  match last ms with
  | Some m =>
      batch_of key st =
        Some (ms, timestamp m + MESSAGE_BATCH_DELAY, handlerProcessFn (type m))
  | None => batch_of key st = None
  end.

(** Every message of [ms] is at least one delay older than whatever can
    flush the batch of [key] next. *)
Definition settled (key : string) (ms : list Message) (st : State) : Prop :=
  ∀ m, m ∈ ms →
    timestamp m ≤ clock st ∧
    match batch_of key st with
    | Some (_, d, _) => timestamp m + MESSAGE_BATCH_DELAY ≤ d
    | None => timestamp m + MESSAGE_BATCH_DELAY ≤ clock st
    end.

(** The flush of the messages [ms] of [key], made at [tf] by the timer
    that the last of them armed. *)
Definition flushed_by (key : string) (ms : list Message) (fl : Flush) : Prop :=
  ∃ m, last ms = Some m ∧
       fl = {| f_time := f_time fl; f_batchKey := key;
               f_processFn := handlerProcessFn (type m); f_messages := ms |} ∧
       timestamp m + MESSAGE_BATCH_DELAY ≤ f_time fl.

(** The combined text as the specification words it: the texts joined,
    then, when there is an image, a double newline and the image texts
    joined. *)
Definition spec_combined (ms : list Message) : string :=
  join LFLF (contents text ms) +:+
  (if decide (contents image ms = []) then ""
   else LFLF +:+ join LFLF (contents image ms)).

(** A text followed by an image 400 ms later, in an idle system. *)
Definition text_then_image : list Event :=
  [EvAdd 0 "c" "s" "m1" text "hello" textProcessFn;
   EvAdd 400 "c" "s" "m2" image "IMG" attachmentProcessFn].

Definition after_text_then_image : State :=
  addMessageToBatch 400 "c" "s" "m2" image "IMG" attachmentProcessFn
    (addMessageToBatch 0 "c" "s" "m1" text "hello" textProcessFn init).

(** The same, once the timer armed by the image has run at 1400 ms. *)
Definition text_image_flushed : State :=
  fire 1400 1 {| deadline := 1400; t_batchKey := batchKey "c" "s";
                 t_messages := 0%nat; t_processFn := attachmentProcessFn |}
    after_text_then_image.


(** *** Bookkeeping of whole runs *)

(** The messages that a run adds under [key], each with the callback
    passed with it. *)
Fixpoint adds (key : string) (evs : list Event) : list (Message * ProcessFn) :=
  match evs with
  | [] => []
  | ev :: evs =>
      match message_of ev with
      | Some (k, m, fn) =>
          if decide (k = key) then (m, fn) :: adds key evs else adds key evs
      | None => adds key evs
      end
  end.

(** All the messages that the timer callbacks of [key] have passed to
    their callbacks so far, in order. *)
Definition flushed (key : string) (st : State) : list Message :=
  concat (f_messages <$> flushes_of key st).

(** The batch of [key] is the one left by the last of the additions [h]:
    it ends with that message, its timer is due one delay after it and
    will call the callback passed with it. *)
Definition led_by (key : string) (h : list (Message * ProcessFn))
    (st : State) : Prop :=
  ∀ ms d fn, batch_of key st = Some (ms, d, fn) →
    ∃ m, last h = Some (m, fn) ∧ last ms = Some m ∧
         d = timestamp m + MESSAGE_BATCH_DELAY.

(** No timer callback is ever given an empty array. *)
Definition no_empty_flush (st : State) : Prop :=
  (∀ key ms d fn, batch_of key st = Some (ms, d, fn) → ms ≠ []) ∧
  (∀ f, f ∈ flushes st → f_messages f ≠ []).

End Batch.

(** ** [DBHealthService] ([src/services/db-health.service.ts]) *)

Module DBHealth.

(** What the service reads of a message of the history. *)
Record DecodedMessage := {
  m_id : string;
  m_senderInboxId : string;
}.

(** The order of [Array.prototype.sort] without a comparator on strings:
    lexicographic on the code units. *)
Definition id_le (a b : string) : Prop := String.leb a b.

#[global] Instance id_le_dec : RelDecision id_le.
Proof. intros a b. unfold id_le. apply _. Defined.

Definition sort (ids : list string) : list string := merge_sort id_le ids.

(** A value of [conversationHashes]. *)
Record Entry := {
  hash : string;
  repeatCount : Z;
  lastMessageIds : list string;
}.

Definition REPEAT_THRESHOLD : Z := 3.

(** [messages.map((m) => m.id).sort().join("|")]. *)
Definition fingerprint (messages : list DecodedMessage) : string :=
  join "|" (sort (m_id <$> messages)).

(** [checkMessageArray] (lines 34-86): the table [conversationHashes]
    after the call and the value returned. *)
Definition checkMessageArray (conversationId : string)
    (messages : list DecodedMessage) (conversationHashes : gmap string Entry)
    : gmap string Entry * bool :=
  let messageIds := sort (m_id <$> messages) in
  let hash' := join "|" messageIds in
  match conversationHashes !! conversationId with
  | None =>
      (<[conversationId := {| hash := hash'; repeatCount := 1;
                              lastMessageIds := messageIds |}]> conversationHashes,
       false)
  | Some cached =>
      if decide (hash cached = hash') then
        let cached' := {| hash := hash cached;
                          repeatCount := repeatCount cached + 1;
                          lastMessageIds := lastMessageIds cached |} in
        (<[conversationId := cached']> conversationHashes,
         bool_decide (REPEAT_THRESHOLD ≤ repeatCount cached'))
      else
        (<[conversationId := {| hash := hash'; repeatCount := 1;
                                lastMessageIds := messageIds |}]> conversationHashes,
         false)
  end.

(** Consecutive calls for one conversation: the final table and the
    values returned, in order. *)
Fixpoint observe_all (conversationId : string)
    (calls : list (list DecodedMessage)) (t : gmap string Entry)
    : gmap string Entry * list bool :=
  match calls with
  | [] => (t, [])
  | messages :: calls =>
      let '(t1, r) := checkMessageArray conversationId messages t in
      let '(t2, rs) := observe_all conversationId calls t1 in
      (t2, r :: rs)
  end.

(** An identifier without the separator of the fingerprint. *)
Fixpoint bar_free (s : string) : bool :=
  match s with
  | EmptyString => true
  | String a s => negb (Ascii.eqb a "|") && bar_free s
  end.

Definition plain_id (s : string) : Prop := s ≠ "" ∧ bar_free s = true.


(** [clearConversation] (lines 130-132). *)
Definition clearConversation (conversationId : string)
    (conversationHashes : gmap string Entry) : gmap string Entry :=
  delete conversationId conversationHashes.

(** The flag [isStuck] that [getStats] reports for an entry (line 145). *)
Definition isStuck (e : Entry) : bool :=
  bool_decide (REPEAT_THRESHOLD ≤ repeatCount e).

(** Calls of [checkMessageArray] for any conversations, in order: the
    final table and, for each call, its conversation and the value
    returned. *)
Fixpoint observe_log (calls : list (string * list DecodedMessage))
    (t : gmap string Entry) : gmap string Entry * list (string * bool) :=
  match calls with
  | [] => (t, [])
  | (c, messages) :: calls =>
      let '(t1, r) := checkMessageArray c messages t in
      let '(t2, rs) := observe_log calls t1 in
      (t2, (c, r) :: rs)
  end.

(** The second components of the pairs of [l] whose first component is
    [c]. *)
Definition about {A} (c : string) (l : list (string * A)) : list A :=
  snd <$> filter (λ x, x.1 = c) l.

(** What holds of every entry the service stores. *)
Definition entry_ok (e : Entry) : Prop :=
  1 ≤ repeatCount e ∧ hash e = join "|" (lastMessageIds e) ∧
  Sorted id_le (lastMessageIds e).


(** [getStats] (lines 137-149): one report for each entry of the
    table. *)
Record ConversationStats := {
  cs_id : string;
  cs_repeatCount : Z;
  cs_messageCount : nat;
  cs_isStuck : bool;
}.

Record Stats := {
  trackedConversations : nat;
  conversations : list ConversationStats;
}.

Definition report (entry : string * Entry) : ConversationStats :=
  {| cs_id := substring16 10 entry.1 +:+ "...";
     cs_repeatCount := repeatCount entry.2;
     cs_messageCount := length (lastMessageIds entry.2);
     cs_isStuck := isStuck entry.2 |}.

Definition getStats (conversationHashes : gmap string Entry) : Stats :=
  {| trackedConversations := size conversationHashes;
     conversations := report <$> map_to_list conversationHashes |}.

End DBHealth.

(** ** The deduplication ledger [processedMessages] of [src/index.ts] *)

Module Ledger.

(** A JavaScript [Set] of strings iterates in insertion order: it is the
    list of its elements in that order, without duplicates. *)
Definition has (id : string) (s : list string) : bool := bool_decide (id ∈ s).

Definition add (id : string) (s : list string) : list string :=
  if has id s then s else s ++ [id].

(** [entries.slice(-n)]: the last [n] elements. *)
Definition slice_last (n : nat) (entries : list string) : list string :=
  drop (length entries - n) entries.

(** [processedMessages.clear(); ids.forEach((id) => processedMessages.add(id))]. *)
Definition refill (ids : list string) : list string :=
  foldl (λ s id, add id s) [] ids.

(** The clean-up of the text handler (lines 198-203). *)
Definition prune (s : list string) : list string :=
  if decide (1000 < length s)%nat then refill (slice_last 500 s) else s.

Inductive Incoming :=
  | TextMsg (id : string)
  | ReplyMsg (id : string)
  | AttachmentMsg (id : string).

(** What a handler does to the ledger: the text handler checks, marks and
    cleans up (lines 187-203); the reply handler checks and marks (lines
    439-448); the attachment handler does not use the ledger (lines
    652-661). *)
Definition handle (s : list string) (ev : Incoming) : list string :=
  match ev with
  | TextMsg id => if has id s then s else prune (add id s)
  | ReplyMsg id => if has id s then s else add id s
  | AttachmentMsg _ => s
  end.

Definition handle_all (s : list string) (evs : list Incoming) : list string :=
  foldl handle s evs.

(** Identifiers of the replies of the failing run. *)
Definition reply_ids (n : nat) : list string := (λ k : nat, pretty k) <$> seq 0 n.


(** The events that do not come through the reply handler. *)
Definition not_reply (ev : Incoming) : Prop :=
  match ev with ReplyMsg _ => False | _ => True end.

(** The identifier a handler marks as seen, if it uses the ledger. *)
Definition marked_id (ev : Incoming) : option string :=
  match ev with
  | TextMsg id | ReplyMsg id => Some id
  | AttachmentMsg _ => None
  end.

End Ledger.

(** ** [ReplyService] ([src/services/reply.service.ts]) *)

Module Reply.

(** [XMTPConversationMapping]; [lastActivity] is the [Date] in
    milliseconds. *)
Record XMTPConversationMapping := {
  threadId : string;
  conversationId : string;
  walletAddress : string;
  lastActivity : Z;
  agentId : option string;
}.

(** [addMapping] (lines 85-99), run when [new Date()] reads [now]. *)
Definition addMapping (now : Z) (threadId conversationId walletAddress : string)
    (agentId : option string)
    (conversationMappings : gmap string XMTPConversationMapping)
    : gmap string XMTPConversationMapping :=
  <[threadId := {| threadId := threadId; conversationId := conversationId;
                   walletAddress := walletAddress; lastActivity := now;
                   agentId := agentId |}]> conversationMappings.

Definition getMapping (threadId : string)
    (conversationMappings : gmap string XMTPConversationMapping)
    : option XMTPConversationMapping :=
  conversationMappings !! threadId.

(** One round of the loop of [cleanupOldMappings]. *)
Definition cleanup_entry (now maxAge : Z) (threadId : string)
    (mapping : XMTPConversationMapping)
    (acc : gmap string XMTPConversationMapping * Z)
    : gmap string XMTPConversationMapping * Z :=
  let age := now - lastActivity mapping in
  if decide (age > maxAge) then (delete threadId acc.1, acc.2 + 1) else acc.

(** [cleanupOldMappings] (lines 105-123), run when [new Date()] reads [now]: the loop
    visits every entry of the map once (deleting the entry being visited
    does not disturb the iteration), and its result does not depend on
    the order of the visits. *)
Definition cleanupOldMappings (now : Z) (maxAgeHours : Z)
    (conversationMappings : gmap string XMTPConversationMapping)
    : gmap string XMTPConversationMapping * Z :=
  let maxAge := maxAgeHours * 60 * 60 * 1000 in
  map_fold (cleanup_entry now maxAge) (conversationMappings, 0)
    conversationMappings.

Definition hours (h : Z) : Z := h * 60 * 60 * 1000.

(** The mappings whose [lastActivity] predates [now - h] hours. *)
Definition stale (now h : Z) (kv : string * XMTPConversationMapping) : Prop :=
  lastActivity kv.2 < now - hours h.

#[global] Instance stale_dec now h kv : Decision (stale now h kv).
Proof. unfold stale. apply _. Defined.


(** [Array.prototype.reduce] without an initial value: the fold starts
    from the first element; the code calls it on non-empty arrays only. *)
Definition reduce1 {A} (f : A → A → A) (l : list A) : option A :=
  match l with
  | [] => None
  | x :: l => Some (foldl f x l)
  end.

(** The fields [totalMappings], [oldestMapping] and [newestMapping] of
    the object that [getStats] returns; the dates are [None] for
    [null]. *)
Record Stats := {
  totalMappings : nat;
  oldestMapping : option Z;
  newestMapping : option Z;
}.

(** The callbacks of the two [reduce] calls of [getStats]. *)
Definition older (oldest m : XMTPConversationMapping) : XMTPConversationMapping :=
  if decide (lastActivity m < lastActivity oldest) then m else oldest.

Definition newer (newest m : XMTPConversationMapping) : XMTPConversationMapping :=
  if decide (lastActivity m > lastActivity newest) then m else newest.

(** [getStats] (lines 125-137) on the array [mappings] of the values of
    the table. *)
Definition stats_of (mappings : list XMTPConversationMapping) : Stats :=
  {| totalMappings := length mappings;
     oldestMapping :=
       if decide (0 < length mappings)%nat then
         lastActivity <$> reduce1 older mappings
       else None;
     newestMapping :=
       if decide (0 < length mappings)%nat then
         lastActivity <$> reduce1 newer mappings
       else None |}.

Definition getStats (conversationMappings : gmap string XMTPConversationMapping)
    : Stats :=
  stats_of (map_to_list conversationMappings).*2.

End Reply.

(** ** [sendReply] and the [POST /reply] route ([src/routes/reply.routes.ts]) *)

Module ReplyRoute.
Import Reply.

(** A conversation of the messaging client: its identifier, and whether
    [send] of a text completes or throws (with the message of the
    error). *)
Inductive SendOutcome := SendOk | SendThrows (message : string).

Record Conversation := {
  conv_id : string;
  conv_send : string → SendOutcome;
}.

(** What [getConversationById] does: it resolves to a conversation, it
    resolves to nothing, or it rejects. *)
Inductive Lookup := Found (conversation : Conversation) | NotFound | LookupThrows.

Record Client := {
  getConversationById : string → Lookup;
}.

Record XMTPReplyRequest := {
  r_threadId : option string;
  r_conversationId : option string;
  r_message : string;
}.

(** The JSON body of [POST /reply], any property of which may be absent. *)
Record Body := {
  b_threadId : option string;
  b_conversationId : option string;
  b_message : option string;
}.

Record XMTPReplyResponse := {
  success : bool;
  error : option string;
  resp_conversationId : option string;
}.

(** The result of a lookup as the code tests it ([if (conversation)]). *)
Definition found (l : Lookup) : option Conversation :=
  match l with Found c => Some c | _ => None end.

(** What a call of [sendReply] leaves behind: the mappings, the calls of
    [conversation.send] made (conversation identifier and text), and the
    response. *)
Record ReplyResult := {
  res_mappings : gmap string XMTPConversationMapping;
  res_sends : list (string * string);
  res_response : XMTPReplyResponse;
}.

Definition failure (mappings : gmap string XMTPConversationMapping)
    (sends : list (string * string)) (err : string) : ReplyResult :=
  {| res_mappings := mappings; res_sends := sends;
     res_response := {| success := false; error := Some err;
                        resp_conversationId := None |} |}.

(** [sendReply] (reply.service.ts, lines 25-83), with [new Date()]
    reading [now]. *)
Definition sendReply (now : Z) (client : option Client)
    (request : XMTPReplyRequest)
    (conversationMappings : gmap string XMTPConversationMapping)
    : ReplyResult :=
  match client with
  | None => failure conversationMappings [] "XMTP client not available"
  | Some client =>
      (* Try conversationId first *)
      let conversation :=
        match given (r_conversationId request) with
        | Some cid => found (getConversationById client cid)
        | None => None
        end in
      (* Fallback to threadId mapping *)
      let '(conversation, mappings) :=
        match conversation, given (r_threadId request) with
        | None, Some tid =>
            match conversationMappings !! tid with
            | Some mapping =>
                match found (getConversationById client (conversationId mapping)) with
                | Some c =>
                    (Some c,
                     <[tid := {| threadId := threadId mapping;
                                 conversationId := conversationId mapping;
                                 walletAddress := walletAddress mapping;
                                 lastActivity := now;
                                 agentId := agentId mapping |}]>
                       conversationMappings)
                | None => (None, conversationMappings)
                end
            | None => (None, conversationMappings)
            end
        | _, _ => (conversation, conversationMappings)
        end in
      match conversation with
      | None => failure mappings [] "Conversation not found"
      | Some c =>
          let text := r_message request in
          match conv_send c text with
          | SendThrows err => failure mappings [(conv_id c, text)] err
          | SendOk =>
              {| res_mappings := mappings;
                 res_sends := [(conv_id c, text)];
                 res_response := {| success := true; error := None;
                                    resp_conversationId := Some (conv_id c) |} |}
          end
      end
  end.

(** The handler of [POST /reply] (reply.routes.ts, lines 9-42): the
    status and the body it answers with. The body of the request is
    [None] when it is not JSON. *)
Definition post_reply (now : Z) (client : option Client)
    (body : option Body)
    (conversationMappings : gmap string XMTPConversationMapping)
    : Z * ReplyResult :=
  match body with
  | None => (500, failure conversationMappings [] "Internal server error")
  | Some body =>
      match given (b_threadId body), given (b_conversationId body),
            given (b_message body) with
      | None, None, _ | _, _, None =>
          (400, failure conversationMappings []
                  "message and either threadId or conversationId are required")
      | _, _, Some message =>
          let result :=
            sendReply now client
              {| r_threadId := b_threadId body;
                 r_conversationId := b_conversationId body;
                 r_message := message |} conversationMappings in
          if success (res_response result) then (200, result) else (500, result)
      end
  end.

Definition touch (now : Z) (mapping : XMTPConversationMapping)
    : XMTPConversationMapping :=
  {| threadId := threadId mapping; conversationId := conversationId mapping;
     walletAddress := walletAddress mapping; lastActivity := now;
     agentId := agentId mapping |}.

Definition sent (mappings : gmap string XMTPConversationMapping)
    (c : string) (text : string) : ReplyResult :=
  {| res_mappings := mappings; res_sends := [(c, text)];
     res_response := {| success := true; error := None;
                        resp_conversationId := Some c |} |}.

(** Neither the direct identifier nor the mapping of the thread leads to
    a conversation. *)
Definition unresolvable (client : Client)
    (threadId conversationId : option string)
    (mappings : gmap string XMTPConversationMapping) : Prop :=
  (∀ cid, given conversationId = Some cid →
          found (getConversationById client cid) = None) ∧
  (∀ tid mapping, given threadId = Some tid →
          mappings !! tid = Some mapping →
          found (getConversationById client (Reply.conversationId mapping)) = None).

(** A client that knows the conversation ["c1"] only. *)
Definition client_c1 : Client :=
  {| getConversationById := λ cid,
       if decide (cid = "c1")
       then Found {| conv_id := "c1"; conv_send := λ _, SendOk |}
       else NotFound |}.


(** The value of [body.maxAgeHours] of [POST /reply/cleanup]: null, a
    boolean, a number that is the integer [n], a string, or anything
    else (a number that is not an integer, an array, an object). *)
Inductive JSONValue :=
  | JNull
  | JBool (b : bool)
  | JNumber (n : Z)
  | JString (s : string)
  | JOther.

(** What [await c.req.json().catch(() => ({}))] gives: the empty object
    when the body is not JSON, the value null, a value without a
    [maxAgeHours] property, or a value with one. *)
Inductive CleanupBody :=
  | NotJSON
  | BodyNull
  | BodyWithout
  | BodyWith (maxAgeHours : JSONValue).

(** [body.maxAgeHours || 24]: undefined, null, false, the number 0 and
    the empty string are falsy. *)
Definition or_24 (maxAgeHours : option JSONValue) : JSONValue :=
  match maxAgeHours with
  | None => JNumber 24
  | Some JNull => JNumber 24
  | Some (JBool false) => JNumber 24
  | Some (JNumber 0) => JNumber 24
  | Some (JString EmptyString) => JNumber 24
  | Some v => v
  end.

(** The number that a string of decimal digits converts to. *)
Definition digit (a : ascii) : option Z :=
  let n := Z.of_N (N_of_ascii a) in
  if decide (48 ≤ n ≤ 57) then Some (n - 48) else None.

Fixpoint decimal_go (acc : Z) (s : string) : option Z :=
  match s with
  | EmptyString => Some acc
  | String a s' =>
      match digit a with
      | Some d => decimal_go (10 * acc + d) s'
      | None => None
      end
  end.

Definition decimal (s : string) : option Z :=
  match s with
  | EmptyString => None
  | _ => decimal_go 0 s
  end.

(** The hours that [maxAgeHours * 60 * 60 * 1000] stands for, for the
    truthy values whose arithmetic the model follows: an integer whose
    milliseconds are computed without rounding, a string of decimal
    digits, which converts to such an integer, and [true], which counts
    as 1. The other truthy values (other strings, numbers that are not
    such integers, arrays, objects) are outside the model. *)
Definition hours_of (maxAgeHours : JSONValue) : option Z :=
  let exact (n : Z) :=
    if decide (Z.abs n * 60 * 60 * 1000 ≤ 2 ^ 53) then Some n else None in
  match maxAgeHours with
  | JNumber n => exact n
  | JString s =>
      match decimal s with
      | Some n => exact n
      | None => None
      end
  | JBool true => Some 1
  | _ => None
  end.

(** [`${maxAgeHours}`] for the values that [hours_of] follows. *)
Definition shown (maxAgeHours : JSONValue) : string :=
  match maxAgeHours with
  | JNumber n => pretty n
  | JString s => s
  | JBool true => "true"
  | _ => ""
  end.

Record CleanupResponse := {
  cleanedCount : Z;
  c_maxAgeHours : JSONValue;
  c_message : string;
}.

Inductive CleanupAnswer :=
  | Cleaned (response : CleanupResponse)
  | CleanupFailed (error : string).

(** The handler of [POST /reply/cleanup] (reply.routes.ts, lines 74-95),
    run when [new Date()] reads [now]: the status, the table left and
    the body of the answer; [None] for a request outside the model.
    [nullError] is the message of the TypeError that the engine throws
    when a property of null is read. *)
Definition post_cleanup (now : Z) (nullError : string) (body : CleanupBody)
    (conversationMappings : gmap string XMTPConversationMapping)
    : option (Z * gmap string XMTPConversationMapping * CleanupAnswer) :=
  let cleanup (body_maxAgeHours : option JSONValue) :=
    let maxAgeHours := or_24 body_maxAgeHours in
    match hours_of maxAgeHours with
    | Some h =>
        let '(mappings, cleanedCount) :=
          cleanupOldMappings now h conversationMappings in
        Some (200, mappings,
              Cleaned
                {| cleanedCount := cleanedCount; c_maxAgeHours := maxAgeHours;
                   c_message := "Cleaned up " +:+ pretty cleanedCount +:+
                                " conversation mappings older than " +:+
                                shown maxAgeHours +:+ " hours" |})
    | None => None
    end in
  match body with
  | NotJSON => cleanup None
  | BodyWithout => cleanup None
  | BodyWith maxAgeHours => cleanup (Some maxAgeHours)
  | BodyNull =>
      Some (500, conversationMappings, CleanupFailed nullError)
  end.


End ReplyRoute.

(** ** [BackendApiService] ([src/services/backend-api.service.ts]) *)

Module Backend.

(** The settings read from the environment. *)
Record Env := {
  A0X_AGENT_API_URL : string;
  DEFAULT_AGENT_ID : string;
  XMTP_SERVICE_URL : option string;
}.

Record BackendMessageRequest := {
  message : string;
  userAddress : string;
  ensName : string;
  chainId : Z;
  conversationId : string;
  xmtpServiceUrl : option string;
}.

(** [BackendMessageResponse], with [data_response] for [data?.response]. *)
Record BackendMessageResponse := {
  success : bool;
  data_response : option string;
  error : option string;
}.

(** What [axios.post] does with a request: it rejects (network error,
    timeout after 120 s, status outside 2xx) or resolves with the decoded
    body, [None] when the body holds no object. *)
Inductive AxiosResult :=
  | Rejects (message : string)
  | Resolves (data : option BackendMessageResponse).

Definition Axios := string → BackendMessageRequest → AxiosResult.

(** [responseText.replace(/\*\*/g, "")]. *)
Fixpoint strip_bold (s : string) : string :=
  match s with
  | String "*" (String "*" rest) => strip_bold rest
  | String a rest => String a (strip_bold rest)
  | EmptyString => EmptyString
  end.

Definition APOLOGY : string :=
  "Sorry, I'm experiencing technical difficulties. Please try again in a moment.".

Definition endpoint (E : Env) (targetAgentId : string) : string :=
  A0X_AGENT_API_URL E +:+ "/api/v1/agents/" +:+ targetAgentId +:+ "/xmtp".

Definition request_of (E : Env) (message senderAddress conversationId : string)
    : BackendMessageRequest :=
  {| message := message; userAddress := senderAddress; ensName := "";
     chainId := 8453; conversationId := conversationId;
     xmtpServiceUrl := XMTP_SERVICE_URL E |}.

(** The [try] block of [processMessage] (lines 43-89). *)
Definition processMessage_try (E : Env) (post : Axios)
    (message senderAddress conversationId : string) (agentId : option string)
    : Completion string :=
  let targetAgentId := or_else agentId (DEFAULT_AGENT_ID E) in
  let request := request_of E message senderAddress conversationId in
  match post (endpoint E targetAgentId) request with
  | Rejects e => Throws e
  | Resolves None => Throws "Cannot read properties of undefined (reading 'success')"
  | Resolves (Some data) =>
      if negb (success data)
      then Throws (or_else (error data) "Backend returned unsuccessful response")
      else
        let responseText := or_else (data_response data) "Response received" in
        Returns (strip_bold responseText)
  end.

(** [processMessage] (lines 37-100): the [try] block and its [catch]. *)
Definition processMessage (E : Env) (post : Axios)
    (message senderAddress conversationId : string) (agentId : option string)
    : Completion string :=
  try_catch
    (processMessage_try E post message senderAddress conversationId agentId)
    (λ _, Returns APOLOGY).


(** Whether [s] has two asterisks in a row, the pattern [/\*\*/] of
    [processMessage]. *)
Fixpoint has_bold (s : string) : bool :=
  match s with
  | String "*" (String "*" _) => true
  | String _ rest => has_bold rest
  | EmptyString => false
  end.

(** The string of [n] asterisks. *)
Fixpoint stars (n : nat) : string :=
  match n with
  | O => EmptyString
  | S n => String "*" (stars n)
  end.

End Backend.

(** ** The greeting block of the text handler ([src/index.ts], lines 208-275) *)

Module Greeting.
Import DBHealth Backend.

Definition FALLBACK_GREETING : string :=
  "👋 Hello! I'm your A0x agent. In group chats, I only respond when you reply to my messages. Reply to this message to start interacting with me!".

Definition greetingPrompt : string :=
  "User just added you to a new group chat. Please introduce yourself briefly and explain that in group chats you only respond when people reply to your messages. Keep it friendly and concise.".

(** What the handler is given and what its collaborators do. *)
Record Context := {
  conversation_id : string;
  isGroup : bool;
  hasGreeted : bool;                             (* greetedGroupsService.hasGreeted *)
  history : Completion (list DecodedMessage);    (* ctx.conversation.messages({limit: 50}) *)
  sendText : string → Completion unit;           (* ctx.sendText *)
  agent_address : option string;
  agent_inboxId : string;
}.

(** What the handler does to the outside, in order. *)
Inductive Action :=
  | SendText (text : string)
  | ResetDatabase
  | Exit (code : Z)
  | MarkAsGreeted (conversationId : string).

(** How the block ends: the process exits, the handler returns, or the
    handler goes on with the message. *)
Inductive Outcome := Exited | Returned | GoesOn.

(** A computation that performs actions and then returns or throws. *)
Definition Eff (A : Type) : Type := list Action * Completion A.

Definition send (ctx : Context) (text : string) : Eff unit :=
  ([SendText text], sendText ctx text).

(** Lines 244-259:
    [try { greeting = await processMessage(..); await ctx.sendText(greeting) }
     catch { await ctx.sendText(fallback) }]. *)
Definition greet (E : Env) (post : Axios) (ctx : Context) : Eff unit :=
  let attempt : Eff unit :=
    match processMessage E post greetingPrompt
            (or_else (agent_address ctx) "unknown") (conversation_id ctx) None with
    | Returns greeting => send ctx greeting
    | Throws e => ([], Throws e)
    end in
  match attempt with
  | (acts, Returns tt) => (acts, Returns tt)
  | (acts, Throws _) =>
      let '(acts', r) := send ctx FALLBACK_GREETING in (acts ++ acts', r)
  end.

(** The block of the text handler that starts at the test
    [filter.isGroup(ctx.conversation)]: the actions, how it ends, and the
    table of the health service. *)
Definition greeting_block (E : Env) (post : Axios) (ctx : Context)
    (conversationHashes : gmap string Entry)
    : list Action * Outcome * gmap string Entry :=
  if isGroup ctx && negb (hasGreeted ctx) then
    match history ctx with
    | Throws _ =>
        ([MarkAsGreeted (conversation_id ctx)], Returned, conversationHashes)
    | Returns messages =>
        let '(hashes, needsReset) :=
          checkMessageArray (conversation_id ctx) messages conversationHashes in
        if needsReset then ([ResetDatabase; Exit 1], Exited, hashes)
        else
          let agentHasSentMessages :=
            existsb (λ msg, bool_decide (m_senderInboxId msg = agent_inboxId ctx))
                    messages in
          if negb agentHasSentMessages then
            (* an error of the fallback send is caught by the outer catch *)
            let '(acts, _) := greet E post ctx in
            (acts ++ [MarkAsGreeted (conversation_id ctx)], Returned, hashes)
          else ([MarkAsGreeted (conversation_id ctx)], Returned, hashes)
    end
  else ([], GoesOn, conversationHashes).

(** A group that was never greeted, with one message of a user in its
    history, while the backend is unreachable. *)
Definition unreachable_backend : Axios := λ _ _, Rejects "connect ECONNREFUSED".

Definition new_group : Context :=
  {| conversation_id := "group1"; isGroup := true; hasGreeted := false;
     history := Returns [{| m_id := "m1"; m_senderInboxId := "user" |}];
     sendText := λ _, Returns tt;
     agent_address := Some "0xagent"; agent_inboxId := "agent" |}.

Definition env0 : Env :=
  {| A0X_AGENT_API_URL := "http://backend"; DEFAULT_AGENT_ID := "agent0";
     XMTP_SERVICE_URL := None |}.

End Greeting.

(** ** The [POST /send-message] route ([src/routes/reply.routes.ts]) *)

Module SendRoute.
Import ReplyRoute.

(** What [createDmWithAddress] and [conversations.newDm] do: they resolve
    to a conversation (or to nothing), or they reject. *)
Inductive DmOutcome :=
  | DmResolves (dm : option Conversation)
  | DmRejects (message : string).

Record Agent := {
  createDmWithAddress : string → DmOutcome;
  newDm : string → DmOutcome;
}.

(** The JSON body of the request; its properties are strings when
    present. *)
Record SendBody := {
  sb_address : option string;
  sb_inboxId : option string;
  sb_message : option string;
}.

(** The calls that the handler makes on the agent and on the
    conversation. *)
Inductive Call :=
  | CallCreateDmWithAddress (address : string)
  | CallNewDm (inboxId : string)
  | CallSend (conversation : string) (text : string).

#[global] Instance Call_eq_dec : EqDecision Call.
Proof. solve_decision. Defined.

Record SendResponse := {
  s_status : Z;
  s_success : bool;
  s_error : option string;
  s_conversationId : option string;
  s_message : option string;
}.

Definition refuse (status : Z) (err : string) : SendResponse :=
  {| s_status := status; s_success := false; s_error := Some err;
     s_conversationId := None; s_message := None |}.

(** The last part of the handler (lines 202-231), once the creation of
    the conversation has resolved to [dm]. *)
Definition deliver (calls : list Call) (dm : option Conversation)
    (message : string) : list Call * SendResponse :=
  match dm with
  | None => (calls, refuse 500 "Failed to create conversation")
  | Some dm =>
      match conv_send dm message with
      | SendOk =>
          (calls ++ [CallSend (conv_id dm) message],
           {| s_status := 200; s_success := true; s_error := None;
              s_conversationId := Some (conv_id dm);
              s_message := Some "Message sent successfully" |})
      | SendThrows err =>
          (calls ++ [CallSend (conv_id dm) message],
           refuse 500 ("Failed to send message: " +:+ err))
      end
  end.

(** The handler of [POST /send-message] (lines 134-238): the calls made,
    in order, and the answer. The body is [None] when reading it as JSON
    throws. *)
Definition post_send_message (agent : option Agent) (body : option SendBody)
    : list Call * SendResponse :=
  match agent with
  | None => ([], refuse 503 "Agent not available")
  | Some agent =>
      match body with
      | None => ([], refuse 500 "Internal server error")
      | Some body =>
          match given (sb_message body) with
          | None => ([], refuse 400 "message is required")
          | Some message =>
              match given (sb_address body), given (sb_inboxId body) with
              | None, None =>
                  ([], refuse 400 "Either address or inboxId is required")
              | Some address, _ =>
                  match createDmWithAddress agent address with
                  | DmRejects err =>
                      ([CallCreateDmWithAddress address],
                       refuse 500 ("Failed to create DM with address: " +:+ err))
                  | DmResolves dm =>
                      deliver [CallCreateDmWithAddress address] dm message
                  end
              | None, Some inboxId =>
                  match newDm agent inboxId with
                  | DmRejects err =>
                      ([CallNewDm inboxId],
                       refuse 500 ("Failed to create DM with inboxId: " +:+ err))
                  | DmResolves dm => deliver [CallNewDm inboxId] dm message
                  end
              end
          end
      end
  end.

(** An agent that cannot reach a wallet address but can open a
    conversation by inbox identifier. *)
Definition agent_inbox_only : Agent :=
  {| createDmWithAddress := λ _, DmRejects "no inbox for address";
     newDm := λ _, DmResolves (Some {| conv_id := "dm1"; conv_send := λ _, SendOk |}) |}.

End SendRoute.

(** ** [GreetedGroupsService] ([src/services/greeted-groups.service.ts]) *)

Module Greeted.

(** The cache of the service and the documents of the Firestore
    collection ["xmtp-greeted-groups"], each with its [greetedAt]. *)
Record State := {
  cache : gset string;
  docs : gmap string Z;
}.

(** [hasGreeted] (lines 27-55); [up] tells whether the read of the
    document goes through or throws. *)
Definition hasGreeted (up : bool) (conversationId : string) (st : State)
    : State * bool :=
  if decide (conversationId ∈ cache st) then (st, true)
  else if up then
    let exists_ := bool_decide (is_Some (docs st !! conversationId)) in
    if exists_
    then ({| cache := cache st ∪ {[ conversationId ]}; docs := docs st |}, true)
    else (st, false)
  else (st, false).

(** [markAsGreeted] (lines 60-80), run when [new Date()] reads [now];
    [up] tells whether the write goes through or throws. *)
Definition markAsGreeted (up : bool) (now : Z) (conversationId : string)
    (st : State) : State :=
  if up then {| cache := cache st ∪ {[ conversationId ]};
                docs := <[conversationId := now]> (docs st) |}
  else st.

(** [cleanup] (lines 85-115) for the cut-off date [cutoff]; [up_query]
    and [up_commit] tell whether the query and the commit of the batch go
    through or throw. The identifiers are taken out of the cache while
    the batch is filled, before it is committed. *)
Definition cleanup (up_query up_commit : bool) (cutoff : Z) (st : State)
    : State * Z :=
  if up_query then
    let snapshot := filter (λ kv, kv.2 < cutoff) (docs st) in
    let cache' := cache st ∖ dom snapshot in
    if up_commit
    then ({| cache := cache'; docs := filter (λ kv, ¬ kv.2 < cutoff) (docs st) |},
          Z.of_nat (size snapshot))
    else ({| cache := cache'; docs := docs st |}, 0)
  else (st, 0).

(** Every cached identifier has its document. *)
Definition sound (st : State) : Prop :=
  ∀ c, c ∈ cache st → is_Some (docs st !! c).

(** One call of the service. *)
Inductive Op :=
  | OpHasGreeted (up : bool) (conversationId : string)
  | OpMarkAsGreeted (up : bool) (now : Z) (conversationId : string)
  | OpCleanup (up_query up_commit : bool) (cutoff : Z).

Definition op (st : State) (o : Op) : State :=
  match o with
  | OpHasGreeted up c => (hasGreeted up c st).1
  | OpMarkAsGreeted up now c => markAsGreeted up now c st
  | OpCleanup uq uc cutoff => (cleanup uq uc cutoff st).1
  end.

(** A call that can remove the document of [c]. *)
Definition is_cleanup (o : Op) : bool :=
  match o with OpCleanup _ _ _ => true | _ => false end.

End Greeted.

(** ** The handlers that greet a group ([src/index.ts]) *)

Module Welcome.
Import DBHealth Backend Greeting.

Definition with_hasGreeted (ctx : Context) (greeted : bool) : Context :=
  {| conversation_id := conversation_id ctx; isGroup := isGroup ctx;
     hasGreeted := greeted; history := history ctx; sendText := sendText ctx;
     agent_address := agent_address ctx; agent_inboxId := agent_inboxId ctx |}.

(** The calls of [markAsGreeted] among the actions of a handler, on the
    state of the service. *)
Definition apply_marks (up : bool) (now : Z) (acts : list Action)
    (st : Greeted.State) : Greeted.State :=
  foldl (λ st a,
           match a with
           | MarkAsGreeted c => Greeted.markAsGreeted up now c st
           | _ => st
           end) st acts.

(** The greeting block of the text handler (lines 208-275) with the
    service behind [hasGreeted] and [markAsGreeted]; [up_get] and
    [up_set] tell whether the read and the write of Firestore go
    through. *)
Definition text_greeting (up_get up_set : bool) (now : Z) (E : Env)
    (post : Axios) (ctx : Context) (st : Greeted.State)
    (conversationHashes : gmap string Entry)
    : Greeted.State * list Action * Outcome * gmap string Entry :=
  let '(st1, greeted) :=
    if isGroup ctx then Greeted.hasGreeted up_get (conversation_id ctx) st
    else (st, false) in
  let '(acts, out, hashes) :=
    greeting_block E post (with_hasGreeted ctx greeted) conversationHashes in
  (apply_marks up_set now acts st1, acts, out, hashes).

(** The [try]/[catch] shared by the handlers of [conversation] (lines
    840-860) and [group-update] (lines 917-937): the sends made with
    [ctx.conversation.send] and the call of [markAsGreeted]. An error of
    the fallback send leaves the handler through its outer [catch]. *)
Definition welcome (E : Env) (post : Axios) (send : string → Completion unit)
    (address conversationId : string) : list Action :=
  let fallback :=
    match send FALLBACK_GREETING with
    | Returns _ => [SendText FALLBACK_GREETING; MarkAsGreeted conversationId]
    | Throws _ => [SendText FALLBACK_GREETING]
    end in
  match processMessage E post greetingPrompt address conversationId None with
  | Throws _ => fallback
  | Returns greeting =>
      match send greeting with
      | Returns _ => [SendText greeting; MarkAsGreeted conversationId]
      | Throws _ => SendText greeting :: fallback
      end
  end.

(** What the two handlers are given. *)
Record Event := {
  ev_conversation : string;                  (* ctx.conversation.id *)
  ev_isDm : bool;
  ev_isGroup : bool;
  ev_send : string → Completion unit;        (* ctx.conversation.send *)
  ev_agent_address : option string;          (* agent.address *)
  ev_agent_inboxId : string;                 (* agent.client.inboxId *)
  ev_getSenderAddress : Completion string;   (* ctx.getSenderAddress() *)
  (* ctx.message.content of a group update: [None] when it is
     undefined, otherwise its addedInboxes, if any, by inboxId *)
  ev_update : option (option (list string));
}.

(** The handler of [conversation] (lines 801-866): the state of the
    service, the actions and the mappings of the reply service. *)
Definition on_conversation (up_get up_set : bool) (now : Z) (E : Env)
    (post : Axios) (ev : Event) (st : Greeted.State)
    (mappings : gmap string Reply.XMTPConversationMapping)
    : Greeted.State * list Action * gmap string Reply.XMTPConversationMapping :=
  if ev_isDm ev then (st, [], mappings)
  else if ev_isGroup ev then
    let '(st1, greeted) := Greeted.hasGreeted up_get (ev_conversation ev) st in
    if greeted then (st1, [], mappings)
    else
      let agentAddress := or_else (ev_agent_address ev) "unknown" in
      let mappings' :=
        Reply.addMapping now (ev_conversation ev) (ev_conversation ev)
          agentAddress None mappings in
      let acts := welcome E post (ev_send ev) agentAddress (ev_conversation ev) in
      (apply_marks up_set now acts st1, acts, mappings')
  else (st, [], mappings).

(** The handler of [group-update] (lines 869-964). *)
Definition on_group_update (up_get up_set : bool) (now : Z) (E : Env)
    (post : Axios) (ev : Event) (st : Greeted.State)
    (mappings : gmap string Reply.XMTPConversationMapping)
    : Greeted.State * list Action * gmap string Reply.XMTPConversationMapping :=
  match ev_update ev with
  | None => (st, [], mappings)
  | Some addedInboxes =>
      let botWasAdded :=
        match addedInboxes with
        | Some inboxes =>
            existsb (λ inboxId, bool_decide (inboxId = ev_agent_inboxId ev)) inboxes
        | None => false
        end in
      if botWasAdded then
        let '(st1, greeted) := Greeted.hasGreeted up_get (ev_conversation ev) st in
        if greeted then (st1, [], mappings)
        else
          match ev_getSenderAddress ev with
          | Throws _ => (st1, [], mappings)
          | Returns senderAddress =>
              let mappings' :=
                Reply.addMapping now (ev_conversation ev) (ev_conversation ev)
                  senderAddress None mappings in
              let acts :=
                welcome E post (ev_send ev) senderAddress (ev_conversation ev) in
              (apply_marks up_set now acts st1, acts, mappings')
          end
      else (st, [], mappings)
  end.

(** The texts sent, in order. *)
Definition texts_sent (acts : list Action) : list string :=
  omap (λ a, match a with SendText t => Some t | _ => None end) acts.

(** The conversations marked as greeted, in order. *)
Definition marked (acts : list Action) : list string :=
  omap (λ a, match a with MarkAsGreeted c => Some c | _ => None end) acts.

(** A group to which the agent cannot send. *)
Definition muted_group : Event :=
  {| ev_conversation := "group1"; ev_isDm := false; ev_isGroup := true;
     ev_send := λ _, Throws "send failed";
     ev_agent_address := Some "0xagent"; ev_agent_inboxId := "agent";
     ev_getSenderAddress := Returns "0xuser";
     ev_update := Some (Some ["agent"]) |}.

End Welcome.

(** ** The handler of [reply] ([src/index.ts], lines 437-649) *)

Module ReplyHandler.
Import DBHealth Backend.

(** The double quote of the template literal of line 565. *)
Definition QUOTE : string := String (ascii_of_nat 34) EmptyString.

(** The content of a message of the history, as the handler reads it:
    nothing, a string, or an object whose [content] property is a string
    or absent. *)
Inductive Content :=
  | CNone
  | CText (text : string)
  | CObject (content : option string).

Record HistoryMessage := {
  hm_message : DecodedMessage;
  hm_content : Content;
}.

(** What the handler is given and what its collaborators do. *)
Record ReplyEvent := {
  re_id : string;                                           (* ctx.message.id *)
  re_conversation : string;                                 (* ctx.conversation.id *)
  re_isGroup : bool;
  re_reference : string;                                    (* replyContent.reference *)
  re_content : string;                                      (* replyContent.content *)
  re_messages : nat → Completion (list HistoryMessage);     (* ctx.conversation.messages({limit}) *)
  re_getSenderAddress : Completion string;
  re_sendText : string → Completion unit;
  re_agent_inboxId : string;
}.

(** [messages.find((msg) => msg.id === reference)]. *)
Definition find_message (reference : string) (messages : list HistoryMessage)
    : option HistoryMessage :=
  List.find (λ msg, bool_decide (m_id (hm_message msg) = reference)) messages.

(** How the handler ends: the process exits, the handler returns without
    processing, it is left through its [catch], or the reply is passed on
    with the text [messageContent]. *)
Inductive Outcome :=
  | Exited
  | Ignored
  | Failed
  | Processed (messageContent : string).

(** Lines 464-529: in a group the reply must be to a message of the
    agent; [None] when the handler goes on. *)
Definition verify_group (ev : ReplyEvent) (conversationHashes : gmap string Entry)
    : option Outcome * gmap string Entry :=
  if re_isGroup ev then
    match re_messages ev 300%nat with
    | Throws _ => (Some Ignored, conversationHashes)
    | Returns messages =>
        let '(hashes, needsReset) :=
          checkMessageArray (re_conversation ev) (hm_message <$> messages)
            conversationHashes in
        if needsReset then (Some Exited, hashes)
        else
          match find_message (re_reference ev) messages with
          | Some referencedMessage =>
              if decide (m_senderInboxId (hm_message referencedMessage)
                         = re_agent_inboxId ev)
              then (None, hashes)
              else (Some Ignored, hashes)
          | None => (Some Ignored, hashes)
          end
    end
  else (None, conversationHashes).

(** Lines 548-557: the text of the original message, if it has one. *)
Definition replyToText (originalMessage : option HistoryMessage) : option string :=
  match originalMessage with
  | Some m =>
      match hm_content m with
      | CText text => given (Some text)
      | CObject content => given content
      | CNone => None
      end
  | None => None
  end.

(** Lines 562-565. *)
Definition truncatedText (replyToText : string) : string :=
  if decide (200 < length16 replyToText)%nat
  then substring16 200 replyToText +:+ "..."
  else replyToText.

Definition with_context (replyToText messageContent : string) : string :=
  "[Immediate parent message]: " +:+ QUOTE +:+ truncatedText replyToText +:+
  QUOTE +:+ LFLF +:+ messageContent.

(** Lines 531-585: the text passed on, or [None] when the process
    exits. *)
Definition add_context (ev : ReplyEvent) (conversationHashes : gmap string Entry)
    : option string * gmap string Entry :=
  match re_messages ev 100%nat with
  | Throws _ => (Some (re_content ev), conversationHashes)
  | Returns messages =>
      let '(hashes, needsReset) :=
        checkMessageArray (re_conversation ev) (hm_message <$> messages)
          conversationHashes in
      if needsReset then (None, hashes)
      else
        match replyToText (find_message (re_reference ev) messages) with
        | Some text => (Some (with_context text (re_content ev)), hashes)
        | None => (Some (re_content ev), hashes)
        end
  end.

Definition SORRY_REPLY : string :=
  "Sorry, I encountered an error processing your reply. Please try again.".

(** Lines 612-639: the calls of [ctx.sendText] of the background
    promise. *)
Definition respond (E : Env) (post : Axios) (ev : ReplyEvent)
    (messageContent senderAddress : string) : list string :=
  match processMessage E post messageContent senderAddress
          (re_conversation ev) None with
  | Returns response =>
      match re_sendText ev response with
      | Returns _ => [response]
      | Throws _ => [response; SORRY_REPLY]
      end
  | Throws _ => [SORRY_REPLY]
  end.

(** What a run of the handler leaves behind. *)
Record Result := {
  r_outcome : Outcome;
  r_processed : list string;                                 (* processedMessages *)
  r_hashes : gmap string Entry;                              (* conversationHashes *)
  r_mappings : gmap string Reply.XMTPConversationMapping;    (* conversationMappings *)
  r_sent : list string;                                      (* texts given to ctx.sendText *)
}.

(** The handler, run when [new Date()] reads [now]. The acknowledgment
    reaction of lines 594-605, whose failure is ignored, is left out. *)
Definition on_reply (now : Z) (E : Env) (post : Axios) (ev : ReplyEvent)
    (processedMessages : list string) (conversationHashes : gmap string Entry)
    (mappings : gmap string Reply.XMTPConversationMapping) : Result :=
  if Ledger.has (re_id ev) processedMessages then
    {| r_outcome := Ignored; r_processed := processedMessages;
       r_hashes := conversationHashes; r_mappings := mappings; r_sent := [] |}
  else
    let processed := Ledger.add (re_id ev) processedMessages in
    match re_getSenderAddress ev with
    | Throws _ =>
        {| r_outcome := Failed; r_processed := processed;
           r_hashes := conversationHashes; r_mappings := mappings; r_sent := [] |}
    | Returns senderAddress =>
        match verify_group ev conversationHashes with
        | (Some outcome, hashes) =>
            {| r_outcome := outcome; r_processed := processed;
               r_hashes := hashes; r_mappings := mappings; r_sent := [] |}
        | (None, hashes) =>
            match add_context ev hashes with
            | (None, hashes') =>
                {| r_outcome := Exited; r_processed := processed;
                   r_hashes := hashes'; r_mappings := mappings; r_sent := [] |}
            | (Some messageContent, hashes') =>
                {| r_outcome := Processed messageContent;
                   r_processed := processed;
                   r_hashes := hashes';
                   r_mappings :=
                     Reply.addMapping now (re_conversation ev) (re_conversation ev)
                       senderAddress None mappings;
                   r_sent := respond E post ev messageContent senderAddress |}
            end
        end
    end.

(** A reply, in conversation ["c1"], to the only message of its history,
    which the agent wrote. *)
Definition reply_to_agent (id : string) (group : bool) : ReplyEvent :=
  {| re_id := id; re_conversation := "c1"; re_isGroup := group;
     re_reference := "m1"; re_content := "and then?";
     re_messages := λ _,
       Returns [{| hm_message := {| m_id := "m1"; m_senderInboxId := "agent" |};
                   hm_content := CText "hello" |}];
     re_getSenderAddress := Returns "0xuser";
     re_sendText := λ _, Returns tt;
     re_agent_inboxId := "agent" |}.

(** A string of bytes below 128. *)
Fixpoint is_ascii (s : string) : bool :=
  match s with
  | EmptyString => true
  | String a s' => (N_of_ascii a <? 0x80)%N && is_ascii s'
  end.

End ReplyHandler.

(** ** [ImageAnalysisService.formatForBackend]
    ([src/services/image-analysis.service.ts]) *)

Module Image.

Record ImageAnalysisResult := {
  success : bool;
  analysis : option string;
  error : option string;
}.

(** [formatForBackend] (lines 199-213). *)
Definition formatForBackend (result : ImageAnalysisResult) (filename : string)
    : string :=
  let message := "User shared an image" in
  if success result && bool_decide (is_Some (given (analysis result))) then
    message +:+ LFLF +:+ "[Image Analysis: " +:+
      default "" (analysis result) +:+ "]"
  else if bool_decide (is_Some (given (error result))) then
    message +:+ LFLF +:+ "[Image analysis failed: " +:+
      default "" (error result) +:+ "]"
  else
    message +:+ LFLF +:+ "[Image received but analysis unavailable]".

(** What a formatted message tells about the result. *)
Inductive Shape :=
  | Analysed (analysis : string)
  | FailedWith (error : string)
  | Unavailable.

Definition shape (result : ImageAnalysisResult) : Shape :=
  match (if success result then given (analysis result) else None),
        given (error result) with
  | Some a, _ => Analysed a
  | None, Some e => FailedWith e
  | None, None => Unavailable
  end.

(** The message of a shape. *)
Definition message_of_shape (s : Shape) : string :=
  "User shared an image" +:+ LFLF +:+
  match s with
  | Analysed a => "[Image Analysis: " +:+ a +:+ "]"
  | FailedWith e => "[Image analysis failed: " +:+ e +:+ "]"
  | Unavailable => "[Image received but analysis unavailable]"
  end.

End Image.

(** * Part II: properties *)

(** ** The batching system *)

Module BatchFacts.
Import Batch.

Lemma Inv_init : Inv init.
Proof.
  split; simpl; intros *;
    rewrite ?lookup_empty, ?is_Some_alt; try done.
  by intros ?%elem_of_nil.
Qed.
Lemma timer_of_pending st k p :
  Inv st → pendingMessages st !! k = Some p →
  ∃ tm, timers st !! timeout p = Some tm ∧ t_batchKey tm = k ∧
        t_messages tm = messages p.
Proof. intros HI. apply (inv_pending_timer _ HI). Qed.

Lemma pending_of_timer st tid tm :
  Inv st → timers st !! tid = Some tm →
  ∃ p, pendingMessages st !! t_batchKey tm = Some p ∧ timeout p = tid ∧
       messages p = t_messages tm.
Proof.
  intros HI Htm. destruct (inv_timer_pending _ HI _ _ Htm) as (p & Hp & Ht).
  destruct (inv_pending_timer _ HI _ _ Hp) as (tm' & Htm' & _ & Hm).
  exists p. split_and!; [done..|]. rewrite Ht in Htm'. congruence.
Qed.

Lemma Inv_addMessageToBatch st now c s i ty co fn :
  Inv st → clock st ≤ now → Inv (addMessageToBatch now c s i ty co fn st).
Proof.
  intros HI Hnow. unfold addMessageToBatch.
  destruct (pendingMessages st !! batchKey c s) as [e|] eqn:He.
  - destruct (timer_of_pending _ _ _ HI He) as (tm0 & Htm0 & Hk0 & Hm0).
    destruct (inv_array_alloc _ HI _ _ He) as [ms0 Hms0].
    split; simpl.
    + intros k p. destruct (decide (k = batchKey c s)) as [->|Hne].
      * rewrite lookup_insert_eq. intros [= <-]. simpl.
        rewrite lookup_insert_eq. eauto.
      * rewrite lookup_insert_ne by done. intros Hp.
        destruct (timer_of_pending _ _ _ HI Hp) as (tm & Htm & Hk & Hm).
        exists tm. split_and!; [|done..].
        rewrite lookup_insert_ne, lookup_delete_ne; [done| |].
        -- intros Heq. rewrite Heq in Htm0. congruence.
        -- intros Heq. pose proof (inv_timer_fresh _ HI (timeout p)) as Hf.
           rewrite Htm in Hf. specialize (Hf (mk_is_Some _ _ eq_refl)). lia.
    + intros tid tm. destruct (decide (tid = nextTimer st)) as [->|Hne].
      * rewrite lookup_insert_eq. intros [= <-]. simpl.
        rewrite lookup_insert_eq. eauto.
      * rewrite lookup_insert_ne by done.
        intros [Hne' Htm]%lookup_delete_Some.
        destruct (pending_of_timer _ _ _ HI Htm) as (p & Hp & Ht & Hm).
        exists p. split; [|done].
        rewrite lookup_insert_ne; [done|]. intros Heq. congruence.
    + intros k p Hp. rewrite lookup_alter_is_Some.
      destruct (decide (k = batchKey c s)) as [->|Hne].
      * rewrite lookup_insert_eq in Hp. injection Hp as <-. simpl. eauto.
      * rewrite lookup_insert_ne in Hp by done.
        apply (inv_array_alloc _ HI _ _ Hp).
    + intros r. rewrite lookup_alter_is_Some.
      apply (inv_array_fresh _ HI).
    + intros k1 k2 p1 p2.
      destruct (decide (k1 = batchKey c s)) as [->|Hne1];
        destruct (decide (k2 = batchKey c s)) as [->|Hne2]; [done|..];
        rewrite ?lookup_insert_eq, ?lookup_insert_ne by done.
      * intros [= <-] Hp2 Hm. simpl in Hm.
        apply (inv_array_sep _ HI _ _ _ _ He Hp2 Hm).
      * intros Hp1 [= <-] Hm. simpl in Hm.
        apply (inv_array_sep _ HI _ _ _ _ Hp1 He Hm).
      * apply (inv_array_sep _ HI).
    + intros tid. destruct (decide (tid = nextTimer st)) as [->|Hne]; [lia|].
      rewrite lookup_insert_ne by done.
      intros [tm [_ Htm]%lookup_delete_Some].
      pose proof (inv_timer_fresh _ HI tid (mk_is_Some _ _ Htm)). lia.
    + intros tid tm ms m. destruct (decide (tid = nextTimer st)) as [->|Hne].
      * rewrite lookup_insert_eq. intros [= <-]. simpl.
        rewrite lookup_alter_eq, Hms0. simpl. intros [= <-].
        intros [Hin| ->%list_elem_of_singleton]%elem_of_app; simpl; [|lia].
        pose proof (inv_stamp _ HI _ _ _ Hms0 Hin). lia.
      * rewrite lookup_insert_ne by done.
        intros [Hne' Htm]%lookup_delete_Some.
        destruct (pending_of_timer _ _ _ HI Htm) as (p & Hp & Ht & Hm).
        rewrite lookup_alter_ne.
        -- apply (inv_deadline _ HI _ _ _ _ Htm).
        -- intros Heq. rewrite <- Hm in Heq.
           pose proof (inv_array_sep _ HI _ _ _ _ He Hp Heq). congruence.
    + intros r ms m.
      intros [[<- (ms' & Hr & ->)]|[_ Hr]]%lookup_alter_Some.
      * intros [Hin| ->%list_elem_of_singleton]%elem_of_app; simpl; [|lia].
        pose proof (inv_stamp _ HI _ _ _ Hr Hin). lia.
      * intros Hin. pose proof (inv_stamp _ HI _ _ _ Hr Hin). lia.
    + apply (inv_flush _ HI).
  - assert (Hfresh : arrays st !! nextArray st = None).
    { destruct (arrays st !! nextArray st) eqn:Hr; [|done].
      pose proof (inv_array_fresh _ HI _ (mk_is_Some _ _ Hr)). lia. }
    assert (Hold : ∀ k p, pendingMessages st !! k = Some p →
                          messages p ≠ nextArray st).
    { intros k p Hp Heq. destruct (inv_array_alloc _ HI _ _ Hp) as [ms Hms].
      congruence. }
    split; simpl.
    + intros k p. destruct (decide (k = batchKey c s)) as [->|Hne].
      * rewrite lookup_insert_eq. intros [= <-]. simpl.
        rewrite lookup_insert_eq. eauto.
      * rewrite lookup_insert_ne by done. intros Hp.
        destruct (timer_of_pending _ _ _ HI Hp) as (tm & Htm & Hk & Hm).
        exists tm. split_and!; [|done..].
        rewrite lookup_insert_ne; [done|].
        intros Heq. pose proof (inv_timer_fresh _ HI _ (mk_is_Some _ _ Htm)). lia.
    + intros tid tm. destruct (decide (tid = nextTimer st)) as [->|Hne].
      * rewrite lookup_insert_eq. intros [= <-]. simpl.
        rewrite lookup_insert_eq. eauto.
      * rewrite lookup_insert_ne by done. intros Htm.
        destruct (pending_of_timer _ _ _ HI Htm) as (p & Hp & Ht & Hm).
        exists p. split; [|done].
        rewrite lookup_insert_ne; [done|]. intros Heq. congruence.
    + intros k p Hp. rewrite lookup_alter_is_Some.
      destruct (decide (k = batchKey c s)) as [->|Hne].
      * rewrite lookup_insert_eq in Hp. injection Hp as <-. simpl.
        rewrite lookup_insert_eq. eauto.
      * rewrite lookup_insert_ne in Hp by done.
        rewrite lookup_insert_ne by (symmetry; eauto).
        apply (inv_array_alloc _ HI _ _ Hp).
    + intros r. rewrite lookup_alter_is_Some.
      destruct (decide (r = nextArray st)) as [->|Hne]; [lia|].
      rewrite lookup_insert_ne by done. intros Hr.
      pose proof (inv_array_fresh _ HI _ Hr). lia.
    + intros k1 k2 p1 p2.
      destruct (decide (k1 = batchKey c s)) as [->|Hne1];
        destruct (decide (k2 = batchKey c s)) as [->|Hne2]; [done|..];
        rewrite ?lookup_insert_eq, ?lookup_insert_ne by done.
      * intros [= <-] Hp2 Hm. simpl in Hm. by destruct (Hold _ _ Hp2).
      * intros Hp1 [= <-] Hm. simpl in Hm. by destruct (Hold _ _ Hp1).
      * apply (inv_array_sep _ HI).
    + intros tid. destruct (decide (tid = nextTimer st)) as [->|Hne]; [lia|].
      rewrite lookup_insert_ne by done. intros Htm.
      pose proof (inv_timer_fresh _ HI tid Htm). lia.
    + intros tid tm ms m. destruct (decide (tid = nextTimer st)) as [->|Hne].
      * rewrite lookup_insert_eq. intros [= <-]. simpl.
        rewrite lookup_alter_eq, lookup_insert_eq. simpl. intros [= <-].
        intros ->%list_elem_of_singleton. simpl. lia.
      * rewrite lookup_insert_ne by done. intros Htm.
        destruct (pending_of_timer _ _ _ HI Htm) as (p & Hp & Ht & Hm).
        rewrite lookup_alter_ne, lookup_insert_ne.
        -- apply (inv_deadline _ HI _ _ _ _ Htm).
        -- rewrite <- Hm. symmetry. eauto.
        -- rewrite <- Hm. symmetry. eauto.
    + intros r ms m.
      intros [[<- (ms' & Hr & ->)]|[Hne Hr]]%lookup_alter_Some.
      * rewrite lookup_insert_eq in Hr. injection Hr as <-.
        intros ->%list_elem_of_singleton. simpl. lia.
      * rewrite lookup_insert_ne in Hr by done.
        intros Hin. pose proof (inv_stamp _ HI _ _ _ Hr Hin). lia.
    + apply (inv_flush _ HI).
Qed.

Lemma Inv_fire st now tid tm :
  Inv st → clock st ≤ now → timers st !! tid = Some tm → deadline tm ≤ now →
  Inv (fire now tid tm st).
Proof.
  intros HI Hnow Htm Hd.
  destruct (pending_of_timer _ _ _ HI Htm) as (p0 & Hp0 & Ht0 & Hm0).
  split; simpl.
  - intros k p [Hne Hp]%lookup_delete_Some.
    destruct (timer_of_pending _ _ _ HI Hp) as (tm' & Htm' & Hk & Hm).
    exists tm'. split_and!; [|done..].
    rewrite lookup_delete_ne; [done|]. intros Heq. congruence.
  - intros tid' tm' [Hne Htm']%lookup_delete_Some.
    destruct (pending_of_timer _ _ _ HI Htm') as (p & Hp & Ht & Hm).
    exists p. split; [|done].
    rewrite lookup_delete_ne; [done|]. intros Heq. congruence.
  - intros k p [Hne Hp]%lookup_delete_Some. apply (inv_array_alloc _ HI _ _ Hp).
  - apply (inv_array_fresh _ HI).
  - intros k1 k2 p1 p2 [_ Hp1]%lookup_delete_Some [_ Hp2]%lookup_delete_Some.
    apply (inv_array_sep _ HI _ _ _ _ Hp1 Hp2).
  - intros tid' [tm' [_ Htm']%lookup_delete_Some].
    apply (inv_timer_fresh _ HI _ (mk_is_Some _ _ Htm')).
  - intros tid' tm' ms m [_ Htm']%lookup_delete_Some.
    apply (inv_deadline _ HI _ _ _ _ Htm').
  - intros r ms m Hr Hin. pose proof (inv_stamp _ HI _ _ _ Hr Hin). lia.
  - intros f m [Hf| ->%list_elem_of_singleton]%elem_of_app.
    + apply (inv_flush _ HI _ _ Hf).
    + simpl. destruct (arrays st !! t_messages tm) as [ms|] eqn:Hms; simpl.
      * intros Hin. pose proof (inv_deadline _ HI _ _ _ _ Htm Hms Hin). lia.
      * by intros ?%elem_of_nil.
Qed.

Lemma Inv_step st ev st' : Inv st → step st ev = Some st' → Inv st'.
Proof.
  intros HI. unfold step. case_decide as Hclk; [|done].
  destruct ev as [now c s i ty co fn|now tid]; simpl in *.
  - intros [= <-]. by apply Inv_addMessageToBatch.
  - destruct (timers st !! tid) as [tm|] eqn:Htm; [|done].
    case_decide; [|done]. intros [= <-]. by apply Inv_fire.
Qed.

Lemma Inv_run evs : ∀ st st', Inv st → run st evs = Some st' → Inv st'.
Proof.
  induction evs as [|ev evs IH]; simpl; intros st st' HI.
  - by intros [= <-].
  - destruct (step st ev) as [st1|] eqn:Hstep; [|done]. simpl.
    apply IH. by eapply Inv_step.
Qed.

Lemma batch_of_None key st :
  Inv st → batch_of key st = None ↔ pendingMessages st !! key = None.
Proof.
  intros HI. unfold batch_of. split.
  - destruct (pendingMessages st !! key) as [p|] eqn:Hp; [|done]. simpl.
    destruct (timer_of_pending _ _ _ HI Hp) as (tm & -> & _ & _). simpl.
    destruct (inv_array_alloc _ HI _ _ Hp) as [ms ->]. done.
  - by intros ->.
Qed.

Lemma batch_of_add_same st now c s i ty co fn :
  Inv st →
  batch_of (batchKey c s) (addMessageToBatch now c s i ty co fn st) =
    Some (old_messages (batch_of (batchKey c s) st) ++
            [{| id := i; type := ty; content := co; timestamp := now |}],
          now + MESSAGE_BATCH_DELAY, fn).
Proof.
  intros HI. unfold batch_of, addMessageToBatch.
  destruct (pendingMessages st !! batchKey c s) as [e|] eqn:He; simpl.
  - destruct (timer_of_pending _ _ _ HI He) as (tm0 & Htm0 & Hk0 & Hm0).
    destruct (inv_array_alloc _ HI _ _ He) as [ms0 Hms0].
    rewrite lookup_insert_eq. simpl. rewrite lookup_insert_eq. simpl.
    rewrite lookup_alter_eq, Hms0, Htm0. done.
  - rewrite lookup_insert_eq. simpl. rewrite lookup_insert_eq. simpl.
    by rewrite lookup_alter_eq, lookup_insert_eq.
Qed.

Lemma batch_of_add_other st key now c s i ty co fn :
  Inv st → batchKey c s ≠ key →
  batch_of key (addMessageToBatch now c s i ty co fn st) = batch_of key st.
Proof.
  intros HI Hne. unfold batch_of, addMessageToBatch.
  destruct (pendingMessages st !! batchKey c s) as [e|] eqn:He; simpl.
  - destruct (timer_of_pending _ _ _ HI He) as (tm0 & Htm0 & Hk0 & Hm0).
    rewrite lookup_insert_ne by done.
    destruct (pendingMessages st !! key) as [p|] eqn:Hp; [|done]. simpl.
    destruct (timer_of_pending _ _ _ HI Hp) as (tm & Htm & Hk & Hm).
    rewrite lookup_insert_ne, lookup_delete_ne, lookup_alter_ne; [done|..].
    + intros Heq. apply Hne. symmetry.
      apply (inv_array_sep _ HI _ _ _ _ Hp He). done.
    + intros Heq. rewrite Heq in Htm0. congruence.
    + intros Heq. pose proof (inv_timer_fresh _ HI _ (mk_is_Some _ _ Htm)). lia.
  - rewrite lookup_insert_ne by done.
    destruct (pendingMessages st !! key) as [p|] eqn:Hp; [|done]. simpl.
    destruct (timer_of_pending _ _ _ HI Hp) as (tm & Htm & Hk & Hm).
    destruct (inv_array_alloc _ HI _ _ Hp) as [ms Hms].
    pose proof (inv_array_fresh _ HI _ (mk_is_Some _ _ Hms)).
    rewrite lookup_insert_ne, lookup_alter_ne, lookup_insert_ne; [done|lia|lia|].
    intros Heq. pose proof (inv_timer_fresh _ HI _ (mk_is_Some _ _ Htm)). lia.
Qed.

Lemma batch_of_fire_same st now tid tm :
  Inv st → timers st !! tid = Some tm →
  batch_of (t_batchKey tm) (fire now tid tm st) = None ∧
  ∃ ms, batch_of (t_batchKey tm) st = Some (ms, deadline tm, t_processFn tm) ∧
        flushes (fire now tid tm st) = flushes st ++
          [{| f_time := now; f_batchKey := t_batchKey tm;
              f_processFn := t_processFn tm; f_messages := ms |}].
Proof.
  intros HI Htm.
  destruct (pending_of_timer _ _ _ HI Htm) as (p & Hp & Ht & Hm).
  destruct (inv_array_alloc _ HI _ _ Hp) as [ms Hms].
  split.
  - unfold batch_of, fire. simpl. by rewrite lookup_delete_eq.
  - exists ms. unfold batch_of, fire. simpl.
    rewrite Hp. simpl. rewrite Ht, Htm. simpl. rewrite Hms. simpl.
    rewrite <- Hm, Hms. done.
Qed.

Lemma batch_of_fire_other st key now tid tm :
  Inv st → timers st !! tid = Some tm → t_batchKey tm ≠ key →
  batch_of key (fire now tid tm st) = batch_of key st.
Proof.
  intros HI Htm Hne. unfold batch_of, fire. simpl.
  rewrite lookup_delete_ne by done.
  destruct (pendingMessages st !! key) as [p|] eqn:Hp; [|done]. simpl.
  destruct (timer_of_pending _ _ _ HI Hp) as (tm' & Htm' & Hk & Hm).
  rewrite lookup_delete_ne; [done|]. intros Heq. congruence.
Qed.

Lemma quiet_app_cons ms m m2 rest :
  last ms = Some m → quiet (ms ++ m2 :: rest) →
  timestamp m2 < timestamp m + MESSAGE_BATCH_DELAY.
Proof.
  induction ms as [|m1 ms IH]; [done|].
  destruct ms as [|m1' ms]; simpl.
  - intros [= <-] [? _]. done.
  - intros Hl [_ Hq]. apply IH; done.
Qed.

Lemma step_clock st ev st' :
  step st ev = Some st' → clock st' = ev_time ev ∧ clock st ≤ ev_time ev.
Proof.
  unfold step. case_decide; [|done].
  destruct ev as [now c s i ty co fn|now tid]; simpl in *.
  - intros [= <-]. unfold addMessageToBatch.
    by destruct (pendingMessages st !! batchKey c s).
  - destruct (timers st !! tid); [|done]. case_decide; [|done].
    by intros [= <-].
Qed.

Lemma run_clock evs : ∀ st st', run st evs = Some st' → clock st ≤ clock st'.
Proof.
  induction evs as [|ev evs IH]; simpl; intros st st'.
  - by intros [= <-].
  - destruct (step st ev) as [st1|] eqn:Hstep; [|done]. simpl. intros Hrun.
    apply step_clock in Hstep. apply IH in Hrun. lia.
Qed.

Lemma fragments_clock key evs : ∀ st st' m rest,
  run st evs = Some st' → fragments key evs = m :: rest → clock st ≤ timestamp m.
Proof.
  induction evs as [|ev evs IH]; simpl; intros st st' m rest; [done|].
  destruct (step st ev) as [st1|] eqn:Hstep; [|done]. simpl. intros Hrun.
  pose proof (step_clock _ _ _ Hstep) as [Hc1 Hc2].
  destruct ev as [now c s i ty co fn|now tid]; simpl in *.
  - case_decide.
    + intros [= <- <-]. simpl. lia.
    + intros Hfr. pose proof (IH _ _ _ _ Hrun Hfr). lia.
  - intros Hfr. pose proof (IH _ _ _ _ Hrun Hfr). lia.
Qed.

Lemma flushes_of_add key st now c s i ty co fn :
  flushes_of key (addMessageToBatch now c s i ty co fn st) = flushes_of key st.
Proof.
  unfold flushes_of, addMessageToBatch.
  by destruct (pendingMessages st !! batchKey c s).
Qed.

Lemma flushes_of_fire_other key st now tid tm :
  t_batchKey tm ≠ key → flushes_of key (fire now tid tm st) = flushes_of key st.
Proof.
  intros Hne. unfold flushes_of, fire. simpl.
  rewrite filter_app, filter_cons_False, filter_nil by done.
  by rewrite app_nil_r.
Qed.

Lemma timer_of_batch key st ms d fn :
  Inv st → batch_of key st = Some (ms, d, fn) →
  ∃ tid tm, timers st !! tid = Some tm ∧ deadline tm = d ∧
            t_batchKey tm = key ∧ t_processFn tm = fn ∧
            arrays st !! t_messages tm = Some ms.
Proof.
  intros HI. unfold batch_of.
  destruct (pendingMessages st !! key) as [p|] eqn:Hp; [|done]. simpl.
  destruct (timer_of_pending _ _ _ HI Hp) as (tm & Htm & Hk & Hm).
  rewrite Htm. simpl.
  destruct (arrays st !! messages p) as [ms'|] eqn:Hms; [|done]. simpl.
  intros [= <- <- <-]. exists (timeout p), tm. by rewrite Hm.
Qed.

Lemma timer_unique st tid1 tid2 tm1 tm2 :
  Inv st → timers st !! tid1 = Some tm1 → timers st !! tid2 = Some tm2 →
  t_batchKey tm1 = t_batchKey tm2 → tid1 = tid2.
Proof.
  intros HI H1 H2 Hk.
  destruct (pending_of_timer _ _ _ HI H1) as (p1 & Hp1 & <- & _).
  destruct (pending_of_timer _ _ _ HI H2) as (p2 & Hp2 & <- & _).
  rewrite Hk in Hp1. congruence.
Qed.

Lemma flushes_of_fire_same st now tid tm :
  flushes_of (t_batchKey tm) (fire now tid tm st) =
    flushes_of (t_batchKey tm) st ++
      [{| f_time := now; f_batchKey := t_batchKey tm;
          f_processFn := t_processFn tm;
          f_messages := default [] (arrays st !! t_messages tm) |}].
Proof.
  unfold flushes_of, fire. simpl.
  by rewrite filter_app, filter_cons_True, filter_nil by done.
Qed.

Lemma run_idle key evs : ∀ st st',
  Inv st → batch_of key st = None → fragments key evs = [] →
  run st evs = Some st' →
  batch_of key st' = None ∧ flushes_of key st' = flushes_of key st.
Proof.
  induction evs as [|ev evs IH]; simpl; intros st st' HI Hb Hfr.
  - by intros [= <-].
  - destruct (step st ev) as [st1|] eqn:Hstep; [|done]. simpl. intros Hrun.
    pose proof (Inv_step _ _ _ HI Hstep) as HI1.
    unfold step in Hstep. case_decide as Hclk; [|done].
    destruct ev as [now c s i ty co fn|now tid]; simpl in *.
    + injection Hstep as <-. case_decide as Hk; [done|].
      rewrite <- (flushes_of_add key st now c s i ty co fn).
      apply IH; try done. by rewrite batch_of_add_other.
    + destruct (timers st !! tid) as [tm|] eqn:Htm; [|done].
      case_decide as Hd; [|done]. injection Hstep as <-.
      destruct (decide (t_batchKey tm = key)) as [Hk|Hk].
      * subst key.
        destruct (batch_of_fire_same st now tid tm HI Htm) as (_ & ms' & Hb' & _).
        congruence.
      * rewrite <- (flushes_of_fire_other key st now tid tm) by done.
        apply IH; try done. by rewrite batch_of_fire_other.
Qed.

Lemma run_complete key evs : ∀ st st' ms,
  Inv st → collecting key ms st → handler_adds key evs →
  run st evs = Some st' →
  quiet (ms ++ fragments key evs) →
  (collecting key (ms ++ fragments key evs) st' ∧
   flushes_of key st' = flushes_of key st) ∨
  (batch_of key st' = None ∧
   ∃ fl, flushes_of key st' = flushes_of key st ++ [fl] ∧
         flushed_by key (ms ++ fragments key evs) fl).
Proof.
  induction evs as [|ev evs IH]; simpl; intros st st' ms HI Hcol Hadds.
  - intros [= <-] _. left. by rewrite app_nil_r.
  - destruct (step st ev) as [st1|] eqn:Hstep; [|done]. simpl.
    intros Hrun Hq.
    pose proof (Inv_step _ _ _ HI Hstep) as HI1.
    pose proof (step_clock _ _ _ Hstep) as [Hc1 Hc2].
    apply Forall_cons in Hadds as [Hadd Hadds].
    unfold step in Hstep. case_decide as Hclk; [|done].
    destruct ev as [now c s i ty co fn|now tid]; simpl in *.
    + injection Hstep as <-. case_decide as Hk.
      * subst key. rewrite (Hadd _ _ eq_refl) in *. simpl in *.
        rewrite (cons_middle _ ms), app_assoc in Hq |- *.
        rewrite <- (flushes_of_add (batchKey c s) st now c s i ty co
                      (handlerProcessFn ty)).
        apply IH; try done.
        unfold collecting. rewrite last_snoc. simpl.
        rewrite batch_of_add_same by done. do 3 f_equal.
        unfold collecting in Hcol. destruct (last ms) eqn:Hl.
        -- by rewrite Hcol.
        -- rewrite Hcol. apply last_None in Hl. by subst.
      * rewrite <- (flushes_of_add key st now c s i ty co fn).
        apply IH; try done.
        unfold collecting in *. by rewrite batch_of_add_other.
    + destruct (timers st !! tid) as [tm|] eqn:Htm; [|done].
      case_decide as Hd; [|done]. injection Hstep as <-.
      destruct (decide (t_batchKey tm = key)) as [Hk|Hk].
      * right. subst key.
        destruct (batch_of_fire_same st now tid tm HI Htm) as (Hnone & ms' & Hb & _).
        unfold collecting in Hcol. destruct (last ms) as [m|] eqn:Hl; [|congruence].
        rewrite Hb in Hcol. injection Hcol as -> Hdl Hfn.
        destruct (timer_of_batch _ _ _ _ _ HI Hb)
          as (tid' & tm' & Htm' & _ & Hk' & _ & Hms').
        assert (tid' = tid) as ->
          by apply (timer_unique st tid' tid tm' tm HI Htm' Htm Hk').
        assert (tm' = tm) as -> by congruence.
        destruct (fragments (t_batchKey tm) evs) as [|m2 rest] eqn:Hfr.
        -- destruct (run_idle _ _ _ _ HI1 Hnone Hfr Hrun) as [Hnone' Hfl].
           split; [done|]. rewrite Hfl, flushes_of_fire_same, Hms'. simpl.
           eexists. split; [done|]. rewrite app_nil_r. exists m.
           simpl. rewrite Hfn. split_and!; [done..|lia].
        -- exfalso. pose proof (quiet_app_cons _ _ _ _ Hl Hq).
           pose proof (fragments_clock _ _ _ _ _ _ Hrun Hfr) as Hc.
           simpl in Hc. lia.
      * rewrite <- (flushes_of_fire_other key st now tid tm) by done.
        apply IH; try done.
        unfold collecting in *. by rewrite batch_of_fire_other.
Qed.

Lemma run_app evs1 evs2 : ∀ st,
  run st (evs1 ++ evs2) = st1 ← run st evs1; run st1 evs2.
Proof.
  induction evs1 as [|ev evs1 IH]; simpl; intros st; [done|].
  destruct (step st ev); simpl; [apply IH|done].
Qed.

Lemma step_settled key st ev st1 ms :
  Inv st → settled key ms st → step st ev = Some st1 →
  settled key (ms ++ fragments key [ev]) st1.
Proof.
  intros HI Hs Hstep. pose proof (step_clock _ _ _ Hstep) as [Hc1 Hc2].
  unfold step in Hstep. case_decide as Hclk; [|done].
  destruct ev as [now c s i ty co fn|now tid]; simpl in *.
  - injection Hstep as <-. case_decide as Hk.
    + subst key. intros m Hin. rewrite batch_of_add_same by done.
      apply elem_of_app in Hin as [Hin| ->%list_elem_of_singleton].
      * destruct (Hs _ Hin) as [Ht _]. lia.
      * simpl. lia.
    + rewrite app_nil_r. intros m Hin. rewrite batch_of_add_other by done.
      destruct (Hs _ Hin) as [Ht Hb]. split; [lia|].
      destruct (batch_of key st) as [[[? ?] ?]|]; lia.
  - destruct (timers st !! tid) as [tm|] eqn:Htm; [|done].
    case_decide as Hd; [|done]. injection Hstep as <-.
    rewrite app_nil_r. intros m Hin. destruct (Hs _ Hin) as [Ht Hb].
    split; [lia|].
    destruct (decide (t_batchKey tm = key)) as [Hk|Hk].
    + subst key.
      destruct (batch_of_fire_same st now tid tm HI Htm) as (-> & ms' & Hb' & _).
      rewrite Hb' in Hb. lia.
    + rewrite batch_of_fire_other by done.
      destruct (batch_of key st) as [[[? ?] ?]|]; lia.
Qed.

Lemma fragments_app key evs1 evs2 :
  fragments key (evs1 ++ evs2) = fragments key evs1 ++ fragments key evs2.
Proof.
  induction evs1 as [|ev evs1 IH]; simpl; [done|].
  destruct (message_of ev) as [[[k m] fn]|]; [|done].
  case_decide; [|done]. by rewrite IH.
Qed.

Lemma run_settled key evs : ∀ st st' ms,
  Inv st → settled key ms st → run st evs = Some st' →
  settled key (ms ++ fragments key evs) st'.
Proof.
  induction evs as [|ev evs IH]; intros st st' ms HI Hs Hrun.
  - injection Hrun as <-. by rewrite app_nil_r.
  - simpl in Hrun. destruct (step st ev) as [st1|] eqn:Hstep; [|done].
    pose proof (step_settled key _ _ _ ms HI Hs Hstep) as Hs1.
    pose proof (IH _ _ _ (Inv_step _ _ _ HI Hstep) Hs1 Hrun) as Hs'.
    rewrite <- app_assoc, <- fragments_app in Hs'. done.
Qed.

Lemma timeout_after_fragments key evs tf tid st tm st' :
  run init evs = Some st → timers st !! tid = Some tm →
  step st (EvTimeout tf tid) = Some st' → t_batchKey tm = key →
  ∀ m, m ∈ fragments key evs → timestamp m + MESSAGE_BATCH_DELAY ≤ tf.
Proof.
  intros Hrun Htm Hstep Hk m Hin.
  pose proof (Inv_run _ _ _ Inv_init Hrun) as HI.
  assert (Hs0 : settled key [] init) by (by intros ? ?%elem_of_nil).
  pose proof (run_settled key _ _ _ _ Inv_init Hs0 Hrun) as Hs.
  destruct (Hs m Hin) as [_ Hb]. subst key.
  destruct (batch_of_fire_same st tf tid tm HI Htm) as (_ & ms' & Hb' & _).
  rewrite Hb' in Hb. unfold step in Hstep. case_decide; [|done]. simpl in Hstep.
  rewrite Htm in Hstep. case_decide; [|done]. lia.
Qed.

Lemma handlerProcessFn_text ms m :
  last ms = Some m →
  handlerProcessFn (type m) ms =
    let texts := join LFLF (contents text ms) in
    let images := join LFLF (contents image ms) in
    if decide (contents image ms = []) then texts
    else if decide (type m = image ∧ texts = "") then images
    else texts +:+ LFLF +:+ images.
Proof.
  intros _. cbv zeta.
  destruct (type m); simpl; unfold textProcessFn, attachmentProcessFn;
    destruct (contents image ms) as [|img rest]; simpl; try done.
  destruct (join LFLF (contents text ms)); simpl; reflexivity.
Qed.

Lemma clock_addMessageToBatch now c s i ty co fn st :
  clock (addMessageToBatch now c s i ty co fn st) = now.
Proof. unfold addMessageToBatch. by destruct (pendingMessages st !! batchKey c s). Qed.

Lemma flushes_addMessageToBatch now c s i ty co fn st :
  flushes (addMessageToBatch now c s i ty co fn st) = flushes st.
Proof. unfold addMessageToBatch. by destruct (pendingMessages st !! batchKey c s). Qed.

Lemma pending_addMessageToBatch now c s i ty co fn st :
  ∃ p, pendingMessages (addMessageToBatch now c s i ty co fn st) =
       <[batchKey c s := p]> (pendingMessages st).
Proof.
  unfold addMessageToBatch.
  destruct (pendingMessages st !! batchKey c s); simpl; eauto.
Qed.

Lemma pending_of_batch key st ms d fn :
  batch_of key st = Some (ms, d, fn) →
  ∃ p, pendingMessages st !! key = Some p ∧ arrays st !! messages p = Some ms.
Proof.
  unfold batch_of.
  destruct (pendingMessages st !! key) as [p|]; [|done]. simpl.
  destruct (timers st !! timeout p); [|done]. simpl.
  destruct (arrays st !! messages p) as [ms'|] eqn:Hms; [|done]. simpl.
  intros [= <- _ _]. by exists p.
Qed.

Lemma step_timeout_early st tid tm tf :
  timers st !! tid = Some tm → tf < deadline tm →
  step st (EvTimeout tf tid) = None.
Proof.
  intros Htm Hlt. unfold step. simpl. rewrite Htm.
  case_decide; [|done]. by rewrite decide_False by lia.
Qed.

Lemma step_timeout_due st tid tm tf :
  timers st !! tid = Some tm → clock st ≤ tf → deadline tm ≤ tf →
  step st (EvTimeout tf tid) = Some (fire tf tid tm st).
Proof.
  intros Htm Hclk Hd. unfold step. simpl. rewrite Htm.
  by rewrite !decide_True.
Qed.

(** What an add leaves, from any well-formed state. *)
Lemma add_arms_timer st now c s i ty co fn :
  Inv st →
  let key := batchKey c s in
  let st' := addMessageToBatch now c s i ty co fn st in
  let m := {| id := i; type := ty; content := co; timestamp := now |} in
  let old := old_messages (batch_of key st) in
  ∃ p tm,
    pendingMessages st' !! key = Some p ∧
    timeout p = nextTimer st ∧ timers st !! nextTimer st = None ∧
    timers st' !! timeout p = Some tm ∧
    deadline tm = now + 1000 ∧ t_batchKey tm = key ∧
    t_messages tm = messages p ∧ t_processFn tm = fn ∧
    arrays st' !! messages p = Some (old ++ [m]) ∧
    (∀ tid tm', timers st' !! tid = Some tm' → t_batchKey tm' = key →
       tid = timeout p) ∧
    (∀ tf, tf < now + 1000 → step st' (EvTimeout tf (timeout p)) = None) ∧
    (∀ tf, now + 1000 ≤ tf →
       step st' (EvTimeout tf (timeout p))
         = Some (fire tf (timeout p) tm st') ∧
       pendingMessages (fire tf (timeout p) tm st') !! key = None ∧
       flushes (fire tf (timeout p) tm st') =
         flushes st ++ [{| f_time := tf; f_batchKey := key;
                           f_processFn := fn; f_messages := old ++ [m] |}]).
Proof.
  intros HI key st' m old.
  assert (Hfresh : timers st !! nextTimer st = None).
  { destruct (timers st !! nextTimer st) as [tm|] eqn:H; [|done].
    pose proof (inv_timer_fresh _ HI _ (mk_is_Some _ _ H)). lia. }
  subst old st' key. unfold batch_of, addMessageToBatch in *.
  destruct (pendingMessages st !! batchKey c s) as [e|] eqn:He; simpl in *.
  - destruct (timer_of_pending _ _ _ HI He) as (tm0 & Htm0 & Hk0 & Hm0).
    destruct (inv_array_alloc _ HI _ _ He) as [ms0 Hms0].
    rewrite Htm0. simpl. rewrite Hms0. simpl.
    eexists _, _. split_and!.
    + apply lookup_insert_eq.
    + done.
    + done.
    + simpl. apply lookup_insert_eq.
    + done.
    + done.
    + done.
    + done.
    + simpl. by rewrite lookup_alter_eq, Hms0.
    + simpl. intros tid tm'. destruct (decide (tid = nextTimer st)) as [->|Hne];
        [done|].
      rewrite lookup_insert_ne by done.
      intros [Hne' Htm]%lookup_delete_Some Hk. destruct Hne'.
      apply (timer_unique st _ _ _ _ HI Htm0 Htm). congruence.
    + simpl. intros tf Hlt. eapply step_timeout_early; [apply lookup_insert_eq|].
      simpl. unfold MESSAGE_BATCH_DELAY. lia.
    + simpl. intros tf Hle. split_and!.
      * eapply step_timeout_due; [apply lookup_insert_eq|simpl; lia|].
        simpl. unfold MESSAGE_BATCH_DELAY. lia.
      * simpl. by rewrite lookup_delete_eq.
      * simpl. by rewrite lookup_alter_eq, Hms0.
  - eexists _, _. split_and!.
    + apply lookup_insert_eq.
    + done.
    + done.
    + simpl. apply lookup_insert_eq.
    + done.
    + done.
    + done.
    + done.
    + simpl. by rewrite lookup_alter_eq, lookup_insert_eq.
    + simpl. intros tid tm'. destruct (decide (tid = nextTimer st)) as [->|Hne];
        [done|].
      rewrite lookup_insert_ne by done. intros Htm Hk. exfalso.
      destruct (pending_of_timer _ _ _ HI Htm) as (p & Hp & _).
      rewrite Hk in Hp. congruence.
    + simpl. intros tf Hlt. eapply step_timeout_early; [apply lookup_insert_eq|].
      simpl. unfold MESSAGE_BATCH_DELAY. lia.
    + simpl. intros tf Hle. split_and!.
      * eapply step_timeout_due; [apply lookup_insert_eq|simpl; lia|].
        simpl. unfold MESSAGE_BATCH_DELAY. lia.
      * simpl. by rewrite lookup_delete_eq.
      * simpl. by rewrite lookup_alter_eq, lookup_insert_eq.
Qed.

End BatchFacts.

Section BatchClaims.
Import Batch BatchFacts.

(** C1 (amended). Fragments added under one batch key, each within the
    quiet period of the one before, are flushed exactly once. While their
    batch is pending no flush of the key has happened, its timer cannot
    run before the quiet period of the last fragment has elapsed, and
    from then on it can run and makes the one flush of all the fragments,
    leaving no batch for the key; once the batch is gone, exactly one
    flush of the key has happened, of all the fragments, not earlier than
    one quiet period after the last one. The text of that flush is all
    text fragments in arrival order joined by double newlines, followed,
    when there are image fragments, by a double newline and the image
    fragments in arrival order joined by double newlines; but when the
    last fragment is an image and the joined texts are empty, it is the
    joined image fragments alone. *)
Theorem C1_one_flush_text_then_images c s evs0 st evs st' m :
  run init evs0 = Some st →
  pendingMessages st !! batchKey c s = None →
  run st evs = Some st' →
  handler_adds (batchKey c s) evs →
  last (fragments (batchKey c s) evs) = Some m →
  quiet (fragments (batchKey c s) evs) →
  let key := batchKey c s in
  let frs := fragments key evs in
  let texts := join LFLF (contents text frs) in
  let images := join LFLF (contents image frs) in
  let combined :=
    if decide (contents image frs = []) then texts
    else if decide (type m = image ∧ texts = "") then images
    else texts +:+ LFLF +:+ images in
  match pendingMessages st' !! key with
  | Some p =>
      flushes_of key st' = flushes_of key st ∧
      ∀ tf, clock st' ≤ tf →
        (tf < timestamp m + MESSAGE_BATCH_DELAY →
         step st' (EvTimeout tf (timeout p)) = None) ∧
        (timestamp m + MESSAGE_BATCH_DELAY ≤ tf →
         ∃ st'' fl,
           step st' (EvTimeout tf (timeout p)) = Some st'' ∧
           flushes_of key st'' = flushes_of key st ++ [fl] ∧
           f_messages fl = frs ∧ f_text fl = combined ∧
           pendingMessages st'' !! key = None)
  | None =>
      ∃ fl, flushes_of key st' = flushes_of key st ++ [fl] ∧
            f_messages fl = frs ∧ f_text fl = combined ∧
            timestamp m + MESSAGE_BATCH_DELAY ≤ f_time fl
  end.
Proof.
  intros Hrun0 Hnone Hrun Hadds Hlast Hq key frs texts images combined.
  pose proof (Inv_run _ _ _ Inv_init Hrun0) as HI.
  pose proof (Inv_run _ _ _ HI Hrun) as HI'.
  assert (Hcol0 : collecting key [] st) by (by apply batch_of_None).
  fold key in Hlast.
  destruct (run_complete key evs st st' [] HI Hcol0 Hadds Hrun Hq)
    as [[Hcol Hfl]|[Hb (fl & Hfl & m' & Hl & Hfleq & Htf)]]; simpl in *.
  - unfold collecting in Hcol. rewrite Hlast in Hcol.
    destruct (pending_of_batch _ _ _ _ _ Hcol) as (p & Hp & Hms).
    rewrite Hp. split; [done|].
    destruct (timer_of_pending _ _ _ HI' Hp) as (tm & Htm & Hk & Hm).
    assert (Hd : deadline tm = timestamp m + MESSAGE_BATCH_DELAY ∧
                 t_processFn tm = handlerProcessFn (type m)).
    { unfold batch_of in Hcol. rewrite Hp in Hcol. simpl in Hcol.
      rewrite Htm in Hcol. simpl in Hcol. rewrite Hms in Hcol. simpl in Hcol.
      by injection Hcol as -> ->. }
    destruct Hd as [Hd Hfn].
    intros tf Hclk. unfold step. simpl. rewrite decide_True by done.
    rewrite Htm. split.
    + intros Hearly. rewrite decide_False; [done|lia].
    + intros Hlate. rewrite decide_True by lia.
      eexists _, _. split_and!.
      * reflexivity.
      * rewrite <- Hk, flushes_of_fire_same. by rewrite Hk, Hfl.
      * simpl. by rewrite Hm, Hms.
      * unfold f_text. simpl. rewrite Hm, Hms, Hfn. simpl.
        by apply handlerProcessFn_text.
      * simpl. rewrite Hk. apply lookup_delete_eq.
  - rewrite (proj1 (batch_of_None _ _ HI') Hb).
    assert (m' = m) as -> by congruence.
    exists fl. split_and!; [done| | |done].
    + by rewrite Hfleq.
    + unfold f_text. rewrite Hfleq. simpl. by apply handlerProcessFn_text.
Qed.

Lemma C1_one_flush_text_then_images_witness :
  ∃ fl, flushes_of (batchKey "c" "s") text_image_flushed = [fl] ∧
        f_text fl = "hello" +:+ LFLF +:+ "IMG".
Proof.
  pose proof (C1_one_flush_text_then_images "c" "s" [] init
                (text_then_image ++ [EvTimeout 1400 1]) text_image_flushed
                {| id := "m2"; type := image; content := "IMG"; timestamp := 400 |}
                eq_refl eq_refl eq_refl) as H.
  destruct H as (fl & Hfl & _ & Htext & _).
  - repeat constructor; simpl; intros m fn; try done;
      intros [= <- <-]; reflexivity.
  - reflexivity.
  - simpl. unfold MESSAGE_BATCH_DELAY. lia.
  - exists fl. split; [exact Hfl|exact Htext].
Defined.

(** C1 as stated fails: a batch that holds a single image fragment is
    flushed by the callback of the attachment handler, whose text is the
    image text alone, without the double newline the claim puts before
    the image part. *)
Lemma C1_counterexample :
  let evs := [EvAdd 0 "c" "s" "m1" image "IMG" attachmentProcessFn;
              EvTimeout 1000 0] in
  handler_adds (batchKey "c" "s") evs ∧
  ∃ st fl, run init evs = Some st ∧ flushes st = [fl] ∧
    f_messages fl =
      [{| id := "m1"; type := image; content := "IMG"; timestamp := 0 |}] ∧
    f_text fl = "IMG" ∧
    spec_combined (f_messages fl) = LFLF +:+ "IMG" ∧
    f_text fl ≠ spec_combined (f_messages fl).
Proof.
  split.
  - repeat constructor; simpl; intros m fn; try done.
    intros [= <- <-]; reflexivity.
  - eexists _, _. split_and!; try reflexivity. vm_compute. discriminate.
Qed.

(** C2. In every reachable state the entries of the batch table and the
    armed timers correspond one to one, so that a key has at most one
    batch and one timer; adding a fragment for a key that has a batch
    clears its timer, appends the fragment to the same array and arms a
    fresh timer for one second later; a timer cannot run before its
    deadline, and whenever a timer runs, every fragment added before under
    its key, the last one included, is at least one second old. Every
    add, whether its key has a batch or not, leaves an entry for the key
    whose array is the fragments pending before followed by the new one,
    and a fresh timer, the only one of the key, due one second after the
    add: that timer cannot run earlier, and from then on it runs and
    flushes exactly that array. *)
Theorem C2_debounce_from_last_fragment evs st :
  run init evs = Some st →
  (∀ key p, pendingMessages st !! key = Some p →
     ∃ tm, timers st !! timeout p = Some tm ∧ t_batchKey tm = key ∧
           t_messages tm = messages p) ∧
  (∀ tid tm, timers st !! tid = Some tm →
     ∃ p, pendingMessages st !! t_batchKey tm = Some p ∧ timeout p = tid) ∧
  (∀ tid1 tid2 tm1 tm2, timers st !! tid1 = Some tm1 →
     timers st !! tid2 = Some tm2 → t_batchKey tm1 = t_batchKey tm2 →
     tid1 = tid2) ∧
  (∀ now c s i ty co fn e,
     pendingMessages st !! batchKey c s = Some e →
     let st' := addMessageToBatch now c s i ty co fn st in
     timers st' !! timeout e = None ∧
     pendingMessages st' !! batchKey c s =
       Some {| conversationId := c; senderAddress := s;
               messages := messages e; timeout := nextTimer st |} ∧
     arrays st' !! messages e =
       Some (default [] (arrays st !! messages e) ++
             [{| id := i; type := ty; content := co; timestamp := now |}]) ∧
     is_Some (arrays st !! messages e) ∧
     (∀ tid tm, timers st' !! tid = Some tm → t_batchKey tm = batchKey c s →
        tid = nextTimer st ∧ deadline tm = now + 1000 ∧
        t_messages tm = messages e)) ∧
  (∀ tf tid tm st', timers st !! tid = Some tm →
     step st (EvTimeout tf tid) = Some st' →
     deadline tm ≤ tf ∧
     ∀ m, m ∈ fragments (t_batchKey tm) evs → timestamp m + 1000 ≤ tf) ∧
  (∀ f m, f ∈ flushes st → m ∈ f_messages f → timestamp m + 1000 ≤ f_time f) ∧
  (∀ now c s i ty co fn,
     let key := batchKey c s in
     let st' := addMessageToBatch now c s i ty co fn st in
     let m := {| id := i; type := ty; content := co; timestamp := now |} in
     let old := old_messages (batch_of key st) in
     ∃ p tm,
       pendingMessages st' !! key = Some p ∧
       timeout p = nextTimer st ∧ timers st !! nextTimer st = None ∧
       timers st' !! timeout p = Some tm ∧
       deadline tm = now + 1000 ∧ t_batchKey tm = key ∧
       t_messages tm = messages p ∧ t_processFn tm = fn ∧
       arrays st' !! messages p = Some (old ++ [m]) ∧
       (∀ tid tm', timers st' !! tid = Some tm' → t_batchKey tm' = key →
          tid = timeout p) ∧
       (∀ tf, tf < now + 1000 → step st' (EvTimeout tf (timeout p)) = None) ∧
       (∀ tf, now + 1000 ≤ tf →
          step st' (EvTimeout tf (timeout p))
            = Some (fire tf (timeout p) tm st') ∧
          pendingMessages (fire tf (timeout p) tm st') !! key = None ∧
          flushes (fire tf (timeout p) tm st') =
            flushes st ++ [{| f_time := tf; f_batchKey := key;
                              f_processFn := fn; f_messages := old ++ [m] |}])).
Proof.
  intros Hrun. pose proof (Inv_run _ _ _ Inv_init Hrun) as HI.
  split_and!; [..|intros now c s i ty co fn; by apply add_arms_timer].
  - apply (inv_pending_timer _ HI).
  - apply (inv_timer_pending _ HI).
  - intros *. by apply timer_unique.
  - intros now c s i ty co fn e He st'.
    destruct (timer_of_pending _ _ _ HI He) as (tm0 & Htm0 & Hk0 & Hm0).
    destruct (inv_array_alloc _ HI _ _ He) as [ms0 Hms0].
    pose proof (inv_timer_fresh _ HI _ (mk_is_Some _ _ Htm0)) as Hfr.
    subst st'. unfold addMessageToBatch. rewrite He. simpl. split_and!.
    + rewrite lookup_insert_ne by lia. apply lookup_delete_eq.
    + apply lookup_insert_eq.
    + by rewrite lookup_alter_eq, Hms0.
    + done.
    + intros tid tm. destruct (decide (tid = nextTimer st)) as [->|Hne].
      * rewrite lookup_insert_eq. by intros [= <-].
      * rewrite lookup_insert_ne by done.
        intros [Hne' Htm]%lookup_delete_Some Hk. destruct Hne'.
        apply (timer_unique st _ _ _ _ HI Htm0 Htm). congruence.
  - intros tf tid tm st' Htm Hstep. split.
    + unfold step in Hstep. case_decide; [|done]. simpl in Hstep.
      rewrite Htm in Hstep. by case_decide.
    + by eapply timeout_after_fragments.
  - apply (inv_flush _ HI).
Qed.

Lemma C2_debounce_from_last_fragment_witness :
  step after_text_then_image (EvTimeout 1399 1) = None ∧
  ∃ p,
    pendingMessages
      (addMessageToBatch 900 "c" "s" "m3" text "more" textProcessFn
         after_text_then_image) !! batchKey "c" "s" = Some p ∧
    timeout p = 2%nat ∧
    arrays
      (addMessageToBatch 900 "c" "s" "m3" text "more" textProcessFn
         after_text_then_image) !! messages p
      = Some [{| id := "m1"; type := text; content := "hello"; timestamp := 0 |};
              {| id := "m2"; type := image; content := "IMG"; timestamp := 400 |};
              {| id := "m3"; type := text; content := "more"; timestamp := 900 |}] ∧
    step (addMessageToBatch 900 "c" "s" "m3" text "more" textProcessFn
            after_text_then_image) (EvTimeout 1899 (timeout p)) = None.
Proof.
  destruct (C2_debounce_from_last_fragment text_then_image after_text_then_image)
    as (_ & _ & _ & _ & H & _ & Hadd); [reflexivity|].
  split.
  - destruct (step after_text_then_image (EvTimeout 1399 1)) as [st'|] eqn:Hstep;
      [exfalso|reflexivity].
    destruct (H 1399 1%nat
      {| deadline := 1400; t_batchKey := batchKey "c" "s"; t_messages := 0%nat;
         t_processFn := attachmentProcessFn |} st' eq_refl Hstep) as [Hd _].
    simpl in Hd. lia.
  - destruct (Hadd 900 "c" "s" "m3" text "more" textProcessFn)
      as (p & tm & Hp & Ht & _ & _ & _ & _ & _ & _ & Harr & _ & Hearly & _).
    exists p. split_and!; [exact Hp|exact Ht|exact Harr|].
    apply Hearly. lia.
Defined.

(** C10. The batch key is not injective: the distinct pairs ("a-b", "c")
    and ("a", "b-c") have the same key, so a fragment added under the
    first and one added under the second end up in the one batch of that
    key (one table entry, one array holding both), and the timer armed by
    the second flushes them together in a single call. *)
Theorem C10_batch_key_collision evs0 st t1 t2 i1 i2 ty1 ty2 co1 co2 fn1 fn2 :
  run init evs0 = Some st →
  pendingMessages st !! batchKey "a-b" "c" = None →
  clock st ≤ t1 → t1 ≤ t2 →
  let m1 := {| id := i1; type := ty1; content := co1; timestamp := t1 |} in
  let m2 := {| id := i2; type := ty2; content := co2; timestamp := t2 |} in
  ("a-b", "c") ≠ ("a", "b-c") ∧
  batchKey "a-b" "c" = batchKey "a" "b-c" ∧
  ∃ st2,
    run st [EvAdd t1 "a-b" "c" i1 ty1 co1 fn1;
            EvAdd t2 "a" "b-c" i2 ty2 co2 fn2] = Some st2 ∧
    size (pendingMessages st2) = S (size (pendingMessages st)) ∧
    (∃ p, pendingMessages st2 !! batchKey "a" "b-c" = Some p ∧
          arrays st2 !! messages p = Some [m1; m2]) ∧
    flushes st2 = flushes st ∧
    ∃ tid, ∀ tf, t2 + 1000 ≤ tf →
      ∃ st3, step st2 (EvTimeout tf tid) = Some st3 ∧
        pendingMessages st3 !! batchKey "a" "b-c" = None ∧
        flushes st3 = flushes st ++
          [{| f_time := tf; f_batchKey := batchKey "a" "b-c";
              f_processFn := fn2; f_messages := [m1; m2] |}].
Proof.
  intros Hrun Hnone Ht1 Ht2 m1 m2.
  pose proof (Inv_run _ _ _ Inv_init Hrun) as HI.
  split; [done|]. split; [done|].
  set (st1 := addMessageToBatch t1 "a-b" "c" i1 ty1 co1 fn1 st).
  set (st2 := addMessageToBatch t2 "a" "b-c" i2 ty2 co2 fn2 st1).
  assert (HI1 : Inv st1) by (by apply Inv_addMessageToBatch).
  assert (Hc1 : clock st1 = t1) by apply clock_addMessageToBatch.
  assert (HI2 : Inv st2) by (apply Inv_addMessageToBatch; [done|lia]).
  assert (Hb1 : batch_of (batchKey "a-b" "c") st1 =
                Some ([m1], t1 + MESSAGE_BATCH_DELAY, fn1)).
  { unfold st1. rewrite batch_of_add_same by done.
    by rewrite (proj2 (batch_of_None _ _ HI) Hnone). }
  assert (Hb2 : batch_of (batchKey "a" "b-c") st2 =
                Some ([m1; m2], t2 + MESSAGE_BATCH_DELAY, fn2)).
  { unfold st2. rewrite batch_of_add_same by done.
    change (batchKey "a" "b-c") with (batchKey "a-b" "c"). by rewrite Hb1. }
  exists st2. split_and!.
  - simpl. unfold step. simpl. rewrite decide_True by done. simpl.
    fold st1. rewrite decide_True by lia. done.
  - destruct (pending_addMessageToBatch t2 "a" "b-c" i2 ty2 co2 fn2 st1)
      as [p2 Hp2].
    destruct (pending_addMessageToBatch t1 "a-b" "c" i1 ty1 co1 fn1 st)
      as [p1 Hp1].
    fold st1 in Hp1. fold st2 in Hp2. rewrite Hp2, Hp1.
    change (batchKey "a" "b-c") with (batchKey "a-b" "c").
    rewrite insert_insert_eq. by apply map_size_insert_None.
  - destruct (pending_of_batch _ _ _ _ _ Hb2) as (p & Hp & Hms). eauto.
  - unfold st2, st1. by rewrite !flushes_addMessageToBatch.
  - destruct (timer_of_batch _ _ _ _ _ HI2 Hb2)
      as (tid & tm & Htm & Hd & Hk & Hfn & Hms).
    exists tid. intros tf Htf. eexists. split_and!.
    + unfold step. simpl. rewrite decide_True.
      * rewrite Htm. rewrite decide_True; [done|].
        rewrite Hd. unfold MESSAGE_BATCH_DELAY. lia.
      * unfold st2. rewrite clock_addMessageToBatch. lia.
    + simpl. rewrite Hk. apply lookup_delete_eq.
    + simpl. rewrite Hms, Hk, Hfn. simpl.
      unfold st2, st1. by rewrite !flushes_addMessageToBatch.
Qed.

Lemma C10_batch_key_collision_witness :
  ∃ st2, run init [EvAdd 0 "a-b" "c" "m1" text "x" textProcessFn;
                   EvAdd 400 "a" "b-c" "m2" text "y" textProcessFn] = Some st2 ∧
         size (pendingMessages st2) = 1%nat.
Proof.
  destruct (C10_batch_key_collision [] init 0 400 "m1" "m2" text text "x" "y"
              textProcessFn textProcessFn)
    as (_ & _ & st2 & Hrun & Hsize & _).
  - reflexivity.
  - reflexivity.
  - simpl. lia.
  - lia.
  - exists st2. split; [exact Hrun|exact Hsize].
Defined.

End BatchClaims.

(** ** The staleness check *)

Module DBHealthFacts.
Import DBHealth.

Lemma leb_trans s1 : ∀ s2 s3,
  String.leb s1 s2 = true → String.leb s2 s3 = true → String.leb s1 s3 = true.
Proof.
  unfold String.leb.
  induction s1 as [|a1 s1 IH]; intros [|a2 s2] [|a3 s3]; simpl; try done.
  unfold Ascii.compare.
  destruct (N.compare_spec (N_of_ascii a1) (N_of_ascii a2)) as [E12|L12|G12];
    try done;
    destruct (N.compare_spec (N_of_ascii a2) (N_of_ascii a3)) as [E23|L23|G23];
    try done.
  - rewrite E12, E23, N.compare_refl. apply IH.
  - rewrite E12. by rewrite (proj2 (N.compare_lt_iff _ _) L23).
  - rewrite <- E23. by rewrite (proj2 (N.compare_lt_iff _ _) L12).
  - assert (N_of_ascii a1 < N_of_ascii a3)%N as L13 by lia.
    by rewrite (proj2 (N.compare_lt_iff _ _) L13).
Qed.

#[global] Instance id_le_total : Total id_le.
Proof.
  intros a b. unfold id_le.
  destruct (String.leb_total a b) as [->| ->]; [by left|by right].
Qed.

#[global] Instance id_le_trans : Transitive id_le.
Proof.
  intros a b c. unfold id_le. rewrite !Is_true_true. apply leb_trans.
Qed.

#[global] Instance id_le_antisym : AntiSymm (=) id_le.
Proof.
  intros a b. unfold id_le. rewrite !Is_true_true. apply String.leb_antisym.
Qed.

Lemma sort_Permutation ids1 ids2 : ids1 ≡ₚ ids2 → sort ids1 = sort ids2.
Proof.
  intros Hp. apply (Sorted_unique id_le).
  - apply Sorted_merge_sort; apply _.
  - apply Sorted_merge_sort; apply _.
  - unfold sort. by rewrite !merge_sort_Permutation.
Qed.

Lemma fingerprint_Permutation ms1 ms2 :
  m_id <$> ms1 ≡ₚ m_id <$> ms2 → fingerprint ms1 = fingerprint ms2.
Proof. intros Hp. unfold fingerprint. by rewrite (sort_Permutation _ _ Hp). Qed.

Lemma append_nonempty s r : s ≠ "" → s +:+ r ≠ "".
Proof. by destruct s. Qed.

Lemma bar_free_no_bar s s2 r : bar_free s = true → s ≠ s2 +:+ "|" +:+ r.
Proof.
  revert s2. induction s as [|a s IH]; intros [|a2 s2]; simpl; try done.
  - intros [Ha _]%andb_prop Heq. simpl in Heq. injection Heq as -> _.
    by rewrite Ascii.eqb_refl in Ha.
  - intros [_ Hs]%andb_prop Heq. simpl in Heq. injection Heq as _ Heq.
    by apply (IH s2).
Qed.

Lemma bar_split s1 : ∀ s2 r1 r2,
  bar_free s1 = true → bar_free s2 = true →
  s1 +:+ "|" +:+ r1 = s2 +:+ "|" +:+ r2 → s1 = s2 ∧ r1 = r2.
Proof.
  induction s1 as [|a1 s1 IH]; intros [|a2 s2] r1 r2; simpl.
  - intros _ _ Heq. cbn in Heq. by simplify_eq.
  - intros _ [Ha _]%andb_prop Heq. simpl in Heq. injection Heq as <- _.
    by rewrite Ascii.eqb_refl in Ha.
  - intros [Ha _]%andb_prop _ Heq. simpl in Heq. injection Heq as -> _.
    by rewrite Ascii.eqb_refl in Ha.
  - intros [_ H1]%andb_prop [_ H2]%andb_prop Heq. simpl in Heq.
    injection Heq as -> Heq.
    destruct (IH _ _ _ H1 H2 Heq) as [-> ->]. done.
Qed.

Lemma join_cons_cons sep x y l :
  join sep (x :: y :: l) = x +:+ sep +:+ join sep (y :: l).
Proof. done. Qed.

Lemma join_plain_nonempty x l : x ≠ "" → join "|" (x :: l) ≠ "".
Proof.
  intros Hx. destruct l; [done|]. rewrite join_cons_cons.
  by apply append_nonempty.
Qed.

Lemma join_plain_inj l1 : ∀ l2,
  Forall plain_id l1 → Forall plain_id l2 →
  join "|" l1 = join "|" l2 → l1 = l2.
Proof.
  induction l1 as [|x1 l1 IH]; intros [|x2 l2] H1 H2 Heq; [done|..].
  - apply Forall_cons in H2 as [[Hx _] _].
    symmetry in Heq. by apply join_plain_nonempty in Heq.
  - apply Forall_cons in H1 as [[Hx _] _].
    by apply join_plain_nonempty in Heq.
  - apply Forall_cons in H1 as [[Hx1 Hb1] H1].
    apply Forall_cons in H2 as [[Hx2 Hb2] H2].
    destruct l1 as [|y1 l1], l2 as [|y2 l2].
    + simpl in Heq. by subst.
    + change (join "|" [x1]) with x1 in Heq. rewrite join_cons_cons in Heq.
      by apply bar_free_no_bar in Heq.
    + change (join "|" [x2]) with x2 in Heq. rewrite join_cons_cons in Heq.
      symmetry in Heq. by apply bar_free_no_bar in Heq.
    + rewrite !join_cons_cons in Heq.
      destruct (bar_split _ _ _ _ Hb1 Hb2 Heq) as [-> Hrest].
      f_equal. by apply IH.
Qed.

Lemma fingerprint_plain_inj ms1 ms2 :
  Forall plain_id (m_id <$> ms1) → Forall plain_id (m_id <$> ms2) →
  fingerprint ms1 = fingerprint ms2 → m_id <$> ms1 ≡ₚ m_id <$> ms2.
Proof.
  intros H1 H2 Heq. unfold fingerprint in Heq.
  apply join_plain_inj in Heq.
  - rewrite <- (merge_sort_Permutation id_le (m_id <$> ms1)).
    rewrite <- (merge_sort_Permutation id_le (m_id <$> ms2)).
    unfold sort in Heq. by rewrite Heq.
  - unfold sort. by rewrite merge_sort_Permutation.
  - unfold sort. by rewrite merge_sort_Permutation.
Qed.

Lemma check_first c ms (t : gmap string Entry) :
  t !! c = None →
  checkMessageArray c ms t =
    (<[c := {| hash := fingerprint ms; repeatCount := 1;
               lastMessageIds := sort (m_id <$> ms) |}]> t, false).
Proof. intros H. unfold checkMessageArray. by rewrite H. Qed.

Lemma check_same c ms (t : gmap string Entry) e :
  t !! c = Some e → hash e = fingerprint ms →
  checkMessageArray c ms t =
    (<[c := {| hash := hash e; repeatCount := repeatCount e + 1;
               lastMessageIds := lastMessageIds e |}]> t,
     bool_decide (3 ≤ repeatCount e + 1)).
Proof.
  intros H Hh. unfold checkMessageArray. rewrite H.
  by rewrite decide_True.
Qed.

Lemma check_differs c ms (t : gmap string Entry) e :
  t !! c = Some e → hash e ≠ fingerprint ms →
  checkMessageArray c ms t =
    (<[c := {| hash := fingerprint ms; repeatCount := 1;
               lastMessageIds := sort (m_id <$> ms) |}]> t, false).
Proof.
  intros H Hh. unfold checkMessageArray. rewrite H.
  by rewrite decide_False.
Qed.

Lemma observe_identical c fp calls : ∀ (t : gmap string Entry) e,
  t !! c = Some e → hash e = fp →
  Forall (λ ms, fingerprint ms = fp) calls →
  (observe_all c calls t).2 =
    (λ i : nat, bool_decide (3 ≤ repeatCount e + Z.of_nat i)) <$>
      seq 1 (length calls).
Proof.
  induction calls as [|ms calls IH]; intros t e He Hh Hall; [done|].
  apply Forall_cons in Hall as [Hms Hall].
  cbn [observe_all]. rewrite (check_same c ms t e) by congruence.
  specialize (IH (<[c := {| hash := hash e; repeatCount := repeatCount e + 1;
                            lastMessageIds := lastMessageIds e |}]> t) _
                 (lookup_insert_eq _ _ _) Hh Hall).
  destruct (observe_all c calls _) as [t2 rs]. simpl in *.
  f_equal. rewrite IH, <- (fmap_S_seq 1), <- list_fmap_compose.
  apply list_fmap_ext. intros _ i _. simpl.
  apply bool_decide_ext. lia.
Qed.

End DBHealthFacts.

Section DBHealthClaims.
Import DBHealth DBHealthFacts.

(** C3 (amended). [checkMessageArray] stores the fingerprint with a count of 1 and
    returns false on the first observation of a conversation; on an
    identical fingerprint it adds one to the count and returns true
    exactly when the count has reached 3; on a differing fingerprint it
    stores the new fingerprint with a count of 1 and returns false.
    Hence, from a first observation on, the n-th consecutive call with the
    same identifiers returns true exactly when n >= 3; three calls with
    the same identifiers return false, false, true, and a differing third
    call with a differing fingerprint makes it false, false, false.
    Lists with the same identifiers in any order have the same
    fingerprint, and lists of identifiers that are non-empty and free of
    the separator have the same fingerprint only when they hold the same
    identifiers; so for such identifiers a third call with other
    identifiers makes it false, false, false. *)
Theorem C3_staleness_false_false_true c (t : gmap string Entry) :
  (∀ ms, t !! c = None →
     checkMessageArray c ms t =
       (<[c := {| hash := fingerprint ms; repeatCount := 1;
                  lastMessageIds := sort (m_id <$> ms) |}]> t, false)) ∧
  (∀ ms e, t !! c = Some e → hash e = fingerprint ms →
     checkMessageArray c ms t =
       (<[c := {| hash := hash e; repeatCount := repeatCount e + 1;
                  lastMessageIds := lastMessageIds e |}]> t,
        bool_decide (3 ≤ repeatCount e + 1))) ∧
  (∀ ms e, t !! c = Some e → hash e ≠ fingerprint ms →
     checkMessageArray c ms t =
       (<[c := {| hash := fingerprint ms; repeatCount := 1;
                  lastMessageIds := sort (m_id <$> ms) |}]> t, false)) ∧
  (∀ ms calls, t !! c = None →
     Forall (λ ms', m_id <$> ms' ≡ₚ m_id <$> ms) calls →
     (observe_all c (ms :: calls) t).2 =
       (λ n : nat, bool_decide (3 ≤ n)%nat) <$> seq 1 (S (length calls))) ∧
  (∀ ms1 ms2 ms3, t !! c = None →
     m_id <$> ms2 ≡ₚ m_id <$> ms1 → m_id <$> ms3 ≡ₚ m_id <$> ms1 →
     (observe_all c [ms1; ms2; ms3] t).2 = [false; false; true]) ∧
  (∀ ms1 ms2 ms3, t !! c = None →
     m_id <$> ms2 ≡ₚ m_id <$> ms1 → fingerprint ms3 ≠ fingerprint ms1 →
     (observe_all c [ms1; ms2; ms3] t).2 = [false; false; false]) ∧
  (∀ ms1 ms3,
     Forall plain_id (m_id <$> ms1) → Forall plain_id (m_id <$> ms3) →
     ¬ (m_id <$> ms3 ≡ₚ m_id <$> ms1) → fingerprint ms3 ≠ fingerprint ms1) ∧
  (∀ ms1 ms2 ms3, t !! c = None →
     m_id <$> ms2 ≡ₚ m_id <$> ms1 →
     Forall plain_id (m_id <$> ms1) → Forall plain_id (m_id <$> ms3) →
     ¬ (m_id <$> ms3 ≡ₚ m_id <$> ms1) →
     (observe_all c [ms1; ms2; ms3] t).2 = [false; false; false]).
Proof.
  assert (Hd : ∀ ms1 ms2 ms3, t !! c = None →
     m_id <$> ms2 ≡ₚ m_id <$> ms1 → fingerprint ms3 ≠ fingerprint ms1 →
     (observe_all c [ms1; ms2; ms3] t).2 = [false; false; false]).
  { intros ms1 ms2 ms3 Hc H2 H3. cbn [observe_all].
    rewrite check_first by done.
    rewrite (check_same c ms2 _ _ (lookup_insert_eq _ _ _))
      by (simpl; symmetry; by apply fingerprint_Permutation).
    rewrite (check_differs c ms3 _ _ (lookup_insert_eq _ _ _)) by (simpl; auto).
    done. }
  assert (Hn : ∀ ms calls, t !! c = None →
     Forall (λ ms', m_id <$> ms' ≡ₚ m_id <$> ms) calls →
     (observe_all c (ms :: calls) t).2 =
       (λ n : nat, bool_decide (3 ≤ n)%nat) <$> seq 1 (S (length calls))).
  { intros ms calls Hc Hall. cbn [observe_all]. rewrite check_first by done.
    pose proof (observe_identical c (fingerprint ms) calls
      (<[c := {| hash := fingerprint ms; repeatCount := 1;
                 lastMessageIds := sort (m_id <$> ms) |}]> t) _
      (lookup_insert_eq _ _ _) eq_refl) as Hobs.
    destruct (observe_all c calls _) as [t2 rs]. simpl in *.
    rewrite Hobs.
    - f_equal. rewrite <- (fmap_S_seq 1), <- list_fmap_compose.
      apply list_fmap_ext. intros _ i _. simpl. apply bool_decide_ext. lia.
    - eapply Forall_impl; [exact Hall|]. intros ms'.
      apply fingerprint_Permutation. }
  split_and!.
  - intros ms. apply check_first.
  - intros ms e. apply check_same.
  - intros ms e. apply check_differs.
  - exact Hn.
  - intros ms1 ms2 ms3 Hc H2 H3. by rewrite (Hn ms1 [ms2; ms3]) by auto.
  - exact Hd.
  - intros ms1 ms3 H1 H3 Hne Heq. apply Hne.
    by apply fingerprint_plain_inj.
  - intros ms1 ms2 ms3 Hc H2 H1 H3 Hne. apply Hd; [done..|].
    intros Heq. apply Hne. by apply fingerprint_plain_inj.
Qed.

Lemma C3_staleness_false_false_true_witness :
  let a := {| m_id := "a1"; m_senderInboxId := "u" |} in
  let b := {| m_id := "b2"; m_senderInboxId := "v" |} in
  (observe_all "conv" [[a; b]; [b; a]; [a; b]] ∅).2 = [false; false; true] ∧
  (observe_all "conv" [[a; b]; [b; a]; [a]] ∅).2 = [false; false; false].
Proof.
  intros a b.
  destruct (C3_staleness_false_false_true "conv" ∅)
    as (_ & _ & _ & _ & Htrue & Hfalse & _).
  split.
  - apply Htrue.
    + reflexivity.
    + simpl. apply Permutation_swap.
    + reflexivity.
  - apply Hfalse.
    + reflexivity.
    + simpl. apply Permutation_swap.
    + vm_compute. discriminate.
Defined.

(** C3 as stated fails: a third call with a differing set of identifiers
    does not always return false. The one identifier ["a|b"] and the two
    identifiers ["a"] and ["b"] are different sets with the same
    fingerprint, so after two calls with the first the call with the
    second counts as the third identical one and returns true. *)
Lemma C3_counterexample :
  let ab := {| m_id := "a|b"; m_senderInboxId := "u" |} in
  let a := {| m_id := "a"; m_senderInboxId := "u" |} in
  let b := {| m_id := "b"; m_senderInboxId := "u" |} in
  ¬ (m_id <$> [a; b] ≡ₚ m_id <$> [ab]) ∧
  fingerprint [a; b] = fingerprint [ab] ∧
  (observe_all "conv" [[ab]; [ab]; [a; b]] ∅).2 = [false; false; true].
Proof.
  intros ab a b. split_and!.
  - intros Hp. apply Permutation_length in Hp. discriminate.
  - vm_compute. reflexivity.
  - vm_compute. reflexivity.
Qed.

End DBHealthClaims.

(** ** The deduplication ledger *)

Module LedgerFacts.
Import Ledger.

Lemma add_fresh id s : id ∉ s → add id s = s ++ [id].
Proof. intros H. unfold add, has. by rewrite bool_decide_eq_false_2. Qed.

Lemma add_NoDup id s : NoDup s → NoDup (add id s).
Proof.
  intros Hs. unfold add, has. case_bool_decide; [done|].
  apply NoDup_app. split_and!; [done| |apply NoDup_singleton].
  intros x Hx ->%list_elem_of_singleton. done.
Qed.

Lemma foldl_add_NoDup ids : ∀ s,
  NoDup (s ++ ids) → foldl (λ s id, add id s) s ids = s ++ ids.
Proof.
  induction ids as [|id ids IH]; intros s Hnd; simpl.
  - by rewrite app_nil_r.
  - rewrite add_fresh.
    + rewrite IH; rewrite <- app_assoc; done.
    + apply NoDup_app in Hnd as (_ & Hd & _). intros Hin.
      apply (Hd _ Hin). by left.
Qed.

Lemma refill_NoDup ids : NoDup ids → refill ids = ids.
Proof. intros H. by apply (foldl_add_NoDup ids []). Qed.

Lemma slice_last_NoDup n s : NoDup s → NoDup (slice_last n s).
Proof.
  intros H. unfold slice_last.
  rewrite <- (take_drop (length s - n) s) in H.
  by apply NoDup_app in H as (_ & _ & ?).
Qed.

Lemma prune_spec s :
  NoDup s →
  prune s = (if decide (1000 < length s)%nat then slice_last 500 s else s).
Proof.
  intros H. unfold prune. case_decide; [|done].
  by apply refill_NoDup, slice_last_NoDup.
Qed.

(** The text handler keeps the ledger within the bound. *)
Lemma text_path_bounded s id :
  NoDup s → (length s ≤ 1000)%nat →
  NoDup (handle s (TextMsg id)) ∧
  (length (handle s (TextMsg id)) ≤ 1000)%nat ∧
  (id ∉ s → length s = 1000%nat →
   handle s (TextMsg id) = drop 501 s ++ [id] ∧
   length (handle s (TextMsg id)) = 500%nat).
Proof.
  intros Hnd Hlen. unfold handle, has. case_bool_decide as Hin.
  - split_and!; [done..|]. by intros ?.
  - pose proof (add_NoDup id s Hnd) as Hnd'.
    rewrite prune_spec by done. rewrite add_fresh in * by done.
    rewrite length_app. simpl. case_decide as Hbig.
    + assert (length s = 1000%nat) as Hs by lia.
      unfold slice_last. rewrite length_app. simpl. rewrite Hs. simpl.
      rewrite drop_app_le by lia.
      split_and!.
      * rewrite <- (take_drop 501 (s ++ [id])) in Hnd'.
        rewrite drop_app_le in Hnd' by lia.
        by apply NoDup_app in Hnd' as (_ & _ & ?).
      * rewrite length_app, length_drop. simpl. lia.
      * intros _ _. split; [done|].
        rewrite length_app, length_drop. simpl. lia.
    + split_and!; [done|rewrite length_app; simpl; lia|]. lia.
Qed.

Lemma reply_ids_NoDup n : NoDup (reply_ids n).
Proof. apply (NoDup_fmap_2 _), NoDup_seq. Qed.

Lemma reply_path_accumulates ids : ∀ s,
  NoDup (s ++ ids) → handle_all s (ReplyMsg <$> ids) = s ++ ids.
Proof.
  induction ids as [|id ids IH]; intros s Hnd; simpl.
  - by rewrite app_nil_r.
  - assert (id ∉ s) as Hin.
    { apply NoDup_app in Hnd as (_ & Hd & _). intros Hin.
      apply (Hd _ Hin). by left. }
    unfold has. rewrite bool_decide_eq_false_2 by done.
    rewrite add_fresh by done. unfold handle_all in IH.
    rewrite IH; rewrite <- app_assoc; done.
Qed.

End LedgerFacts.

Section LedgerClaims.
Import Ledger LedgerFacts.

(** C4 (the code departs from it). The reply handler marks identifiers
    as seen and never cleans up: [n] replies with distinct identifiers
    leave a ledger of [n] entries, whatever [n] is, so 1001 replies leave
    1001 entries, more than the 1000 that the clean-up of the text handler
    allows; the same 1001 identifiers arriving as texts leave the 500 most
    recent ones. *)
Theorem C4_reply_path_never_prunes n :
  handle_all [] (ReplyMsg <$> reply_ids n) = reply_ids n ∧
  length (handle_all [] (ReplyMsg <$> reply_ids n)) = n ∧
  (1000 < length (handle_all [] (ReplyMsg <$> reply_ids 1001)))%nat ∧
  handle_all [] (TextMsg <$> reply_ids 1001) = drop 501 (reply_ids 1001) ∧
  length (handle_all [] (TextMsg <$> reply_ids 1001)) = 500%nat.
Proof.
  assert (H : ∀ k, handle_all [] (ReplyMsg <$> reply_ids k) = reply_ids k).
  { intros k. apply (reply_path_accumulates (reply_ids k) []).
    apply reply_ids_NoDup. }
  assert (L : ∀ k, length (reply_ids k) = k).
  { intros k. unfold reply_ids. by rewrite length_fmap, length_seq. }
  rewrite !H, !L. split_and!; [done|done|lia|..].
  - vm_compute. reflexivity.
  - vm_compute. reflexivity.
Qed.

End LedgerClaims.

(** ** The conversation mappings *)

Module ReplyFacts.
Import Reply.

Lemma cleanup_fold now h (m0 m : gmap string XMTPConversationMapping) :
  let r := map_fold (cleanup_entry now (hours h)) (m0, 0) m in
  (∀ j, r.1 !! j =
        match m !! j with
        | Some y => if decide (stale now h (j, y)) then None else m0 !! j
        | None => m0 !! j
        end) ∧
  r.2 = Z.of_nat (size (filter (stale now h) m)).
Proof.
  cbv zeta. revert m.
  apply (map_fold_weak_ind (λ r m,
    (∀ j, r.1 !! j =
          match m !! j with
          | Some y => if decide (stale now h (j, y)) then None else m0 !! j
          | None => m0 !! j
          end) ∧
    r.2 = Z.of_nat (size (filter (stale now h) m)))).
  - split; [done|]. by rewrite map_filter_empty, map_size_empty.
  - intros i x m [m1 n] Hi [IH1 IH2]. simpl in *.
    unfold cleanup_entry. simpl.
    destruct (decide (now - lastActivity x > hours h)) as [Hold|Hnew]; simpl.
    + split.
      * intros j. destruct (decide (i = j)) as [<-|Hne].
        -- rewrite lookup_delete_eq, lookup_insert_eq.
           rewrite decide_True; [done|]. unfold stale. simpl. lia.
        -- rewrite lookup_delete_ne, lookup_insert_ne by done. apply IH1.
      * rewrite map_filter_insert_True by (unfold stale; simpl; lia).
        rewrite map_size_insert_None.
        -- lia.
        -- apply map_lookup_filter_None. by left.
    + split.
      * intros j. destruct (decide (i = j)) as [<-|Hne].
        -- rewrite lookup_insert_eq.
           rewrite decide_False by (unfold stale; simpl; lia).
           by rewrite IH1, Hi.
        -- rewrite lookup_insert_ne by done. apply IH1.
      * rewrite map_filter_insert_False by (unfold stale; simpl; lia).
        by rewrite delete_id.
Qed.

Lemma cleanupOldMappings_spec now h (m : gmap string XMTPConversationMapping) :
  cleanupOldMappings now h m =
    (filter (λ kv, ¬ stale now h kv) m,
     Z.of_nat (size (filter (stale now h) m))).
Proof.
  unfold cleanupOldMappings. fold (hours h).
  destruct (cleanup_fold now h m m) as [H1 H2].
  destruct (map_fold _ _ m) as [m' n]. simpl in *. f_equal; [|done].
  apply map_eq. intros j. rewrite H1, map_lookup_filter.
  destruct (m !! j) as [y|]; simpl; [|done].
  case_decide; [by rewrite option_guard_False by auto|].
  by rewrite option_guard_True.
Qed.

Lemma size_filter_split now h (m : gmap string XMTPConversationMapping) :
  size m = (size (filter (stale now h) m) +
            size (filter (λ kv, ¬ stale now h kv) m))%nat.
Proof.
  rewrite <- map_size_disj_union by apply map_disjoint_filter_complement.
  by rewrite map_filter_union_complement.
Qed.

End ReplyFacts.

Section ReplyClaims.
Import Reply ReplyFacts.

(** C6 (amended). Two upserts of one threadId with two conversationIds
    leave exactly one mapping for that threadId; its conversationId is the
    one of the later upsert and its lastActivity is the clock reading of
    the later upsert, which is strictly newer than the lastActivity stored
    by the first upsert exactly when the clock has advanced between the
    two, and equal to it when both upserts read the same millisecond. *)
Theorem C6_upsert_twice_keeps_latest now1 now2 t c1 c2 w1 w2 a1 a2
    (m : gmap string XMTPConversationMapping) :
  let m1 := addMapping now1 t c1 w1 a1 m in
  let m2 := addMapping now2 t c2 w2 a2 m1 in
  getMapping t m2 =
    Some {| threadId := t; conversationId := c2; walletAddress := w2;
            lastActivity := now2; agentId := a2 |} ∧
  length (filter (λ kv, kv.1 = t) (map_to_list m2)) = 1%nat ∧
  size m2 = size m1 ∧
  ∃ e1 e2, getMapping t m1 = Some e1 ∧ getMapping t m2 = Some e2 ∧
    lastActivity e1 = now1 ∧ lastActivity e2 = now2 ∧
    (lastActivity e1 < lastActivity e2 ↔ now1 < now2) ∧
    (now1 = now2 → lastActivity e2 = lastActivity e1).
Proof.
  intros m1 m2. unfold getMapping, m2, m1, addMapping.
  rewrite !lookup_insert_eq. split_and!.
  - done.
  - rewrite insert_insert_eq.
    rewrite <- (insert_delete_eq m), map_to_list_insert by apply lookup_delete_eq.
    rewrite filter_cons_True by done. simpl. f_equal.
    destruct (filter _ (map_to_list (delete t m))) as [|[k v] l] eqn:Hf;
      [done|exfalso].
    assert (Hin : (k, v) ∈ filter (λ kv : string * XMTPConversationMapping,
                                     kv.1 = t) (map_to_list (delete t m)))
      by (rewrite Hf; left).
    apply list_elem_of_filter in Hin as [Hk Hin]. simpl in Hk. subst k.
    apply elem_of_map_to_list in Hin. by rewrite lookup_delete_eq in Hin.
  - rewrite insert_insert_eq.
    by rewrite !map_size_insert.
  - eexists _, _. split_and!; done.
Qed.

(** C6 as stated fails: two upserts that read the same millisecond store
    the same lastActivity, not a strictly newer one. *)
Lemma C6_counterexample :
  let m1 := addMapping 5 "t" "c1" "w" None ∅ in
  let m2 := addMapping 5 "t" "c2" "w" None m1 in
  "c1" ≠ "c2" ∧
  ∃ e1 e2, getMapping "t" m1 = Some e1 ∧ getMapping "t" m2 = Some e2 ∧
    conversationId e2 = "c2" ∧ ¬ (lastActivity e1 < lastActivity e2).
Proof.
  split; [done|]. eexists _, _. split_and!.
  - apply lookup_insert_eq.
  - apply lookup_insert_eq.
  - done.
  - simpl. lia.
Qed.


End ReplyClaims.

(** ** The reply route *)

Module ReplyRouteFacts.
Import Reply ReplyRoute.

(** The route hands the identifiers and the message of a valid body to
    [sendReply] and answers by the success of its result. *)
Lemma post_reply_forwards now client body msg
    (m : gmap string XMTPConversationMapping) :
  given (b_message body) = Some msg →
  is_Some (given (b_threadId body)) ∨ is_Some (given (b_conversationId body)) →
  post_reply now client (Some body) m =
    (if success (res_response
          (sendReply now client
             {| r_threadId := b_threadId body;
                r_conversationId := b_conversationId body;
                r_message := msg |} m))
     then 200 else 500,
     sendReply now client
       {| r_threadId := b_threadId body;
          r_conversationId := b_conversationId body; r_message := msg |} m).
Proof.
  intros Hmsg Hid. unfold post_reply. rewrite Hmsg.
  destruct (given (b_threadId body)) as [t|],
    (given (b_conversationId body)) as [c|].
  - by destruct (success _).
  - by destruct (success _).
  - by destruct (success _).
  - by destruct Hid as [[? [=]]|[? [=]]].
Qed.

End ReplyRouteFacts.

Section ReplyRouteClaims.
Import Reply ReplyRoute ReplyRouteFacts.

(** C8. [sendReply] resolves the conversation by the direct
    conversationId first when one is given, and otherwise (none given, or
    not leading to a conversation) by the mapping of the threadId; the
    text is sent to the conversation found and, the send completing, the
    response is success:true with the identifier of that conversation.
    With thread "t1" mapped to conversation "c1" and the lookup of "c1"
    succeeding, [POST /reply {threadId:"t1", message:"hi"}] sends "hi" to
    "c1" and answers 200 with success:true and conversationId "c1". A
    request that resolves to no conversation, as one without identifiers
    or without message, gets success:false with an error, and nothing is
    sent. The route passes the threadId, the conversationId and the
    message of the body on to [sendReply] as they are and answers 200
    exactly when the result is a success: a body that names a
    conversation the client finds is sent there and answered 200 with
    its identifier, whatever its threadId; a body whose conversationId
    leads nowhere is sent through the mapping of its threadId; and when
    the send throws, the answer is 500 with the message of the error. *)
Theorem C8_reply_resolution now client
    (m : gmap string XMTPConversationMapping) :
  (∀ cid tid msg conv,
     truthy cid = true →
     getConversationById client cid = Found conv →
     conv_send conv msg = SendOk →
     sendReply now (Some client)
       {| r_threadId := tid; r_conversationId := Some cid; r_message := msg |} m
     = sent m (conv_id conv) msg) ∧
  (∀ cid tid msg mapping conv,
     (∀ c, given cid = Some c → found (getConversationById client c) = None) →
     truthy tid = true →
     m !! tid = Some mapping →
     getConversationById client (conversationId mapping) = Found conv →
     conv_send conv msg = SendOk →
     sendReply now (Some client)
       {| r_threadId := Some tid; r_conversationId := cid; r_message := msg |} m
     = sent (<[tid := touch now mapping]> m) (conv_id conv) msg) ∧
  (∀ mapping conv,
     m !! "t1" = Some mapping → conversationId mapping = "c1" →
     getConversationById client "c1" = Found conv → conv_id conv = "c1" →
     conv_send conv "hi" = SendOk →
     post_reply now (Some client)
       (Some {| b_threadId := Some "t1"; b_conversationId := None;
                b_message := Some "hi" |}) m
     = (200, sent (<["t1" := touch now mapping]> m) "c1" "hi")) ∧
  (∀ request,
     unresolvable client (r_threadId request) (r_conversationId request) m →
     sendReply now (Some client) request m =
       failure m [] "Conversation not found") ∧
  (∀ body status result,
     post_reply now (Some client) (Some body) m = (status, result) →
     (given (b_message body) = None ∨
      (given (b_threadId body) = None ∧ given (b_conversationId body) = None) ∨
      unresolvable client (b_threadId body) (b_conversationId body) m) →
     success (res_response result) = false ∧
     is_Some (error (res_response result)) ∧
     res_sends result = [] ∧ res_mappings result = m ∧
     (status = 400 ∨ status = 500)) ∧
  (∀ body msg,
     given (b_message body) = Some msg →
     is_Some (given (b_threadId body)) ∨ is_Some (given (b_conversationId body)) →
     let result :=
       sendReply now (Some client)
         {| r_threadId := b_threadId body;
            r_conversationId := b_conversationId body; r_message := msg |} m in
     post_reply now (Some client) (Some body) m =
       (if success (res_response result) then 200 else 500, result)) ∧
  (∀ body cid msg conv,
     given (b_conversationId body) = Some cid →
     given (b_message body) = Some msg →
     getConversationById client cid = Found conv →
     post_reply now (Some client) (Some body) m =
       match conv_send conv msg with
       | SendOk => (200, sent m (conv_id conv) msg)
       | SendThrows err => (500, failure m [(conv_id conv, msg)] err)
       end) ∧
  (∀ body tid msg mapping conv,
     (∀ c, given (b_conversationId body) = Some c →
           found (getConversationById client c) = None) →
     given (b_threadId body) = Some tid →
     given (b_message body) = Some msg →
     m !! tid = Some mapping →
     getConversationById client (conversationId mapping) = Found conv →
     post_reply now (Some client) (Some body) m =
       match conv_send conv msg with
       | SendOk => (200, sent (<[tid := touch now mapping]> m) (conv_id conv) msg)
       | SendThrows err =>
           (500, failure (<[tid := touch now mapping]> m)
                   [(conv_id conv, msg)] err)
       end).
Proof.
  assert (Hun : ∀ request,
     unresolvable client (r_threadId request) (r_conversationId request) m →
     sendReply now (Some client) request m =
       failure m [] "Conversation not found").
  { intros [tid cid msg] [Hc Ht]. unfold sendReply. simpl in *.
    destruct (given cid) as [c|] eqn:Hcid.
    - rewrite (Hc c eq_refl).
      destruct (given tid) as [t|] eqn:Htid; [|done].
      destruct (m !! t) as [mapping|] eqn:Hm; [|done].
      by rewrite (Ht t mapping eq_refl Hm).
    - destruct (given tid) as [t|] eqn:Htid; [|done].
      destruct (m !! t) as [mapping|] eqn:Hm; [|done].
      by rewrite (Ht t mapping eq_refl Hm). }
  split_and!.
  - intros cid tid msg conv Hcid Hconv Hsend. unfold sendReply. simpl.
    rewrite Hcid, Hconv. simpl. by rewrite Hsend.
  - intros cid tid msg mapping conv Hno Htid Hm Hconv Hsend.
    unfold sendReply. simpl. rewrite Htid.
    destruct (given cid) as [c|] eqn:Hcid.
    + rewrite (Hno c eq_refl), Hm, Hconv. simpl. by rewrite Hsend.
    + rewrite Hm, Hconv. simpl. by rewrite Hsend.
  - intros mapping conv Hm Hc Hconv Hid Hsend. unfold post_reply. simpl.
    unfold sendReply. simpl. rewrite Hm, Hc, Hconv. simpl.
    rewrite Hsend. simpl. rewrite Hid. unfold sent, touch. by rewrite Hc.
  - exact Hun.
  - intros [tid cid msg] status result Hpost Hcase.
    unfold post_reply in Hpost.
    simpl b_threadId in *. simpl b_conversationId in *. simpl b_message in *.
    destruct (given msg) as [text|] eqn:Hmsg.
    + destruct Hcase as [?|[[Ht Hc]|Hcase]]; [done|..].
      * rewrite Ht, Hc in Hpost. injection Hpost as <- <-.
        simpl. split_and!; eauto.
      * pose proof (Hun {| r_threadId := tid; r_conversationId := cid;
                           r_message := text |} Hcase) as Hr.
        destruct (given tid), (given cid); rewrite ?Hr in Hpost;
          cbn in Hpost; injection Hpost as <- <-;
          simpl; split_and!; eauto.
    + destruct (given tid), (given cid); injection Hpost as <- <-;
        simpl; split_and!; eauto.
  - intros body msg Hmsg Hid. by apply post_reply_forwards.
  - intros body cid msg conv Hcid Hmsg Hconv.
    rewrite (post_reply_forwards now (Some client) body msg m Hmsg)
      by (right; by rewrite Hcid).
    unfold sendReply. simpl. rewrite Hcid, Hconv. simpl.
    by destruct (conv_send conv msg).
  - intros body tid msg mapping conv Hno Htid Hmsg Hm Hconv.
    rewrite (post_reply_forwards now (Some client) body msg m Hmsg)
      by (left; by rewrite Htid).
    unfold sendReply. simpl. rewrite Htid.
    destruct (given (b_conversationId body)) as [c|] eqn:Hcid.
    + rewrite (Hno c eq_refl), Hm, Hconv. simpl.
      by destruct (conv_send conv msg).
    + rewrite Hm, Hconv. simpl. by destruct (conv_send conv msg).
Qed.

Lemma C8_reply_resolution_witness :
  post_reply 7 (Some client_c1)
    (Some {| b_threadId := Some "t1"; b_conversationId := None;
             b_message := Some "hi" |})
    (addMapping 3 "t1" "c1" "0xabc" None ∅)
  = (200, sent (<["t1" := touch 7 {| threadId := "t1"; conversationId := "c1";
                                     walletAddress := "0xabc"; lastActivity := 3;
                                     agentId := None |}]>
                  (addMapping 3 "t1" "c1" "0xabc" None ∅)) "c1" "hi") ∧
  post_reply 7 (Some client_c1)
    (Some {| b_threadId := Some "t9"; b_conversationId := Some "c1";
             b_message := Some "hi" |})
    (addMapping 3 "t1" "c1" "0xabc" None ∅)
  = (200, sent (addMapping 3 "t1" "c1" "0xabc" None ∅) "c1" "hi").
Proof.
  destruct (C8_reply_resolution 7 client_c1 (addMapping 3 "t1" "c1" "0xabc" None ∅))
    as (_ & _ & H & _ & _ & _ & Hdirect & _).
  split.
  - apply (H {| threadId := "t1"; conversationId := "c1"; walletAddress := "0xabc";
                lastActivity := 3; agentId := None |}
             {| conv_id := "c1"; conv_send := λ _, SendOk |});
      reflexivity.
  - apply (Hdirect
      {| b_threadId := Some "t9"; b_conversationId := Some "c1";
         b_message := Some "hi" |} "c1" "hi"
      {| conv_id := "c1"; conv_send := λ _, SendOk |});
      reflexivity.
Defined.

End ReplyRouteClaims.

(** ** The backend call and the greeting *)

Module BackendFacts.
Import Backend.

Lemma processMessage_returns E post message senderAddress conversationId agentId :
  ∃ s, processMessage E post message senderAddress conversationId agentId = Returns s.
Proof.
  unfold processMessage.
  destruct (processMessage_try _ _ _ _ _ _); simpl; eauto.
Qed.

End BackendFacts.

Section BackendClaims.
Import Backend.

(** C9. [processMessage] never throws: whatever the request and whatever
    the backend does, it returns a string. When the HTTP call rejects
    (network error, timeout), when the body holds no object and when the
    success flag is false, the string is the fixed apology; otherwise it
    is the response text without its bold markers. Hence a [catch] around
    the call and its continuation is entered only when the continuation
    throws. *)
Theorem C9_processMessage_never_throws E post message senderAddress
    conversationId agentId :
  let result := processMessage E post message senderAddress conversationId agentId in
  let answer := post (endpoint E (or_else agentId (DEFAULT_AGENT_ID E)))
                     (request_of E message senderAddress conversationId) in
  (∃ s, result = Returns s) ∧
  (∀ e, result ≠ Throws e) ∧
  (∀ e, answer = Rejects e → result = Returns APOLOGY) ∧
  (answer = Resolves None → result = Returns APOLOGY) ∧
  (∀ d, answer = Resolves (Some d) → success d = false →
        result = Returns APOLOGY) ∧
  (∀ d, answer = Resolves (Some d) → success d = true →
        result = Returns (strip_bold (or_else (data_response d) "Response received"))) ∧
  (∀ (B : Type) (k : string → Completion B) (h : string → Completion B),
     ∃ s, result = Returns s ∧ try_catch (bind result k) h = try_catch (k s) h).
Proof.
  intros result answer. unfold result, processMessage, processMessage_try.
  fold answer. destruct answer as [e|[d|]]; simpl.
  - split_and!; intros; simplify_eq; eauto.
  - destruct (success d) eqn:Hs; simpl;
      split_and!; intros; simplify_eq; eauto; congruence.
  - split_and!; intros; simplify_eq; eauto.
Qed.

End BackendClaims.

Module GreetingFacts.
Import DBHealth Backend BackendFacts Greeting.

(** In the greeting flow the text sent is whatever [processMessage]
    returns; the fallback greeting is sent only when sending that text
    throws; in every case the conversation is then marked greeted and the
    handler returns. *)
Lemma greeting_flow E post ctx hashes messages :
  isGroup ctx = true → hasGreeted ctx = false →
  history ctx = Returns messages →
  (checkMessageArray (conversation_id ctx) messages hashes).2 = false →
  existsb (λ msg, bool_decide (m_senderInboxId msg = agent_inboxId ctx))
          messages = false →
  ∃ greeting,
    processMessage E post greetingPrompt
      (or_else (agent_address ctx) "unknown") (conversation_id ctx) None
      = Returns greeting ∧
    (greeting_block E post ctx hashes).1 =
      (match sendText ctx greeting with
       | Returns _ => [SendText greeting]
       | Throws _ => [SendText greeting; SendText FALLBACK_GREETING]
       end ++ [MarkAsGreeted (conversation_id ctx)], Returned).
Proof.
  intros Hg Hn Hh Hc Hs.
  destruct (processMessage_returns E post greetingPrompt
              (or_else (agent_address ctx) "unknown") (conversation_id ctx) None)
    as [greeting Hgreet].
  exists greeting. split; [done|].
  unfold greeting_block. rewrite Hg, Hn, Hh. simpl.
  destruct (checkMessageArray _ _ _) as [hashes' needsReset]. simpl in Hc.
  subst needsReset. rewrite Hs. simpl.
  unfold greet. rewrite Hgreet. unfold send.
  destruct (sendText ctx greeting) as [[]|e]; simpl.
  - done.
  - by destruct (sendText ctx FALLBACK_GREETING).
Qed.

End GreetingFacts.

Section GreetingClaims.
Import DBHealth Backend Greeting.

(** C5 (the code departs from it). A group that was never greeted and
    whose history holds no message of the agent is greeted while the
    backend is unreachable: [processMessage] turns the failure into its
    apology, so the apology is sent as the greeting, not the fallback
    greeting; the conversation is then marked greeted and the handler
    returns. *)
Theorem C5_greeting_on_backend_failure :
  greeting_block env0 unreachable_backend new_group ∅ =
    ([SendText APOLOGY; MarkAsGreeted "group1"], Returned,
     {[ "group1" := {| hash := "m1"; repeatCount := 1;
                       lastMessageIds := ["m1"] |} ]}) ∧
  APOLOGY ≠ FALLBACK_GREETING.
Proof.
  split.
  - vm_compute. reflexivity.
  - vm_compute. discriminate.
Qed.

End GreetingClaims.

(** * Part III: further properties of the code *)

#[local] Set Warnings "-clear-no-such-hyp".

(** ** Strings *)

Module StringFacts.

Lemma append_cons a s r : String a s +:+ r = String a (s +:+ r).
Proof. reflexivity. Qed.

Lemma append_nil_r s : s +:+ "" = s.
Proof.
  induction s as [|a s IH]; [done|]. by rewrite append_cons, IH.
Qed.

Lemma append_assoc s1 s2 s3 : (s1 +:+ s2) +:+ s3 = s1 +:+ s2 +:+ s3.
Proof.
  induction s1 as [|a s1 IH]; [done|]. by rewrite !append_cons, IH.
Qed.

Lemma length_append s1 s2 :
  String.length (s1 +:+ s2) = (String.length s1 + String.length s2)%nat.
Proof.
  induction s1 as [|a s1 IH]; [done|]. rewrite append_cons. simpl.
  by rewrite IH.
Qed.

Lemma append_eq_nil s1 s2 : s1 +:+ s2 = "" → s1 = "" ∧ s2 = "".
Proof. destruct s1; [done|]. by rewrite append_cons. Qed.

Lemma append_inv_head s s1 s2 : s +:+ s1 = s +:+ s2 → s1 = s2.
Proof.
  induction s as [|a s IH]; [done|]. rewrite !append_cons. intros [= ?]. auto.
Qed.

Lemma append_inv_tail s : ∀ s1 s2, s1 +:+ s = s2 +:+ s → s1 = s2.
Proof.
  intros s1. induction s1 as [|a s1 IH]; intros [|b s2] Heq.
  - done.
  - exfalso. apply (f_equal String.length) in Heq.
    rewrite !length_append in Heq. simpl in Heq. lia.
  - exfalso. apply (f_equal String.length) in Heq.
    rewrite !length_append in Heq. simpl in Heq. lia.
  - rewrite !append_cons in Heq. injection Heq as -> Heq. f_equal. by apply IH.
Qed.

Lemma join_eq_nil sep l :
  sep ≠ "" → join sep l = "" ↔ l = [] ∨ l = [""].
Proof.
  intros Hsep. split.
  - destruct l as [|x [|y l]]; simpl; [by left|by intros ->; right|].
    intros [_ [? _]%append_eq_nil]%append_eq_nil. done.
  - by intros [->| ->].
Qed.

End StringFacts.

(** ** The batching system: whole runs *)

Module BatchLaws.
Import Batch BatchFacts StringFacts.

Lemma adds_app key evs1 evs2 :
  adds key (evs1 ++ evs2) = adds key evs1 ++ adds key evs2.
Proof.
  induction evs1 as [|ev evs1 IH]; simpl; [done|].
  destruct (message_of ev) as [[[k m] fn]|]; [|done].
  case_decide; [|done]. by rewrite IH.
Qed.

Lemma flushed_fire_same st now tid tm ms :
  batch_of (t_batchKey tm) st = Some (ms, deadline tm, t_processFn tm) →
  Inv st → timers st !! tid = Some tm →
  flushed (t_batchKey tm) (fire now tid tm st) = flushed (t_batchKey tm) st ++ ms.
Proof.
  intros Hb HI Htm. unfold flushed. rewrite flushes_of_fire_same.
  rewrite fmap_app, concat_app. simpl. rewrite app_nil_r. f_equal.
  destruct (timer_of_batch _ _ _ _ _ HI Hb)
    as (tid' & tm' & Htm' & _ & Hk' & _ & Hms').
  assert (tid' = tid) as ->
    by apply (timer_unique st tid' tid tm' tm HI Htm' Htm Hk').
  assert (tm' = tm) as -> by congruence. by rewrite Hms'.
Qed.

(** One turn of the event loop moves the messages it adds into the batch
    and the batch it fires into the log, and touches nothing else. *)
Lemma step_conserves key st ev st1 :
  Inv st → step st ev = Some st1 →
  flushed key st1 ++ old_messages (batch_of key st1) =
    flushed key st ++ old_messages (batch_of key st) ++ fragments key [ev].
Proof.
  intros HI Hstep. unfold step in Hstep. case_decide as Hclk; [|done].
  destruct ev as [now c s i ty co fn|now tid]; simpl in *.
  - injection Hstep as <-. unfold flushed. rewrite flushes_of_add.
    case_decide as Hk.
    + subst key. by rewrite batch_of_add_same.
    + by rewrite batch_of_add_other, app_nil_r.
  - destruct (timers st !! tid) as [tm|] eqn:Htm; [|done].
    case_decide as Hd; [|done]. injection Hstep as <-.
    rewrite app_nil_r. destruct (decide (t_batchKey tm = key)) as [Hk|Hk].
    + subst key.
      destruct (batch_of_fire_same st now tid tm HI Htm) as (-> & ms & Hb & _).
      rewrite (flushed_fire_same _ _ _ _ ms) by done.
      rewrite Hb. simpl. by rewrite app_nil_r.
    + unfold flushed. rewrite flushes_of_fire_other by done.
      by rewrite batch_of_fire_other.
Qed.

Lemma run_conserves key evs : ∀ st st',
  Inv st → run st evs = Some st' →
  flushed key st' ++ old_messages (batch_of key st') =
    flushed key st ++ old_messages (batch_of key st) ++ fragments key evs.
Proof.
  induction evs as [|ev evs IH]; intros st st' HI Hrun.
  - injection Hrun as <-. simpl. by rewrite app_nil_r.
  - simpl in Hrun. destruct (step st ev) as [st1|] eqn:Hstep; [|done].
    simpl in Hrun.
    rewrite (IH _ _ (Inv_step _ _ _ HI Hstep) Hrun).
    rewrite (app_assoc (flushed key st1)), (step_conserves key _ _ _ HI Hstep).
    change (ev :: evs) with ([ev] ++ evs).
    by rewrite fragments_app, <- !app_assoc.
Qed.

Lemma step_led_by key h st ev st1 :
  Inv st → led_by key h st → step st ev = Some st1 →
  led_by key (h ++ adds key [ev]) st1.
Proof.
  intros HI Hled Hstep. unfold step in Hstep. case_decide as Hclk; [|done].
  destruct ev as [now c s i ty co fn|now tid]; simpl in *.
  - injection Hstep as <-. case_decide as Hk.
    + subst key. intros ms d fn'. rewrite batch_of_add_same by done.
      intros [= <- <- <-]. eexists. rewrite !last_snoc. done.
    + rewrite app_nil_r. intros ms d fn'.
      rewrite batch_of_add_other by done. apply Hled.
  - destruct (timers st !! tid) as [tm|] eqn:Htm; [|done].
    case_decide as Hd; [|done]. injection Hstep as <-.
    rewrite app_nil_r. destruct (decide (t_batchKey tm = key)) as [Hk|Hk].
    + subst key.
      destruct (batch_of_fire_same st now tid tm HI Htm) as (Hnone & _).
      intros ms d fn'. by rewrite Hnone.
    + intros ms d fn'. rewrite batch_of_fire_other by done. apply Hled.
Qed.

Lemma run_led_by key evs : ∀ h st st',
  Inv st → led_by key h st → run st evs = Some st' →
  led_by key (h ++ adds key evs) st'.
Proof.
  induction evs as [|ev evs IH]; intros h st st' HI Hled Hrun.
  - injection Hrun as <-. simpl. by rewrite app_nil_r.
  - simpl in Hrun. destruct (step st ev) as [st1|] eqn:Hstep; [|done].
    simpl in Hrun.
    pose proof (IH _ _ _ (Inv_step _ _ _ HI Hstep)
                  (step_led_by key h _ _ _ HI Hled Hstep) Hrun) as H.
    rewrite <- app_assoc, <- adds_app in H. done.
Qed.

Lemma step_no_empty_flush st ev st1 :
  Inv st → no_empty_flush st → step st ev = Some st1 → no_empty_flush st1.
Proof.
  intros HI [Hb Hf] Hstep. unfold step in Hstep. case_decide as Hclk; [|done].
  destruct ev as [now c s i ty co fn|now tid]; simpl in *.
  - injection Hstep as <-. split.
    + intros key ms d fn'. destruct (decide (batchKey c s = key)) as [<-|Hk].
      * rewrite batch_of_add_same by done. intros [= <- _ _].
        by intros [? ?]%app_eq_nil.
      * rewrite batch_of_add_other by done. apply Hb.
    + by rewrite flushes_addMessageToBatch.
  - destruct (timers st !! tid) as [tm|] eqn:Htm; [|done].
    case_decide as Hd; [|done]. injection Hstep as <-. split.
    + intros key ms d fn'. destruct (decide (t_batchKey tm = key)) as [<-|Hk].
      * destruct (batch_of_fire_same st now tid tm HI Htm) as (Hnone & _).
        by rewrite Hnone.
      * rewrite batch_of_fire_other by done. apply Hb.
    + simpl. intros f [Hin| ->%list_elem_of_singleton]%elem_of_app; [by apply Hf|].
      simpl.
      destruct (batch_of_fire_same st now tid tm HI Htm) as (_ & ms & Hbo & _).
      destruct (timer_of_batch _ _ _ _ _ HI Hbo)
        as (tid' & tm' & Htm' & _ & Hk' & _ & Hms').
      assert (tid' = tid) as ->
        by apply (timer_unique st tid' tid tm' tm HI Htm' Htm Hk').
      assert (tm' = tm) as -> by congruence.
      rewrite Hms'. simpl. by eapply Hb.
Qed.

Lemma run_no_empty_flush evs : ∀ st st',
  Inv st → no_empty_flush st → run st evs = Some st' → no_empty_flush st'.
Proof.
  induction evs as [|ev evs IH]; intros st st' HI Hn Hrun.
  - by injection Hrun as <-.
  - simpl in Hrun. destruct (step st ev) as [st1|] eqn:Hstep; [|done].
    simpl in Hrun.
    apply (IH _ _ (Inv_step _ _ _ HI Hstep)
              (step_no_empty_flush _ _ _ HI Hn Hstep) Hrun).
Qed.

Lemma no_empty_flush_init : no_empty_flush init.
Proof. split; [done|]. by intros f ?%elem_of_nil. Qed.

End BatchLaws.

Section BatchFurther.
Import Batch BatchFacts StringFacts BatchLaws.

(** X1. The batching neither loses nor duplicates nor reorders messages:
    after any run, the messages added under a key are exactly the
    messages its timer callbacks have been given so far, in order,
    followed by the messages of its pending batch. *)
Theorem X1_batching_conserves_messages key evs st :
  run init evs = Some st →
  fragments key evs = flushed key st ++ old_messages (batch_of key st).
Proof.
  intros Hrun. by rewrite (run_conserves key evs init st Inv_init Hrun).
Qed.

Lemma X1_batching_conserves_messages_witness :
  fragments (batchKey "c" "s") (text_then_image ++ [EvTimeout 1400 1]) =
  flushed (batchKey "c" "s") text_image_flushed ++
  old_messages (batch_of (batchKey "c" "s") text_image_flushed).
Proof.
  apply (X1_batching_conserves_messages (batchKey "c" "s")
           (text_then_image ++ [EvTimeout 1400 1]) text_image_flushed).
  reflexivity.
Defined.

(** X2. After any run, a pending batch is led by the last message added
    under its key: the batch ends with that message, its timer is due
    exactly one delay after it (events of other keys never postpone it),
    and the callback the timer will call is the one passed with that
    message. No timer callback is ever given an empty array. *)
Theorem X2_batch_led_by_last_message evs st :
  run init evs = Some st →
  (∀ key ms d fn, batch_of key st = Some (ms, d, fn) →
     ∃ m, last (adds key evs) = Some (m, fn) ∧ last ms = Some m ∧
          d = timestamp m + MESSAGE_BATCH_DELAY) ∧
  (∀ f, f ∈ flushes st → f_messages f ≠ []).
Proof.
  intros Hrun. split.
  - intros key. apply (run_led_by key evs [] init st Inv_init); [|done].
    intros ms d fn. done.
  - apply (run_no_empty_flush evs init st Inv_init no_empty_flush_init Hrun).
Qed.

Lemma X2_batch_led_by_last_message_witness :
  ∃ m, last (adds (batchKey "c" "s") text_then_image)
         = Some (m, attachmentProcessFn) ∧
       timestamp m = 400.
Proof.
  destruct (X2_batch_led_by_last_message text_then_image after_text_then_image)
    as [H _]; [reflexivity|].
  destruct (H (batchKey "c" "s")
              [{| id := "m1"; type := text; content := "hello"; timestamp := 0 |};
               {| id := "m2"; type := image; content := "IMG"; timestamp := 400 |}]
              1400 attachmentProcessFn eq_refl) as (m & Hl & Hm & Hd).
  exists m. split; [exact Hl|]. unfold MESSAGE_BATCH_DELAY in Hd. lia.
Defined.

(** X3. The two flush callbacks build the same text except when the batch
    holds image fragments and its joined text part is empty (no text
    fragment, or a single one with empty content): there the callback of
    the text handler puts a double newline before the image part and the
    callback of the attachment handler does not. *)
Theorem X3_callbacks_differ_only_on_empty_text ms :
  (join LFLF (contents text ms) = "" ↔
     contents text ms = [] ∨ contents text ms = [""]) ∧
  (contents image ms = [] ∨ join LFLF (contents text ms) ≠ "" →
     textProcessFn ms = attachmentProcessFn ms) ∧
  (contents image ms ≠ [] ∧ join LFLF (contents text ms) = "" →
     textProcessFn ms = LFLF +:+ attachmentProcessFn ms ∧
     textProcessFn ms ≠ attachmentProcessFn ms).
Proof.
  split_and!.
  - by apply join_eq_nil.
  - unfold textProcessFn, attachmentProcessFn.
    destruct (contents image ms) as [|img rest]; simpl; [done|].
    intros [?|Hne]; [done|].
    destruct (join LFLF (contents text ms)); [done|]. done.
  - unfold textProcessFn, attachmentProcessFn.
    destruct (contents image ms) as [|img rest]; simpl; [by intros [? _]|].
    intros [_ ->]. simpl. split; [done|].
    intros Heq. apply (f_equal String.length) in Heq.
    rewrite !length_append in Heq.
    change (String.length LFLF) with 2%nat in Heq. simpl in Heq. lia.
Qed.
End BatchFurther.

(** ** The deduplication ledger: runs of handlers *)

Module LedgerLaws.
Import Ledger LedgerFacts.

Lemma handle_NoDup s ev : NoDup s → NoDup (handle s ev).
Proof.
  intros Hnd. destruct ev as [id|id|id]; simpl; [| |done].
  - destruct (has id s); [done|].
    rewrite prune_spec by by apply add_NoDup.
    case_decide; [|by apply add_NoDup].
    by apply slice_last_NoDup, add_NoDup.
  - destruct (has id s); [done|]. by apply add_NoDup.
Qed.

Lemma handle_bounded s ev :
  NoDup s → not_reply ev → (length s ≤ 1000)%nat →
  (length (handle s ev) ≤ 1000)%nat.
Proof.
  intros Hnd Hev Hlen. destruct ev as [id|id|id]; [|done|done].
  by apply text_path_bounded.
Qed.

Lemma handle_all_invariant evs : ∀ s,
  NoDup s →
  NoDup (handle_all s evs) ∧
  (Forall not_reply evs → (length s ≤ 1000)%nat →
   (length (handle_all s evs) ≤ 1000)%nat).
Proof.
  induction evs as [|ev evs IH]; intros s Hnd; simpl; [done|].
  destruct (IH (handle s ev) (handle_NoDup s ev Hnd)) as [IH1 IH2].
  split; [done|]. intros [Hev Hevs]%Forall_cons Hlen.
  apply IH2; [done|]. by apply handle_bounded.
Qed.

Lemma has_true id s : has id s = true ↔ id ∈ s.
Proof. unfold has. apply bool_decide_eq_true. Qed.

Lemma has_false id s : has id s = false ↔ id ∉ s.
Proof. unfold has. apply bool_decide_eq_false. Qed.

Lemma prune_keeps_newest s id :
  NoDup (s ++ [id]) → id ∈ prune (s ++ [id]).
Proof.
  intros Hnd. rewrite prune_spec by done. case_decide as Hbig.
  - unfold slice_last. rewrite length_app in *. simpl in *.
    rewrite drop_app_le by lia. apply elem_of_app. right. by left.
  - apply elem_of_app. right. by left.
Qed.

Lemma marked_after s ev id :
  NoDup s → marked_id ev = Some id → id ∈ handle s ev.
Proof.
  intros Hnd. destruct ev as [i|i|i]; simpl; [| |done]; intros [= ->].
  - destruct (has id s) eqn:Hh; [by apply has_true|].
    apply has_false in Hh. rewrite add_fresh by done.
    apply prune_keeps_newest. rewrite <- (add_fresh id s) by done.
    by apply add_NoDup.
  - destruct (has id s) eqn:Hh; [by apply has_true|].
    apply has_false in Hh. rewrite add_fresh by done.
    apply elem_of_app. right. by left.
Qed.

End LedgerLaws.

Section LedgerFurther.
Import Ledger LedgerFacts LedgerLaws.

(** X4. The handlers keep the ledger free of duplicates, and as long as no
    reply arrives they keep a ledger of at most 1000 entries within 1000
    entries, whatever texts and attachments arrive. *)
Theorem X4_ledger_bounded_without_replies s evs :
  NoDup s →
  NoDup (handle_all s evs) ∧
  (Forall not_reply evs → (length s ≤ 1000)%nat →
   (length (handle_all s evs) ≤ 1000)%nat).
Proof. apply handle_all_invariant. Qed.

Lemma X4_ledger_bounded_without_replies_witness :
  NoDup (handle_all [] [TextMsg "a"; AttachmentMsg "b"; TextMsg "a"]) ∧
  (length (handle_all [] [TextMsg "a"; AttachmentMsg "b"; TextMsg "a"]) ≤ 1000)%nat.
Proof.
  destruct (X4_ledger_bounded_without_replies []
              [TextMsg "a"; AttachmentMsg "b"; TextMsg "a"]) as [H1 H2].
  - apply NoDup_nil_2.
  - split; [exact H1|]. apply H2.
    + repeat constructor.
    + simpl. lia.
Defined.

(** X5. A message that the text or the reply handler has just handled is
    in the ledger, also when the clean-up has just run, so its immediate
    redelivery is skipped: handling the same event again changes
    nothing. *)
Theorem X5_redelivery_is_skipped s ev :
  NoDup s →
  (∀ id, marked_id ev = Some id → has id (handle s ev) = true) ∧
  handle (handle s ev) ev = handle s ev.
Proof.
  intros Hnd.
  assert (H : ∀ id, marked_id ev = Some id → has id (handle s ev) = true).
  { intros id Hid. apply has_true. by apply marked_after. }
  split; [done|].
  destruct ev as [id|id|id]; [| |done].
  - specialize (H id eq_refl). simpl in *. by rewrite H.
  - specialize (H id eq_refl). simpl in *. by rewrite H.
Qed.

Lemma X5_redelivery_is_skipped_witness :
  handle (handle ["a"] (TextMsg "b")) (TextMsg "b") = handle ["a"] (TextMsg "b").
Proof.
  apply (X5_redelivery_is_skipped ["a"] (TextMsg "b")).
  apply NoDup_singleton.
Defined.

(** X6. The clean-up forgets: when a new text arrives at a ledger of 1000
    entries, the 501 oldest identifiers are dropped and the 499 newest
    kept, in order, before the new one; a redelivery of a dropped
    identifier is then handled as a new message. *)
Theorem X6_cleanup_forgets_oldest s id :
  NoDup s → length s = 1000%nat → id ∉ s →
  handle s (TextMsg id) = drop 501 s ++ [id] ∧
  ∀ old, old ∈ take 501 s →
    has old (handle s (TextMsg id)) = false ∧
    handle (handle s (TextMsg id)) (TextMsg old) = drop 501 s ++ [id; old].
Proof.
  intros Hnd Hlen Hid.
  destruct (text_path_bounded s id Hnd) as (Hnd' & _ & H); [lia|].
  destruct (H Hid Hlen) as [Heq Hl]. split; [done|].
  intros old Hold.
  assert (Hnot : old ∉ drop 501 s ++ [id]).
  { rewrite <- (take_drop 501 s) in Hnd.
    apply NoDup_app in Hnd as (_ & Hsep & _).
    intros [Hin| ->%list_elem_of_singleton]%elem_of_app.
    - by apply (Hsep old).
    - apply Hid. rewrite <- (take_drop 501 s). apply elem_of_app. by left. }
  rewrite Heq. split; [by apply has_false|].
  simpl. rewrite (proj2 (has_false _ _) Hnot).
  rewrite add_fresh by done.
  rewrite prune_spec.
  - rewrite decide_False; [by rewrite <- app_assoc|].
    rewrite !length_app, length_drop. simpl. lia.
  - rewrite <- (add_fresh old) by done. apply add_NoDup. by rewrite <- Heq.
Qed.

Lemma X6_cleanup_forgets_oldest_witness :
  handle (reply_ids 1000) (TextMsg "new") = drop 501 (reply_ids 1000) ++ ["new"].
Proof.
  refine (proj1 (X6_cleanup_forgets_oldest (reply_ids 1000) "new" _ _ _)).
  - apply reply_ids_NoDup.
  - unfold reply_ids. rewrite length_fmap, length_seq. reflexivity.
  - apply (bool_decide_unpack _). vm_compute. exact I.
Defined.
End LedgerFurther.

(** ** The staleness check: many conversations *)

Module DBHealthLaws.
Import DBHealth DBHealthFacts.

Lemma check_frame c c' ms (t : gmap string Entry) :
  c' ≠ c → (checkMessageArray c' ms t).1 !! c = t !! c.
Proof.
  intros Hne. unfold checkMessageArray.
  destruct (t !! c') as [e|]; [case_decide|]; simpl;
    by rewrite lookup_insert_ne.
Qed.

Lemma check_local c ms (t t' : gmap string Entry) :
  t !! c = t' !! c →
  (checkMessageArray c ms t).2 = (checkMessageArray c ms t').2 ∧
  (checkMessageArray c ms t).1 !! c = (checkMessageArray c ms t').1 !! c.
Proof.
  intros Heq. unfold checkMessageArray. rewrite <- Heq.
  destruct (t !! c) as [e|]; [case_decide|]; simpl;
    by rewrite !lookup_insert_eq.
Qed.

Lemma about_cons {A} c c' (x : A) l :
  about c ((c', x) :: l) = if decide (c' = c) then x :: about c l else about c l.
Proof.
  unfold about. rewrite filter_cons. simpl. by case_decide.
Qed.

Lemma observe_log_local c calls : ∀ (t t' : gmap string Entry),
  t !! c = t' !! c →
  about c (observe_log calls t).2 = (observe_all c (about c calls) t').2 ∧
  (observe_log calls t).1 !! c = (observe_all c (about c calls) t').1 !! c.
Proof.
  induction calls as [|[c' ms] calls IH]; intros t t' Heq; [done|].
  cbn [observe_log]. rewrite (about_cons c c' ms calls).
  destruct (decide (c' = c)) as [->|Hne].
  - cbn [observe_all].
    destruct (check_local c ms t t' Heq) as [Hr Ht].
    destruct (checkMessageArray c ms t) as [t1 r].
    destruct (checkMessageArray c ms t') as [t1' r']. simpl in Hr, Ht. subst r'.
    specialize (IH t1 t1' Ht).
    destruct (observe_log calls t1) as [t2 rs].
    destruct (observe_all c (about c calls) t1') as [t2' rs'].
    cbn [fst snd] in *.
    destruct IH as [IH1 IH2]. split; [|done].
    rewrite about_cons, decide_True by done. by f_equal.
  - pose proof (check_frame c c' ms t Hne) as Hf.
    destruct (checkMessageArray c' ms t) as [t1 r]. simpl in Hf.
    assert (Heq1 : t1 !! c = t' !! c) by congruence.
    specialize (IH t1 t' Heq1).
    destruct (observe_log calls t1) as [t2 rs]. cbn [fst snd] in *.
    destruct IH as [IH1 IH2]. split; [|done].
    by rewrite about_cons, decide_False.
Qed.

Lemma check_entry c ms (t : gmap string Entry) :
  map_Forall (λ _ e, entry_ok e) t →
  map_Forall (λ _ e, entry_ok e) (checkMessageArray c ms t).1 ∧
  ∃ e, (checkMessageArray c ms t).1 !! c = Some e ∧
       hash e = fingerprint ms ∧
       (checkMessageArray c ms t).2 = isStuck e.
Proof.
  intros Hok. unfold checkMessageArray, fingerprint, isStuck.
  assert (Hfresh : entry_ok {| hash := join "|" (sort (m_id <$> ms));
                               repeatCount := 1;
                               lastMessageIds := sort (m_id <$> ms) |}).
  { split_and!; simpl; [lia|done|]. apply Sorted_merge_sort; apply _. }
  destruct (t !! c) as [e|] eqn:He; [case_decide as Hh|]; simpl.
  - split.
    + apply map_Forall_insert_2; [|done].
      destruct (Hok c e He) as (H1 & H2 & H3). split_and!; simpl; [lia|done..].
    + eexists. rewrite lookup_insert_eq. split_and!; done.
  - split; [by apply map_Forall_insert_2|].
    eexists. rewrite lookup_insert_eq. split_and!; done.
  - split; [by apply map_Forall_insert_2|].
    eexists. rewrite lookup_insert_eq. split_and!; done.
Qed.

Lemma observe_log_entries calls : ∀ (t : gmap string Entry),
  map_Forall (λ _ e, entry_ok e) t →
  map_Forall (λ _ e, entry_ok e) (observe_log calls t).1.
Proof.
  induction calls as [|[c ms] calls IH]; intros t Hok; [done|].
  cbn [observe_log].
  destruct (check_entry c ms t Hok) as [Hok1 _].
  destruct (checkMessageArray c ms t) as [t1 r]. simpl in *.
  specialize (IH t1 Hok1).
  by destruct (observe_log calls t1) as [t2 rs].
Qed.

End DBHealthLaws.

Section DBHealthFurther.
Import DBHealth DBHealthFacts DBHealthLaws.

(** X7. Conversations do not interfere in the staleness check: in any
    sequence of calls for any conversations, the values returned for one
    conversation, and the entry kept for it, are those of its own calls
    alone. *)
Theorem X7_conversations_checked_independently c calls
    (t : gmap string Entry) :
  about c (observe_log calls t).2 = (observe_all c (about c calls) t).2 ∧
  (observe_log calls t).1 !! c = (observe_all c (about c calls) t).1 !! c.
Proof. by apply observe_log_local. Qed.

(** X8. After any calls from an empty table, every stored entry has a
    repeat count of at least 1 and a fingerprint that is the join of its
    sorted identifier list; and a call returns true exactly when the
    entry it leaves for its conversation, which carries the fingerprint
    of the list just seen, is the one that [getStats] reports as stuck. *)
Theorem X8_entries_well_formed_and_signal_is_stuck calls c ms :
  let t := (observe_log calls ∅).1 in
  (∀ c' e, (checkMessageArray c ms t).1 !! c' = Some e →
     1 ≤ repeatCount e ∧ hash e = join "|" (lastMessageIds e) ∧
     Sorted id_le (lastMessageIds e)) ∧
  ∃ e, (checkMessageArray c ms t).1 !! c = Some e ∧
       hash e = fingerprint ms ∧
       (checkMessageArray c ms t).2 = isStuck e.
Proof.
  intros t.
  assert (Hok : map_Forall (λ _ e, entry_ok e) t).
  { apply observe_log_entries. apply map_Forall_empty. }
  destruct (check_entry c ms t Hok) as [H1 H2]. split; [|done].
  intros c' e He. apply (H1 c' e He).
Qed.

(** X9. [clearConversation] forgets one conversation only: the entries of
    the others are untouched, and the cleared conversation, even if it
    was stuck, is counted afresh: of the following calls with the same
    identifiers the n-th returns true exactly when n >= 3. *)
Theorem X9_clear_restarts_the_count c ms calls (t : gmap string Entry) :
  (∀ c', c' ≠ c → clearConversation c t !! c' = t !! c') ∧
  (Forall (λ ms', m_id <$> ms' ≡ₚ m_id <$> ms) calls →
   (observe_all c (ms :: calls) (clearConversation c t)).2 =
     (λ n : nat, bool_decide (3 ≤ n)%nat) <$> seq 1 (S (length calls))).
Proof.
  split.
  - intros c' Hne. unfold clearConversation. by rewrite lookup_delete_ne.
  - intros Hall. cbn [observe_all].
    rewrite check_first by apply lookup_delete_eq.
    pose proof (observe_identical c (fingerprint ms) calls
      (<[c := {| hash := fingerprint ms; repeatCount := 1;
                 lastMessageIds := sort (m_id <$> ms) |}]>
         (clearConversation c t)) _
      (lookup_insert_eq _ _ _) eq_refl) as Hobs.
    destruct (observe_all c calls _) as [t2 rs]. simpl in *.
    rewrite Hobs.
    + f_equal. rewrite <- (fmap_S_seq 1), <- list_fmap_compose.
      apply list_fmap_ext. intros _ i _. simpl. apply bool_decide_ext. lia.
    + eapply Forall_impl; [exact Hall|]. intros ms'.
      apply fingerprint_Permutation.
Qed.
End DBHealthFurther.

(** ** The reply service: statistics, clean-up and activity *)

Module ReplyLaws.
Import Reply ReplyFacts ReplyRoute.

Lemma foldl_older l : ∀ x,
  foldl older x l ∈ x :: l ∧
  ∀ y, y ∈ x :: l → lastActivity (foldl older x l) ≤ lastActivity y.
Proof.
  induction l as [|z l IH]; intros x; simpl.
  - split; [by left|]. intros y ->%list_elem_of_singleton. lia.
  - destruct (IH (older x z)) as [Hin Hle]. split.
    + apply elem_of_cons in Hin as [Hin|Hin].
      * rewrite Hin. unfold older. case_decide; [right; left|left].
      * by do 2 right.
    + intros y Hy.
      assert (Hxz : lastActivity (older x z) ≤ lastActivity x ∧
                    lastActivity (older x z) ≤ lastActivity z)
        by (unfold older; case_decide; lia).
      pose proof (Hle (older x z) (list_elem_of_here _ _)) as H0.
      apply elem_of_cons in Hy as [->|Hy]; [lia|].
      apply elem_of_cons in Hy as [->|Hy]; [lia|].
      apply Hle. by right.
Qed.

Lemma foldl_newer l : ∀ x,
  foldl newer x l ∈ x :: l ∧
  ∀ y, y ∈ x :: l → lastActivity y ≤ lastActivity (foldl newer x l).
Proof.
  induction l as [|z l IH]; intros x; simpl.
  - split; [by left|]. intros y ->%list_elem_of_singleton. lia.
  - destruct (IH (newer x z)) as [Hin Hle]. split.
    + apply elem_of_cons in Hin as [Hin|Hin].
      * rewrite Hin. unfold newer. case_decide; [right; left|left].
      * by do 2 right.
    + intros y Hy.
      assert (Hxz : lastActivity x ≤ lastActivity (newer x z) ∧
                    lastActivity z ≤ lastActivity (newer x z))
        by (unfold newer; case_decide; lia).
      pose proof (Hle (newer x z) (list_elem_of_here _ _)) as H0.
      apply elem_of_cons in Hy as [->|Hy]; [lia|].
      apply elem_of_cons in Hy as [->|Hy]; [lia|].
      apply Hle. by right.
Qed.

(** The oldest date is a lower bound that some mapping attains. *)
Lemma oldest_spec l lo :
  oldestMapping (stats_of l) = Some lo ↔
  (∃ e, e ∈ l ∧ lastActivity e = lo) ∧ ∀ y, y ∈ l → lo ≤ lastActivity y.
Proof.
  unfold stats_of. simpl. destruct l as [|x l]; simpl.
  - split; [done|]. intros [(e & He & _) _]. by apply elem_of_nil in He.
  - destruct (foldl_older l x) as [Hin Hle]. split.
    + intros [= <-]. split; [by eexists|done].
    + intros [(e & He & <-) Hlo]. f_equal.
      pose proof (Hle e He). pose proof (Hlo _ Hin). lia.
Qed.

Lemma newest_spec l hi :
  newestMapping (stats_of l) = Some hi ↔
  (∃ e, e ∈ l ∧ lastActivity e = hi) ∧ ∀ y, y ∈ l → lastActivity y ≤ hi.
Proof.
  unfold stats_of. simpl. destruct l as [|x l]; simpl.
  - split; [done|]. intros [(e & He & _) _]. by apply elem_of_nil in He.
  - destruct (foldl_newer l x) as [Hin Hle]. split.
    + intros [= <-]. split; [by eexists|done].
    + intros [(e & He & <-) Hlo]. f_equal.
      pose proof (Hle e He). pose proof (Hlo _ Hin). lia.
Qed.

Lemma stats_of_Permutation l l' : l ≡ₚ l' → stats_of l = stats_of l'.
Proof.
  intros Hp.
  assert (Ho : oldestMapping (stats_of l) = oldestMapping (stats_of l')).
  { destruct (oldestMapping (stats_of l)) as [lo|] eqn:H1.
    - symmetry. apply oldest_spec. apply oldest_spec in H1.
      by setoid_rewrite <- Hp.
    - destruct (oldestMapping (stats_of l')) as [lo|] eqn:H2; [|done].
      apply oldest_spec in H2. setoid_rewrite <- Hp in H2.
      apply oldest_spec in H2. congruence. }
  assert (Hn : newestMapping (stats_of l) = newestMapping (stats_of l')).
  { destruct (newestMapping (stats_of l)) as [lo|] eqn:H1.
    - symmetry. apply newest_spec. apply newest_spec in H1.
      by setoid_rewrite <- Hp.
    - destruct (newestMapping (stats_of l')) as [lo|] eqn:H2; [|done].
      apply newest_spec in H2. setoid_rewrite <- Hp in H2.
      apply newest_spec in H2. congruence. }
  assert (Ht : totalMappings (stats_of l) = totalMappings (stats_of l'))
    by (simpl; by rewrite Hp).
  destruct (stats_of l), (stats_of l'). simpl in *. congruence.
Qed.

Lemma elem_of_values (m : gmap string XMTPConversationMapping) e :
  e ∈ (map_to_list m).*2 ↔ ∃ t, m !! t = Some e.
Proof.
  rewrite list_elem_of_fmap. split.
  - intros ([t e'] & -> & Hin). exists t. by apply elem_of_map_to_list.
  - intros [t Ht]. exists (t, e). split; [done|]. by apply elem_of_map_to_list.
Qed.

(** Clean-up as a filter: what it keeps. *)
Lemma cleanup_lookup now h (m : gmap string XMTPConversationMapping) t e :
  (cleanupOldMappings now h m).1 !! t = Some e ↔
  m !! t = Some e ∧ now - lastActivity e ≤ hours h.
Proof.
  rewrite cleanupOldMappings_spec. simpl.
  rewrite map_lookup_filter_Some. unfold stale. simpl.
  split; intros [? ?]; (split; [done|lia]).
Qed.

Ltac reply_case :=
  simpl; split_and!;
  [ first [by left | right; do 3 eexists; split_and!; by eauto]
  | first [by left | right; by eexists]
  | first [done | intros _; eexists; by split_and!]
  | first [done | intros _; split; [by eexists|done]] ].

Lemma sendReply_cases now client req
    (m : gmap string XMTPConversationMapping) :
  let r := sendReply now client req m in
  (res_mappings r = m ∨
   ∃ tid e c, given (r_threadId req) = Some tid ∧ m !! tid = Some e ∧
     (∃ cl, client = Some cl ∧
            found (getConversationById cl (conversationId e)) = Some c) ∧
     res_mappings r = <[tid := touch now e]> m ∧
     res_sends r = [(conv_id c, r_message req)]) ∧
  (res_sends r = [] ∨ ∃ c, res_sends r = [(c, r_message req)]) ∧
  (success (res_response r) = true →
     ∃ c, res_sends r = [(c, r_message req)] ∧
          resp_conversationId (res_response r) = Some c ∧
          error (res_response r) = None) ∧
  (success (res_response r) = false →
     is_Some (error (res_response r)) ∧
     resp_conversationId (res_response r) = None).
Proof.
  cbv zeta. unfold sendReply.
  destruct client as [cl|]; [|by reply_case].
  destruct (given (r_conversationId req)) as [cid|];
    [destruct (found (getConversationById cl cid)) as [c|]|].
  - destruct (conv_send c (r_message req)) eqn:Hs; by reply_case.
  - destruct (given (r_threadId req)) as [tid|] eqn:Htid; [|by reply_case].
    destruct (m !! tid) as [e|] eqn:He; [|by reply_case].
    destruct (found (getConversationById cl (conversationId e))) as [c|] eqn:Hc;
      [|by reply_case].
    destruct (conv_send c (r_message req)) eqn:Hs; by reply_case.
  - destruct (given (r_threadId req)) as [tid|] eqn:Htid; [|by reply_case].
    destruct (m !! tid) as [e|] eqn:He; [|by reply_case].
    destruct (found (getConversationById cl (conversationId e))) as [c|] eqn:Hc;
      [|by reply_case].
    destruct (conv_send c (r_message req)) eqn:Hs; by reply_case.
Qed.


End ReplyLaws.

Section ReplyFurther.
Import Reply ReplyFacts ReplyRoute ReplyLaws.

(** X10. The statistics of [getStats]: the total is the number of
    mappings; both dates are null exactly for an empty table; otherwise
    the oldest and newest dates are attained by mappings of the table and
    bound the lastActivity of every mapping. None of this depends on the
    order in which the table lists its values. *)
Theorem X10_stats_extremes (m : gmap string XMTPConversationMapping) :
  let s := getStats m in
  totalMappings s = size m ∧
  (m = ∅ ↔ oldestMapping s = None) ∧ (m = ∅ ↔ newestMapping s = None) ∧
  (∀ t e, m !! t = Some e →
     ∃ lo hi, oldestMapping s = Some lo ∧ newestMapping s = Some hi ∧
              lo ≤ lastActivity e ≤ hi) ∧
  (∀ lo, oldestMapping s = Some lo → ∃ t e, m !! t = Some e ∧ lastActivity e = lo) ∧
  (∀ hi, newestMapping s = Some hi → ∃ t e, m !! t = Some e ∧ lastActivity e = hi) ∧
  (∀ mappings, mappings ≡ₚ (map_to_list m).*2 → stats_of mappings = s).
Proof.
  intros s. unfold s, getStats.
  assert (Hne : ∀ t e, m !! t = Some e →
     ∃ lo hi, oldestMapping (stats_of (map_to_list m).*2) = Some lo ∧
              newestMapping (stats_of (map_to_list m).*2) = Some hi ∧
              lo ≤ lastActivity e ≤ hi).
  { intros t e He.
    assert (Hin : e ∈ (map_to_list m).*2) by (apply elem_of_values; eauto).
    destruct (oldestMapping (stats_of (map_to_list m).*2)) as [lo|] eqn:Ho.
    - destruct (newestMapping (stats_of (map_to_list m).*2)) as [hi|] eqn:Hn.
      + exists lo, hi. split_and!; [done..| |].
        * apply oldest_spec in Ho as [_ Ho]. by apply Ho.
        * apply newest_spec in Hn as [_ Hn]. by apply Hn.
      + exfalso. destruct ((map_to_list m).*2) as [|x l]; [by apply elem_of_nil in Hin|].
        done.
    - exfalso. destruct ((map_to_list m).*2) as [|x l]; [by apply elem_of_nil in Hin|].
      done. }
  split_and!.
  - simpl. by rewrite length_fmap, length_map_to_list.
  - split.
    + intros ->. by rewrite map_to_list_empty.
    + intros Ho. apply map_empty. intros t.
      destruct (m !! t) as [e|] eqn:He; [|done].
      destruct (Hne t e He) as (lo & hi & H1 & _). congruence.
  - split.
    + intros ->. by rewrite map_to_list_empty.
    + intros Hn. apply map_empty. intros t.
      destruct (m !! t) as [e|] eqn:He; [|done].
      destruct (Hne t e He) as (lo & hi & _ & H1 & _). congruence.
  - exact Hne.
  - intros lo [(e & [t He]%elem_of_values & Hlo) _]%oldest_spec. eauto.
  - intros hi [(e & [t He]%elem_of_values & Hhi) _]%newest_spec. eauto.
  - intros mappings Hp. by apply stats_of_Permutation.
Qed.

(** X11. Clean-up settles: what a clean-up keeps is part of the table, a
    second clean-up at the same instant removes nothing more, a later
    clean-up or one with fewer hours keeps no more than an earlier or
    more generous one, and a clean-up with negative hours keeps only
    mappings stamped in the future, so it empties a table whose mappings
    were all stamped up to now. *)
Theorem X11_cleanup_settles now h (m : gmap string XMTPConversationMapping) :
  let m' := (cleanupOldMappings now h m).1 in
  m' ⊆ m ∧
  cleanupOldMappings now h m' = (m', 0) ∧
  (∀ now' h', now ≤ now' → h' ≤ h → (cleanupOldMappings now' h' m).1 ⊆ m') ∧
  (h < 0 → (∀ t e, m !! t = Some e → lastActivity e ≤ now) →
     m' = ∅ ∧ (cleanupOldMappings now h m).2 = Z.of_nat (size m)).
Proof.
  intros m'. unfold m'. split_and!.
  - apply map_subseteq_spec. intros t e. rewrite cleanup_lookup. tauto.
  - rewrite (cleanupOldMappings_spec now h (cleanupOldMappings now h m).1).
    f_equal.
    + apply map_filter_id. intros t e [_ He]%cleanup_lookup.
      unfold stale. simpl. lia.
    + rewrite (proj2 (map_empty_filter _ _)); [done|].
      intros t e [_ He]%cleanup_lookup. unfold stale. simpl. lia.
  - intros now' h' Hnow Hh. apply map_subseteq_spec. intros t e.
    rewrite !cleanup_lookup. unfold hours. intros [? ?]. split; [done|lia].
  - intros Hneg Hpast.
    assert (He : (cleanupOldMappings now h m).1 = ∅).
    { apply map_empty. intros t.
      destruct ((cleanupOldMappings now h m).1 !! t) as [e|] eqn:He; [|done].
      apply cleanup_lookup in He as [He Hage].
      pose proof (Hpast t e He). unfold hours in Hage. lia. }
    split; [done|].
    rewrite cleanupOldMappings_spec in *. simpl in *.
    pose proof (size_filter_split now h m) as Hs.
    rewrite He, map_size_empty in Hs. lia.
Qed.

(** X12. The clean-up route takes 24 hours when the body is not JSON,
    when it has no [maxAgeHours] and when [maxAgeHours] is falsy (null,
    false, the number 0, the empty string): each of these requests is
    answered as a request for 24 hours is, so a request for the number 0
    removes no mapping active within the last 24 hours. The body null is
    answered 500 and removes nothing. An integer other than 0 (whose
    milliseconds are computed exactly) is the number of hours of the
    clean-up, also when it is negative; the string "0" is truthy and
    does mean 0 hours, which removes every mapping last active before
    now. Whenever the route cleans, it
    answers 200, what it leaves is part of the table, and the count it
    reports is the number of mappings it removed. *)
Theorem X12_cleanup_route_zero_hours_means_24 now nullError
    (m : gmap string XMTPConversationMapping) :
  let by24 := post_cleanup now nullError (BodyWith (JNumber 24)) m in
  (∃ r, by24 = Some (200, (cleanupOldMappings now 24 m).1, Cleaned r) ∧
        cleanedCount r = (cleanupOldMappings now 24 m).2 ∧
        c_maxAgeHours r = JNumber 24) ∧
  Forall (λ body, post_cleanup now nullError body m = by24)
    [NotJSON; BodyWithout; BodyWith JNull; BodyWith (JBool false);
     BodyWith (JNumber 0); BodyWith (JString "")] ∧
  (∀ t e, m !! t = Some e → now - lastActivity e ≤ hours 24 →
     ∃ m' r, post_cleanup now nullError (BodyWith (JNumber 0)) m = Some (200, m', Cleaned r) ∧
             m' !! t = Some e) ∧
  post_cleanup now nullError BodyNull m = Some (500, m, CleanupFailed nullError) ∧
  (∀ n, n ≠ 0 → Z.abs n * 60 * 60 * 1000 ≤ 2 ^ 53 →
     ∃ r, post_cleanup now nullError (BodyWith (JNumber n)) m =
            Some (200, (cleanupOldMappings now n m).1, Cleaned r) ∧
          cleanedCount r = (cleanupOldMappings now n m).2 ∧
          c_maxAgeHours r = JNumber n) ∧
  (∃ r, post_cleanup now nullError (BodyWith (JString "0")) m =
          Some (200, (cleanupOldMappings now 0 m).1, Cleaned r) ∧
        cleanedCount r = (cleanupOldMappings now 0 m).2 ∧
        c_maxAgeHours r = JString "0" ∧
        ∀ t e, m !! t = Some e → lastActivity e < now →
               (cleanupOldMappings now 0 m).1 !! t = None) ∧
  (∀ body status m' r,
     post_cleanup now nullError body m = Some (status, m', Cleaned r) →
     status = 200 ∧ m' ⊆ m ∧
     cleanedCount r = Z.of_nat (size m) - Z.of_nat (size m') ∧
     ∃ h, hours_of (c_maxAgeHours r) = Some h ∧
          cleanupOldMappings now h m = (m', cleanedCount r)).
Proof.
  assert (H24 : post_cleanup now nullError (BodyWith (JNumber 24)) m =
    Some (200, (cleanupOldMappings now 24 m).1,
          Cleaned {| cleanedCount := (cleanupOldMappings now 24 m).2;
                     c_maxAgeHours := JNumber 24;
                     c_message := "Cleaned up " +:+
                       pretty (cleanupOldMappings now 24 m).2 +:+
                       " conversation mappings older than " +:+
                       shown (JNumber 24) +:+ " hours" |})).
  { unfold post_cleanup. simpl. by destruct (cleanupOldMappings now 24 m). }
  cbv zeta. split_and!.
  - rewrite H24. by eexists.
  - repeat constructor.
  - intros t e He Hage.
    change (post_cleanup now nullError (BodyWith (JNumber 0)) m)
      with (post_cleanup now nullError (BodyWith (JNumber 24)) m).
    rewrite H24. eexists _, _. split; [done|].
    by apply cleanup_lookup.
  - done.
  - intros n Hn Hfit. unfold post_cleanup.
    assert (Hor : or_24 (Some (JNumber n)) = JNumber n) by by destruct n.
    rewrite Hor. unfold hours_of. rewrite decide_True by done.
    destruct (cleanupOldMappings now n m). by eexists.
  - assert (Hh : hours_of (or_24 (Some (JString "0"))) = Some 0) by done.
    unfold post_cleanup. cbv beta iota zeta. rewrite Hh.
    change (or_24 (Some (JString "0"))) with (JString "0").
    destruct (cleanupOldMappings now 0 m) as [m0 n0] eqn:Hcl.
    eexists. split_and!; [done..|]. intros t e He Hage. simpl.
    destruct (m0 !! t) as [e'|] eqn:Ht; [|done]. exfalso.
    assert (Ht' : (cleanupOldMappings now 0 m).1 !! t = Some e')
      by by rewrite Hcl.
    apply cleanup_lookup in Ht' as [He' Hle]. unfold hours in Hle.
    assert (e' = e) by congruence. subst e'. lia.
  - intros body status m' r Hpost.
    assert (Hc : ∃ h, hours_of (c_maxAgeHours r) = Some h ∧ status = 200 ∧
                      cleanupOldMappings now h m = (m', cleanedCount r)).
    { unfold post_cleanup in Hpost.
      destruct body as [| | |v]; [| done | |];
        destruct (hours_of (or_24 _)) as [h|] eqn:Hh; try done;
        destruct (cleanupOldMappings now h m) as [m1 n] eqn:Hcl;
        injection Hpost as <- <- <-; simpl; by exists h. }
    destruct Hc as (h & Hh & -> & Hcl). split_and!; [done| | |by exists h].
    + apply map_subseteq_spec. intros t e Ht.
      assert (Ht' : (cleanupOldMappings now h m).1 !! t = Some e)
        by by rewrite Hcl.
      by apply cleanup_lookup in Ht' as [? _].
    + rewrite cleanupOldMappings_spec in Hcl. injection Hcl as <- <-.
      pose proof (size_filter_split now h m). lia.
Qed.




(** X15. What [sendReply] can do, whatever the client and the request:
    it never adds or removes a mapping and changes at most the
    lastActivity of the mapping of the request's thread, and only when
    that mapping led to the conversation a send was attempted on; it
    attempts at most one send, of the request's message; it reports
    success only after that send, with the identifier of the conversation
    sent to and no error, and otherwise reports an error and no
    conversation. *)
Theorem X15_sendReply_frame now client req
    (m : gmap string XMTPConversationMapping) :
  let r := sendReply now client req m in
  (res_mappings r = m ∨
   ∃ tid e c, given (r_threadId req) = Some tid ∧ m !! tid = Some e ∧
     (∃ cl, client = Some cl ∧
            found (getConversationById cl (conversationId e)) = Some c) ∧
     res_mappings r = <[tid := touch now e]> m ∧
     res_sends r = [(conv_id c, r_message req)]) ∧
  (∀ t, is_Some (res_mappings r !! t) ↔ is_Some (m !! t)) ∧
  (res_sends r = [] ∨ ∃ c, res_sends r = [(c, r_message req)]) ∧
  (success (res_response r) = true →
     ∃ c, res_sends r = [(c, r_message req)] ∧
          resp_conversationId (res_response r) = Some c ∧
          error (res_response r) = None) ∧
  (success (res_response r) = false →
     is_Some (error (res_response r)) ∧
     resp_conversationId (res_response r) = None).
Proof.
  intros r. destruct (sendReply_cases now client req m) as (H1 & H2 & H3 & H4).
  fold r in H1, H2, H3, H4. split_and!; [done| |done..].
  intros t. destruct H1 as [->|(tid & e & c & _ & He & _ & -> & _)]; [done|].
  destruct (decide (t = tid)) as [->|Hne].
  - rewrite lookup_insert_eq, He. split; eauto.
  - by rewrite lookup_insert_ne.
Qed.
End ReplyFurther.

(** ** The [POST /send-message] route *)

Module SendRouteLaws.
Import ReplyRoute SendRoute.

Lemma deliver_cases calls dm message :
  let r := deliver calls dm message in
  (r.1 = calls ∧ s_success r.2 = false ∧ s_status r.2 = 500 ∧ dm = None) ∨
  (∃ c, dm = Some c ∧ r.1 = calls ++ [CallSend (conv_id c) message] ∧
        ((conv_send c message = SendOk ∧ s_success r.2 = true ∧
          s_status r.2 = 200 ∧ s_conversationId r.2 = Some (conv_id c) ∧
          s_error r.2 = None) ∨
         (conv_send c message ≠ SendOk ∧ s_success r.2 = false ∧
          s_status r.2 = 500 ∧ s_conversationId r.2 = None ∧
          is_Some (s_error r.2)))).
Proof.
  cbv zeta. unfold deliver. destruct dm as [c|]; [|by left].
  right. exists c. split; [done|].
  destruct (conv_send c message) eqn:Hs; simpl.
  - split; [done|]. left. by split_and!.
  - split; [done|]. right. split_and!; [done..|by eexists].
Qed.

Ltac send_made :=
  intros; simplify_eq/=;
  repeat match goal with
    | H1 : ?x = ?y, H2 : ?x = ?z |- _ =>
        first [ assert (y = z) by congruence; clear H2; simplify_eq/=
              | congruence ]
    end;
  repeat match goal with H : conv_send _ _ = _ |- _ => rewrite H end;
  first [done | congruence].

Ltac send_success :=
  split;
  [ first
      [ done
      | intros _; eexists _, _, _, _; split_and!; [done..|]; eauto 10 ]
  | first
      [ done
      | intros (?&?&?&?&?&?&?&?&[(?&?&?)|(?&?&?&?)]);
        simplify_eq/=; congruence ] ].

Ltac send_case :=
  simpl; split_and!;
  [ naive_solver | naive_solver | naive_solver | naive_solver | naive_solver
  | simpl; lia
  | intros [|[|[|?]]] ? ?; simpl; naive_solver
  | send_success
  | send_made
  | send_made ].

End SendRouteLaws.

Section SendRouteFurther.
Import ReplyRoute SendRoute SendRouteLaws.

(** X16. The address wins and there is no fall-back: when the body has a
    non-empty [address], the handler calls [createDmWithAddress] with it
    and never calls [newDm], whatever [inboxId] says; if
    [createDmWithAddress] rejects the answer is 500 and nothing is sent,
    although the inbox identifier might have worked. *)
Theorem X16_send_message_address_wins agent body address :
  given (sb_address body) = Some address →
  is_Some (given (sb_message body)) →
  let r := post_send_message (Some agent) (Some body) in
  head r.1 = Some (CallCreateDmWithAddress address) ∧
  (∀ inboxId, CallNewDm inboxId ∉ r.1) ∧
  (∀ err, createDmWithAddress agent address = DmRejects err →
     r = ([CallCreateDmWithAddress address],
          refuse 500 ("Failed to create DM with address: " +:+ err))).
Proof.
  intros Ha [message Hm] r. unfold r, post_send_message. rewrite Hm, Ha.
  destruct (createDmWithAddress agent address) as [dm|err] eqn:Hc.
  - destruct (deliver_cases [CallCreateDmWithAddress address] dm message)
      as [(H1 & _)|(c & _ & H1 & _)]; rewrite H1.
    + split_and!; [done| |done]. intros inboxId Hin.
      apply list_elem_of_singleton in Hin. discriminate.
    + split_and!; [done| |done]. intros inboxId Hin.
      apply elem_of_cons in Hin as [Hin|Hin]; [discriminate|].
      apply list_elem_of_singleton in Hin. discriminate.
  - split_and!; [done| |by intros err' [= <-]]. intros inboxId Hin.
    apply list_elem_of_singleton in Hin. discriminate.
Qed.

Lemma X16_send_message_address_wins_witness :
  post_send_message (Some agent_inbox_only)
    (Some {| sb_address := Some "0xabc"; sb_inboxId := Some "inbox1";
             sb_message := Some "hi" |})
  = ([CallCreateDmWithAddress "0xabc"],
     refuse 500 "Failed to create DM with address: no inbox for address") ∧
  s_success (post_send_message (Some agent_inbox_only)
    (Some {| sb_address := None; sb_inboxId := Some "inbox1";
             sb_message := Some "hi" |})).2 = true.
Proof.
  split; [|reflexivity].
  refine (proj2 (proj2 (X16_send_message_address_wins agent_inbox_only
    {| sb_address := Some "0xabc"; sb_inboxId := Some "inbox1";
       sb_message := Some "hi" |} "0xabc" _ _)) "no inbox for address" _).
  - reflexivity.
  - by eexists.
  - reflexivity.
Defined.

(** X17. What [POST /send-message] can do, whatever the agent and the
    body: it answers 200, 400, 500 or 503, with success:true exactly for
    200; without an agent it answers 503, and for a body without message
    or without address and inboxId it answers 400, in both cases without
    calling anything; it creates at most one conversation and sends at
    most one text, the message of the body, as its last call. Once the
    conversation is created, through the address or, when there is no
    address, through the inbox identifier, the handler sends the message
    on it; it answers 200 with the identifier of that conversation when
    the send completes and 500 when the send throws. It answers
    success:true exactly when the conversation was created so and the
    send on it completed. *)
Theorem X17_send_message_contract agent body :
  let r := post_send_message agent body in
  let sent_on dm text :=
    match conv_send dm text with
    | SendOk =>
        {| s_status := 200; s_success := true; s_error := None;
           s_conversationId := Some (conv_id dm);
           s_message := Some "Message sent successfully" |}
    | SendThrows err => refuse 500 ("Failed to send message: " +:+ err)
    end in
  (s_status r.2 = 200 ∨ s_status r.2 = 400 ∨ s_status r.2 = 500 ∨
   s_status r.2 = 503) ∧
  (s_success r.2 = true ↔ s_status r.2 = 200) ∧
  (agent = None → r = ([], refuse 503 "Agent not available")) ∧
  (s_status r.2 = 400 ∨ s_status r.2 = 503 → r.1 = []) ∧
  (∀ b, is_Some agent → body = Some b →
     (s_status r.2 = 400 ↔
      given (sb_message b) = None ∨
      (given (sb_address b) = None ∧ given (sb_inboxId b) = None))) ∧
  (length r.1 ≤ 2)%nat ∧
  (∀ i c text, r.1 !! i = Some (CallSend c text) →
     i = 1%nat ∧ length r.1 = 2%nat ∧
     ∃ b, body = Some b ∧ given (sb_message b) = Some text) ∧
  (s_success r.2 = true ↔
     ∃ a b dm text,
       agent = Some a ∧ body = Some b ∧ given (sb_message b) = Some text ∧
       conv_send dm text = SendOk ∧
       ((∃ address, given (sb_address b) = Some address ∧
           createDmWithAddress a address = DmResolves (Some dm)) ∨
        (∃ inboxId, given (sb_address b) = None ∧
           given (sb_inboxId b) = Some inboxId ∧
           newDm a inboxId = DmResolves (Some dm)))) ∧
  (∀ a b text address dm,
     agent = Some a → body = Some b → given (sb_message b) = Some text →
     given (sb_address b) = Some address →
     createDmWithAddress a address = DmResolves (Some dm) →
     r = ([CallCreateDmWithAddress address; CallSend (conv_id dm) text],
          sent_on dm text)) ∧
  (∀ a b text inboxId dm,
     agent = Some a → body = Some b → given (sb_message b) = Some text →
     given (sb_address b) = None → given (sb_inboxId b) = Some inboxId →
     newDm a inboxId = DmResolves (Some dm) →
     r = ([CallNewDm inboxId; CallSend (conv_id dm) text], sent_on dm text)).
Proof.
  cbv zeta. unfold post_send_message, deliver.
  destruct agent as [a|]; [|by send_case].
  destruct body as [b|]; [|by send_case].
  destruct (given (sb_message b)) as [text|] eqn:Hm; [|by send_case].
  destruct (given (sb_address b)) as [address|] eqn:Ha.
  - destruct (createDmWithAddress a address) as [[dm|]|err] eqn:Hc;
      [destruct (conv_send dm text) eqn:Hs|..]; by send_case.
  - destruct (given (sb_inboxId b)) as [inboxId|] eqn:Hi; [|by send_case].
    destruct (newDm a inboxId) as [[dm|]|err] eqn:Hc;
      [destruct (conv_send dm text) eqn:Hs|..]; by send_case.
Qed.
End SendRouteFurther.

(** ** The text that [processMessage] returns *)

Module BackendLaws.
Import Backend BackendFacts.

Lemma strip_bold_other a s :
  a ≠ "*"%char → strip_bold (String a s) = String a (strip_bold s).
Proof.
  intros Ha. destruct a as [[] [] [] [] [] [] [] []]; first [done|reflexivity].
Qed.

Lemma strip_bold_star_other b s :
  b ≠ "*"%char →
  strip_bold (String "*" (String b s)) = String "*" (strip_bold (String b s)).
Proof.
  intros Hb. destruct b as [[] [] [] [] [] [] [] []]; first [done|reflexivity].
Qed.

Lemma has_bold_other a s : a ≠ "*"%char → has_bold (String a s) = has_bold s.
Proof.
  intros Ha. destruct a as [[] [] [] [] [] [] [] []]; first [done|reflexivity].
Qed.

Lemma has_bold_star_other b s :
  b ≠ "*"%char → has_bold (String "*" (String b s)) = has_bold (String b s).
Proof.
  intros Hb. destruct b as [[] [] [] [] [] [] [] []]; first [done|reflexivity].
Qed.

(** Induction on strings two characters at a time. *)
Lemma string_ind2 (P : string → Prop) :
  P "" → (∀ a, P (String a "")) →
  (∀ a b s, P s → P (String b s) → P (String a (String b s))) →
  ∀ s, P s.
Proof.
  intros H0 H1 H2 s.
  cut (P s ∧ ∀ a, P (String a s)); [tauto|].
  induction s as [|b s [IH1 IH2]]; [by split|].
  split; [apply IH2|]. intros a. by apply H2.
Qed.

Lemma strip_bold_one a : strip_bold (String a "") = String a "".
Proof.
  destruct (decide (a = "*"%char)) as [->|Ha]; [done|]. by rewrite strip_bold_other.
Qed.

Lemma has_bold_one a : has_bold (String a "") = false.
Proof.
  destruct (decide (a = "*"%char)) as [->|Ha]; [done|]. by rewrite has_bold_other.
Qed.

Lemma has_bold_strip s : has_bold (strip_bold s) = false.
Proof.
  induction s as [|a|a b s IH1 IH2] using string_ind2; [done| |].
  - by rewrite strip_bold_one, has_bold_one.
  - destruct (decide (a = "*"%char)) as [->|Ha].
    + destruct (decide (b = "*"%char)) as [->|Hb]; [done|].
      rewrite strip_bold_star_other, strip_bold_other by done.
      rewrite has_bold_star_other, has_bold_other by done. exact IH1.
    + rewrite strip_bold_other, has_bold_other by done. exact IH2.
Qed.

Lemma strip_bold_id s : has_bold s = false → strip_bold s = s.
Proof.
  induction s as [|a|a b s IH1 IH2] using string_ind2; [done| |].
  - intros _. apply strip_bold_one.
  - destruct (decide (a = "*"%char)) as [->|Ha].
    + destruct (decide (b = "*"%char)) as [->|Hb]; [done|].
      rewrite has_bold_star_other, strip_bold_star_other by done.
      intros H. by rewrite IH2.
    + rewrite has_bold_other, strip_bold_other by done.
      intros H. by rewrite IH2.
Qed.

Lemma strip_bold_length s :
  (String.length (strip_bold s) ≤ String.length s)%nat.
Proof.
  induction s as [|a|a b s IH1 IH2] using string_ind2; [done| |].
  - by rewrite strip_bold_one.
  - destruct (decide (a = "*"%char)) as [->|Ha].
    + destruct (decide (b = "*"%char)) as [->|Hb].
      * change (strip_bold (String "*" (String "*" s))) with (strip_bold s).
        simpl. lia.
      * rewrite strip_bold_star_other by done.
        change (String.length (String "*" ?x)) with (S (String.length x)).
        simpl in *. lia.
    + rewrite strip_bold_other by done. simpl in *. lia.
Qed.

Lemma stars_double n : stars (2 * S n) = String "*" (String "*" (stars (2 * n))).
Proof. replace (2 * S n)%nat with (S (S (2 * n))) by lia. done. Qed.

Lemma strip_bold_nil s : strip_bold s = "" ↔ ∃ n, s = stars (2 * n).
Proof.
  induction s as [|a|a b s IH1 IH2] using string_ind2.
  - split; [by exists 0%nat|done].
  - rewrite strip_bold_one. split; [done|].
    intros [[|n] Hn]; [done|]. by rewrite stars_double in Hn.
  - destruct (decide (a = "*"%char)) as [->|Ha].
    + destruct (decide (b = "*"%char)) as [->|Hb].
      * change (strip_bold (String "*" (String "*" s))) with (strip_bold s).
        rewrite IH1. split.
        -- intros [n ->]. exists (S n). by rewrite stars_double.
        -- intros [[|n] Hn]; [done|]. rewrite stars_double in Hn.
           injection Hn as ->. by exists n.
      * rewrite strip_bold_star_other by done. split; [done|].
        intros [[|n] Hn]; [done|]. rewrite stars_double in Hn. congruence.
    + rewrite strip_bold_other by done. split; [done|].
      intros [[|n] Hn]; [done|]. rewrite stars_double in Hn. congruence.
Qed.

End BackendLaws.

Section BackendFurther.
Import Backend BackendFacts BackendLaws.

(** X18. Removing the bold markers: the result has no two asterisks in a
    row, so removing them again changes nothing; a text is left as it is
    exactly when it has no two asterisks in a row; the result is never
    longer than the text; and it is empty exactly when the text is an
    even number of asterisks and nothing else. *)
Theorem X18_strip_bold_laws s :
  has_bold (strip_bold s) = false ∧
  strip_bold (strip_bold s) = strip_bold s ∧
  (strip_bold s = s ↔ has_bold s = false) ∧
  (String.length (strip_bold s) ≤ String.length s)%nat ∧
  (strip_bold s = "" ↔ ∃ n, s = stars (2 * n)).
Proof.
  split_and!.
  - apply has_bold_strip.
  - apply strip_bold_id, has_bold_strip.
  - split; [|apply strip_bold_id]. intros <-. apply has_bold_strip.
  - apply strip_bold_length.
  - apply strip_bold_nil.
Qed.

(** X19. The text that [processMessage] returns never has two asterisks
    in a row, whatever the backend does. It can be empty: that happens
    exactly when the backend answers success with a response that is a
    positive even number of asterisks and nothing else (an empty or
    missing response gives "Response received" instead). *)
Theorem X19_reply_text_has_no_bold E post message senderAddress
    conversationId agentId :
  let answer := post (endpoint E (or_else agentId (DEFAULT_AGENT_ID E)))
                     (request_of E message senderAddress conversationId) in
  ∃ text,
    processMessage E post message senderAddress conversationId agentId
      = Returns text ∧
    has_bold text = false ∧
    (text = "" ↔
     ∃ d n, answer = Resolves (Some d) ∧ success d = true ∧
            data_response d = Some (stars (2 * S n))).
Proof.
  intros answer. unfold processMessage, processMessage_try. fold answer.
  assert (Hap : has_bold APOLOGY = false) by reflexivity.
  destruct answer as [e|[d|]] eqn:Ha; simpl.
  - exists APOLOGY. split_and!; [done..|]. split; [done|].
    by intros (d & n & [=] & _).
  - destruct (success d) eqn:Hs; simpl.
    + eexists. split_and!; [done|apply has_bold_strip|].
      rewrite strip_bold_nil. split.
      * intros [n Hn]. exists d.
        destruct (data_response d) as [[|a r]|] eqn:Hr; cbn [or_else truthy] in Hn.
        -- destruct n as [|n]; [done|]. by rewrite stars_double in Hn.
        -- destruct n as [|n]; [done|]. exists n. by rewrite Hn.
        -- destruct n as [|n]; [done|]. by rewrite stars_double in Hn.
      * intros (d' & n & [= <-] & _ & Hr). exists (S n). rewrite Hr.
        reflexivity.
    + exists APOLOGY. split_and!; [done..|]. split; [done|].
      intros (d' & n & [= <-] & Hs' & _). congruence.
  - exists APOLOGY. split_and!; [done..|]. split; [done|].
    by intros (d & n & [=] & _).
Qed.
End BackendFurther.

(** ** Greeting a group *)

Module GreetedLaws.
Import Greeted.

Lemma sound_hasGreeted up c st : sound st → sound (hasGreeted up c st).1.
Proof.
  intros Hs. unfold hasGreeted.
  case_decide; [done|]. destruct up; [|done].
  case_bool_decide as Hd; [|done].
  intros c' [Hc| ->%elem_of_singleton]%elem_of_union; simpl; [by apply Hs|done].
Qed.

Lemma sound_markAsGreeted up now c st : sound st → sound (markAsGreeted up now c st).
Proof.
  intros Hs. unfold markAsGreeted. destruct up; [|done].
  intros c' [Hc| ->%elem_of_singleton]%elem_of_union; simpl.
  - destruct (decide (c' = c)) as [->|Hne].
    + by rewrite lookup_insert_eq.
    + rewrite lookup_insert_ne by done. by apply Hs.
  - by rewrite lookup_insert_eq.
Qed.

Lemma sound_cleanup uq uc cutoff st : sound st → sound (cleanup uq uc cutoff st).1.
Proof.
  intros Hs. unfold cleanup. destruct uq; [|done].
  destruct uc.
  - intros c [Hc Hn]%elem_of_difference. simpl.
    destruct (Hs c Hc) as [d Hd]. exists d.
    apply map_lookup_filter_Some. split; [done|]. simpl. intros Hlt.
    apply Hn, elem_of_dom. exists d.
    by apply map_lookup_filter_Some.
  - intros c [Hc _]%elem_of_difference. by apply Hs.
Qed.

Lemma sound_op st o : sound st → sound (op st o).
Proof.
  destruct o; simpl;
    auto using sound_hasGreeted, sound_markAsGreeted, sound_cleanup.
Qed.

Lemma sound_ops os : ∀ st, sound st → sound (foldl op st os).
Proof.
  induction os as [|o os IH]; intros st Hs; [done|].
  simpl. by apply IH, sound_op.
Qed.

(** Without a clean-up the cache and the documents only grow. *)
Lemma op_grows st o c :
  is_cleanup o = false →
  (c ∈ cache st → c ∈ cache (op st o)) ∧
  (is_Some (docs st !! c) → is_Some (docs (op st o) !! c)).
Proof.
  destruct o as [up c'|up now c'|]; [| |done]; intros _; simpl.
  - unfold hasGreeted. case_decide; [done|]. destruct up; [|done].
    case_bool_decide; [|done]. simpl. split; [|done].
    intros Hc. apply elem_of_union. by left.
  - unfold markAsGreeted. destruct up; [|done]. simpl. split.
    + intros Hc. apply elem_of_union. by left.
    + intros Hd. destruct (decide (c = c')) as [->|Hne].
      * by rewrite lookup_insert_eq.
      * by rewrite lookup_insert_ne.
Qed.

Lemma ops_grow os : ∀ st c,
  forallb (λ o, negb (is_cleanup o)) os = true →
  (c ∈ cache st → c ∈ cache (foldl op st os)) ∧
  (is_Some (docs st !! c) → is_Some (docs (foldl op st os) !! c)).
Proof.
  induction os as [|o os IH]; intros st c Hos; [done|].
  simpl in Hos. apply andb_prop in Hos as [Ho Hos].
  apply negb_true_iff in Ho.
  destruct (op_grows st o c Ho) as [H1 H2].
  destruct (IH (op st o) c Hos) as [H3 H4]. simpl. split; auto.
Qed.

Lemma hasGreeted_cached up c st :
  c ∈ cache st → hasGreeted up c st = (st, true).
Proof. intros Hc. unfold hasGreeted. by rewrite decide_True. Qed.

Lemma hasGreeted_true up c st :
  sound st → (hasGreeted up c st).2 = true → is_Some (docs st !! c).
Proof.
  intros Hs. unfold hasGreeted. case_decide as Hc; [intros _; by apply Hs|].
  destruct up; [|done]. case_bool_decide; done.
Qed.

End GreetedLaws.

Module WelcomeLaws.
Import DBHealth Backend BackendFacts Greeting Welcome GreetedLaws.

Lemma apply_marks_app up now a1 a2 st :
  apply_marks up now (a1 ++ a2) st = apply_marks up now a2 (apply_marks up now a1 st).
Proof. unfold apply_marks. by rewrite foldl_app. Qed.

Lemma apply_marks_unmarked up now acts st :
  marked acts = [] → apply_marks up now acts st = st.
Proof.
  revert st. induction acts as [|a acts IH]; intros st; [done|].
  destruct a; simpl; try done; apply IH.
Qed.

Lemma texts_sent_sends sends c :
  texts_sent ((SendText <$> sends) ++ [MarkAsGreeted c]) = sends.
Proof.
  induction sends as [|s sends IH]; [done|].
  unfold texts_sent in *. csimpl. by rewrite IH.
Qed.

Lemma marked_sends sends c :
  marked ((SendText <$> sends) ++ [MarkAsGreeted c]) = [c].
Proof.
  induction sends as [|s sends IH]; [done|].
  unfold marked in *. csimpl. by rewrite IH.
Qed.

(** What the greeting block of the text handler can do. *)
Lemma greeting_block_cases E post ctx hashes :
  isGroup ctx = true → hasGreeted ctx = false →
  let r := greeting_block E post ctx hashes in
  (r.1.2 = Exited ∧ r.1.1 = [ResetDatabase; Exit 1] ∧
   ∃ messages, history ctx = Returns messages ∧
     checkMessageArray (conversation_id ctx) messages hashes = (r.2, true)) ∨
  (r.1.2 = Returned ∧
   ∃ sends, r.1.1 = (SendText <$> sends) ++ [MarkAsGreeted (conversation_id ctx)] ∧
     (sends = [] ∨
      ∃ greeting,
        processMessage E post greetingPrompt
          (or_else (agent_address ctx) "unknown") (conversation_id ctx) None
          = Returns greeting ∧
        ((sends = [greeting] ∧ sendText ctx greeting = Returns tt) ∨
         (sends = [greeting; FALLBACK_GREETING] ∧
          ∃ e, sendText ctx greeting = Throws e)))).
Proof.
  intros Hg Hn. cbv zeta. unfold greeting_block. rewrite Hg, Hn. simpl.
  destruct (history ctx) as [messages|e] eqn:Hh.
  - destruct (checkMessageArray (conversation_id ctx) messages hashes)
      as [hashes' needsReset] eqn:Hc.
    destruct needsReset; simpl.
    + left. split_and!; [done..|]. by exists messages.
    + right. destruct (existsb _ messages); simpl.
      * split; [done|]. exists []. split; [done|]. by left.
      * destruct (processMessage_returns E post greetingPrompt
          (or_else (agent_address ctx) "unknown") (conversation_id ctx) None)
          as [greeting Hgreet].
        unfold greet. rewrite Hgreet. unfold send.
        destruct (sendText ctx greeting) as [[]|e] eqn:Hs; simpl.
        -- split; [done|]. exists [greeting]. split; [done|].
           right. exists greeting. split; [done|]. by left.
        -- destruct (sendText ctx FALLBACK_GREETING); simpl;
             (split; [done|]; exists [greeting; FALLBACK_GREETING];
              split; [done|]; right; exists greeting; split; [done|];
              right; split; [done|]; by exists e).
  - right. simpl. split; [done|]. exists []. split; [done|]. by left.
Qed.

(** What [welcome] can do. *)
Lemma welcome_cases E post send address c :
  ∃ greeting,
    processMessage E post greetingPrompt address c None = Returns greeting ∧
    welcome E post send address c =
      match send greeting with
      | Returns _ => [SendText greeting; MarkAsGreeted c]
      | Throws _ =>
          match send FALLBACK_GREETING with
          | Returns _ => [SendText greeting; SendText FALLBACK_GREETING;
                          MarkAsGreeted c]
          | Throws _ => [SendText greeting; SendText FALLBACK_GREETING]
          end
      end.
Proof.
  destruct (processMessage_returns E post greetingPrompt address c None)
    as [greeting Hgreet].
  exists greeting. split; [done|]. unfold welcome. rewrite Hgreet.
  destruct (send greeting); [done|]. by destruct (send FALLBACK_GREETING).
Qed.

End WelcomeLaws.

Section GreetingFurther.
Import DBHealth Backend BackendFacts Greeting Welcome GreetedLaws WelcomeLaws.

(** X20. The greeting block of the text handler. For a direct message or
    a group already greeted it does nothing and the handler goes on. For
    a group not yet greeted the handler never goes on with the message
    that triggered it: either the staleness check asks for a reset and
    the process exits without marking the group, or the group is marked
    as greeted as the last action and the handler returns. Before that
    it sends nothing (history unreadable, or the agent already wrote
    there), or the text that [processMessage] returned, followed by the
    fallback greeting exactly when that first send threw. *)
Theorem X20_text_greeting_block E post ctx hashes :
  let r := greeting_block E post ctx hashes in
  (isGroup ctx = false ∨ hasGreeted ctx = true →
     r = ([], GoesOn, hashes)) ∧
  (isGroup ctx = true → hasGreeted ctx = false →
     r.1.2 ≠ GoesOn ∧
     (r.1.2 = Exited → r.1.1 = [ResetDatabase; Exit 1]) ∧
     (r.1.2 = Returned →
        marked r.1.1 = [conversation_id ctx] ∧
        last r.1.1 = Some (MarkAsGreeted (conversation_id ctx)) ∧
        (texts_sent r.1.1 = [] ∨
         ∃ greeting,
           processMessage E post greetingPrompt
             (or_else (agent_address ctx) "unknown") (conversation_id ctx) None
             = Returns greeting ∧
           ((texts_sent r.1.1 = [greeting] ∧ sendText ctx greeting = Returns tt) ∨
            (texts_sent r.1.1 = [greeting; FALLBACK_GREETING] ∧
             ∃ e, sendText ctx greeting = Throws e))))).
Proof.
  intros r. split.
  - unfold r, greeting_block. intros [->| ->]; [done|].
    by rewrite andb_false_r.
  - intros Hg Hn.
    destruct (greeting_block_cases E post ctx hashes Hg Hn)
      as [(Ho & Ha & _)|(Ho & sends & Ha & Hsends)]; fold r in Ho, Ha.
    + rewrite Ho, Ha. split_and!; done.
    + rewrite Ho, Ha. split_and!; [done..|]. intros _.
      rewrite texts_sent_sends, marked_sends, last_snoc.
      split_and!; [done..|].
      destruct Hsends as [->|(greeting & Hgreet & Hs)]; [by left|].
      right. by exists greeting.
Qed.

(** X21. The handlers of [conversation] and [group-update] greet a
    group that is not yet greeted: for a new group, and for an update
    that added the agent and whose sender is known, they add the mapping
    of the conversation under its own identifier and then greet, with
    the text that [processMessage] returned and, only if that send
    throws, with the fallback greeting; [markAsGreeted] is called exactly
    when one of these sends completed, as the last action, so the
    mapping is there also when both sends throw. A direct message, a
    group already greeted, an update that did not add the agent and an
    update whose sender cannot be read cause no action and no mapping. *)
Theorem X21_welcome_marks_after_a_send up_get up_set now E post ev st mappings :
  let c := ev_conversation ev in
  let r := on_conversation up_get up_set now E post ev st mappings in
  let u := on_group_update up_get up_set now E post ev st mappings in
  let st1 := (Greeted.hasGreeted up_get c st).1 in
  let greeted := (Greeted.hasGreeted up_get c st).2 in
  let added :=
    ∃ inboxes,
      ev_update ev = Some (Some inboxes) ∧ ev_agent_inboxId ev ∈ inboxes in
  (∀ send address,
     ∃ greeting,
       processMessage E post greetingPrompt address c None = Returns greeting ∧
       welcome E post send address c =
         match send greeting with
         | Returns _ => [SendText greeting; MarkAsGreeted c]
         | Throws _ =>
             match send FALLBACK_GREETING with
             | Returns _ => [SendText greeting; SendText FALLBACK_GREETING;
                             MarkAsGreeted c]
             | Throws _ => [SendText greeting; SendText FALLBACK_GREETING]
             end
         end) ∧
  (∀ send address,
     let acts := welcome E post send address c in
     (marked acts = [c] ∧ last acts = Some (MarkAsGreeted c) ↔
      ∃ t, t ∈ texts_sent acts ∧ send t = Returns tt) ∧
     (marked acts = [] ↔ ∀ t, t ∈ texts_sent acts → ∃ e, send t = Throws e) ∧
     apply_marks up_set now acts st1 =
       match marked acts with
       | [] => st1
       | _ => Greeted.markAsGreeted up_set now c st1
       end) ∧
  (ev_isDm ev = false → ev_isGroup ev = true → greeted = false →
     let address := or_else (ev_agent_address ev) "unknown" in
     let acts := welcome E post (ev_send ev) address c in
     r = (apply_marks up_set now acts st1, acts,
          Reply.addMapping now c c address None mappings)) ∧
  (ev_isDm ev = true ∨ ev_isGroup ev = false → r = (st, [], mappings)) ∧
  (ev_isDm ev = false → ev_isGroup ev = true → greeted = true →
     r = (st1, [], mappings)) ∧
  (∀ senderAddress,
     added → greeted = false →
     ev_getSenderAddress ev = Returns senderAddress →
     let acts := welcome E post (ev_send ev) senderAddress c in
     u = (apply_marks up_set now acts st1, acts,
          Reply.addMapping now c c senderAddress None mappings)) ∧
  (¬ added → u = (st, [], mappings)) ∧
  (added →
   greeted = true ∨ (∃ e, ev_getSenderAddress ev = Throws e) →
     u = (st1, [], mappings)).
Proof.
  intros c r u st1 greeted added.
  assert (Hadded : added ↔
    match ev_update ev with
    | Some (Some inboxes) =>
        existsb (λ inboxId, bool_decide (inboxId = ev_agent_inboxId ev)) inboxes
          = true
    | _ => False
    end).
  { unfold added. destruct (ev_update ev) as [[inboxes|]|].
    - rewrite existsb_exists. split.
      + intros (? & [= <-] & Hin). exists (ev_agent_inboxId ev).
        split; [by apply list_elem_of_In|]. by apply bool_decide_eq_true.
      + intros (i & Hi & ->%bool_decide_eq_true). exists inboxes.
        split; [done|]. by apply list_elem_of_In.
    - split; [by intros (? & ? & _)|done].
    - split; [by intros (? & ? & _)|done]. }
  split_and!.
  - intros send address. apply welcome_cases.
  - intros send address acts.
    destruct (welcome_cases E post send address c) as (greeting & _ & Hw).
    unfold acts. rewrite Hw.
    destruct (send greeting) as [[]|e1] eqn:H1;
      [|destruct (send FALLBACK_GREETING) as [[]|e2] eqn:H2].
    + split_and!.
      * split; [|done]. intros _. exists greeting.
        split; [apply list_elem_of_here|done].
      * split; [done|]. intros H.
        destruct (H greeting) as [e He]; [apply list_elem_of_here|congruence].
      * done.
    + split_and!.
      * split; [|done]. intros _. exists FALLBACK_GREETING.
        split; [apply list_elem_of_further, list_elem_of_here|done].
      * split; [done|]. intros H.
        destruct (H FALLBACK_GREETING) as [e He];
          [apply list_elem_of_further, list_elem_of_here|congruence].
      * done.
    + split_and!.
      * split; [by intros [? _]|]. intros (t & Ht & Hs). exfalso.
        apply elem_of_cons in Ht as [->|Ht]; [congruence|].
        apply list_elem_of_singleton in Ht as ->. congruence.
      * split; [|done]. intros _ t Ht.
        apply elem_of_cons in Ht as [->|Ht]; [by eexists|].
        apply list_elem_of_singleton in Ht as ->. by eexists.
      * done.
  - unfold r, on_conversation, st1, greeted. fold c. intros -> -> Hg.
    destruct (Greeted.hasGreeted up_get c st) as [s g]. simpl in *. by subst g.
  - unfold r, on_conversation. intros [->| ->]; [done|].
    by destruct (ev_isDm ev).
  - unfold r, on_conversation, st1, greeted. fold c. intros -> -> Hg.
    destruct (Greeted.hasGreeted up_get c st) as [s g]. simpl in *. by subst g.
  - intros senderAddress Ha Hg Hs. apply Hadded in Ha.
    unfold u, on_group_update, st1, greeted in *. fold c.
    destruct (ev_update ev) as [[inboxes|]|]; [|done..].
    rewrite Ha, Hs.
    destruct (Greeted.hasGreeted up_get c st) as [s g]. simpl in *. by subst g.
  - intros Ha. unfold u, on_group_update.
    destruct (ev_update ev) as [[inboxes|]|]; [|done..].
    destruct (existsb _ inboxes) eqn:Hex; [|done].
    exfalso. by apply Ha, Hadded.
  - intros Ha Hor. apply Hadded in Ha.
    unfold u, on_group_update, st1, greeted in *. fold c.
    destruct (ev_update ev) as [[inboxes|]|]; [|done..].
    rewrite Ha.
    destruct (Greeted.hasGreeted up_get c st) as [s g]. simpl in *.
    destruct g; [done|]. destruct Hor as [?|[e ->]]; done.
Qed.

(** X22. The cache of the greeted-groups service is sound: starting from
    a state in which every cached identifier has its document (as the
    empty cache of a fresh service), any calls of [hasGreeted],
    [markAsGreeted] and [cleanup], whether Firestore answers or not,
    keep it so; hence [hasGreeted] answers true only for a conversation
    whose document exists. After a [markAsGreeted] that went through,
    [hasGreeted] answers true for that conversation without reading
    Firestore, also after any further calls other than [cleanup]. *)
Theorem X22_greeted_cache_sound os st :
  Greeted.sound st →
  Greeted.sound (foldl Greeted.op st os) ∧
  (∀ up c, (Greeted.hasGreeted up c (foldl Greeted.op st os)).2 = true →
     is_Some (Greeted.docs (foldl Greeted.op st os) !! c)) ∧
  (∀ now c up,
     forallb (λ o, negb (Greeted.is_cleanup o)) os = true →
     let st' := foldl Greeted.op (Greeted.markAsGreeted true now c st) os in
     Greeted.hasGreeted up c st' = (st', true)).
Proof.
  intros Hs. split_and!.
  - by apply sound_ops.
  - intros up c. apply hasGreeted_true. by apply sound_ops.
  - intros now c up Hos st'. apply hasGreeted_cached.
    apply ops_grow; [done|]. simpl. apply elem_of_union. right.
    by apply elem_of_singleton.
Qed.

Lemma X22_greeted_cache_sound_witness :
  Greeted.sound
    (foldl Greeted.op {| Greeted.cache := ∅; Greeted.docs := ∅ |}
       [Greeted.OpMarkAsGreeted true 5 "g"; Greeted.OpCleanup true false 9;
        Greeted.OpHasGreeted true "g"]).
Proof.
  refine (proj1 (X22_greeted_cache_sound
    [Greeted.OpMarkAsGreeted true 5 "g"; Greeted.OpCleanup true false 9;
     Greeted.OpHasGreeted true "g"]
    {| Greeted.cache := ∅; Greeted.docs := ∅ |} _)).
  intros c Hc. by apply elem_of_empty in Hc.
Defined.

(** X23. Greeting and Firestore. While Firestore cannot be reached, a
    text message of a group that is not in the cache never gets past the
    greeting block, and the state of the service stays as it was, so the
    same holds for every later text message of that group. When the
    write goes through, the group is greeted once: after a run of the
    block that returned, the block does nothing for the next text
    message of the group and the handler goes on with it. *)
Theorem X23_greeting_needs_firestore now E post ctx st hashes :
  isGroup ctx = true →
  conversation_id ctx ∉ Greeted.cache st →
  (∀ up_set,
     let r := text_greeting false up_set now E post ctx st hashes in
     r.1.2 ≠ GoesOn ∧ (up_set = false → r.1.1.1 = st)) ∧
  (∀ up_get now' E' post' ctx' hashes' up_get' up_set',
     let r := text_greeting up_get true now E post ctx st hashes in
     r.1.2 = Returned →
     conversation_id ctx' = conversation_id ctx →
     text_greeting up_get' up_set' now' E' post' ctx' r.1.1.1 hashes'
       = (r.1.1.1, [], GoesOn, hashes')).
Proof.
  intros Hg Hc. split.
  - intros up_set r. unfold r, text_greeting. rewrite Hg.
    unfold Greeted.hasGreeted. rewrite decide_False by done.
    pose proof (greeting_block_cases E post (with_hasGreeted ctx false) hashes
                  Hg eq_refl) as Hcases. cbv zeta in Hcases.
    destruct (greeting_block E post (with_hasGreeted ctx false) hashes)
      as [[acts out] hashes1]. simpl in *.
    split.
    + destruct Hcases as [(-> & _)|(-> & _)]; done.
    + intros ->. clear. revert st.
      induction acts as [|a acts IH]; intros st; [done|].
      destruct a; simpl; apply IH.
  - intros up_get now' E' post' ctx' hashes' up_get' up_set' r Hret Hid.
    assert (Hin : conversation_id ctx ∈ Greeted.cache r.1.1.1).
    { unfold r, text_greeting in *. rewrite Hg in *.
      destruct (Greeted.hasGreeted up_get (conversation_id ctx) st)
        as [st1 greeted] eqn:Hhas.
      destruct greeted.
      - exfalso. unfold greeting_block in Hret. simpl in Hret.
        rewrite Hg in Hret. simpl in Hret. done.
      - pose proof (greeting_block_cases E post (with_hasGreeted ctx false) hashes
                      Hg eq_refl) as Hcases. cbv zeta in Hcases.
        destruct (greeting_block E post (with_hasGreeted ctx false) hashes)
          as [[acts out] hashes1]. simpl in *. subst out.
        destruct Hcases as [(? & _)|(_ & sends & -> & _)]; [done|].
        rewrite apply_marks_app. simpl. apply elem_of_union. right.
        by apply elem_of_singleton. }
    unfold text_greeting.
    destruct (isGroup ctx') eqn:Hg'.
    + rewrite Hid, hasGreeted_cached by done.
      unfold greeting_block. simpl. rewrite Hg'. simpl. done.
    + unfold greeting_block. simpl. rewrite Hg'. simpl. done.
Qed.

Lemma X23_greeting_needs_firestore_witness :
  (text_greeting false false 0 env0 unreachable_backend new_group
     {| Greeted.cache := ∅; Greeted.docs := ∅ |} ∅).1.2 ≠ GoesOn.
Proof.
  refine (proj1 (proj1 (X23_greeting_needs_firestore 0 env0 unreachable_backend
    new_group {| Greeted.cache := ∅; Greeted.docs := ∅ |} ∅ _ _) false)).
  - reflexivity.
  - apply not_elem_of_empty.
Defined.
End GreetingFurther.

(** ** The reply handler *)

Module ReplyHandlerLaws.
Import DBHealth DBHealthFacts Backend BackendFacts ReplyHandler StringFacts.

Lemma units_cases a : units a = 0%nat ∨ units a = 1%nat ∨ units a = 2%nat.
Proof. unfold units. repeat case_match; auto. Qed.

Lemma units_ascii a : (N_of_ascii a <? 0x80)%N = true → units a = 1%nat.
Proof. intros H. unfold units. by rewrite H. Qed.

Lemma units_continuation n :
  (0x80 ≤ n)%N → (n < 0xC0)%N → units (ascii_of_N n) = 0%nat.
Proof.
  intros H1 H2. unfold units. rewrite N_ascii_embedding by lia.
  destruct (N.ltb_spec n 0x80); [lia|].
  destruct (N.ltb_spec n 0xC0); [done|lia].
Qed.

Lemma length16_append s1 s2 :
  length16 (s1 +:+ s2) = (length16 s1 + length16 s2)%nat.
Proof.
  induction s1 as [|a s1 IH]; [done|].
  rewrite append_cons. simpl. rewrite IH. lia.
Qed.

Lemma length16_high_surrogate a s' : length16 (high_surrogate a s') = 1%nat.
Proof.
  unfold high_surrogate.
  set (w := ((_ - 1) mod 16)%N). set (zy := (_ mod 16 * 4 + _)%N).
  assert (w < 16)%N by (by apply N.mod_upper_bound).
  assert (zy < 64)%N.
  { unfold zy.
    pose proof (N.mod_upper_bound
      (default 0%N (N_of_ascii <$> String.get 0 s')) 16 ltac:(done)).
    pose proof (N.mod_upper_bound
      (default 0%N (N_of_ascii <$> String.get 1 s') / 16) 4 ltac:(done)).
    lia. }
  cbn [length16].
  rewrite (units_continuation (0xA0 + w)), (units_continuation (0x80 + zy))
    by lia.
  done.
Qed.

(** [substring] gives as many code units as asked for, if the string
    has them. *)
Lemma length16_substring16 s : ∀ n,
  length16 (substring16 n s) = (n `min` length16 s)%nat.
Proof.
  induction s as [|a s IH]; intros n; [simpl; lia|].
  cbn [substring16 length16].
  destruct (units_cases a) as [Hu|[Hu|Hu]]; rewrite Hu.
  - cbn [length16]. rewrite Hu, IH. lia.
  - destruct n as [|n]; [done|]. cbn [length16]. rewrite Hu, IH. lia.
  - destruct n as [|[|n]]; [done| |].
    + rewrite length16_high_surrogate. lia.
    + cbn [length16]. rewrite Hu, IH. lia.
Qed.

(** What [substring] gives are the first bytes of the string, followed
    by a high surrogate when the cut falls inside a character. *)
Lemma substring16_prefix s : ∀ n,
  ∃ p rest, s = p +:+ rest ∧
    (substring16 n s = p ∨
     ∃ a s', rest = String a s' ∧ units a = 2%nat ∧
             S (length16 p) = n ∧
             substring16 n s = p +:+ high_surrogate a s').
Proof.
  induction s as [|a s IH]; intros n; [exists "", ""; by split; [|left]|].
  cbn [substring16].
  destruct (units_cases a) as [Hu|[Hu|Hu]]; rewrite Hu.
  - destruct (IH n) as (p & rest & -> & [Hp|(b & s' & -> & Hb & Hn & Hp)]).
    + exists (String a p), rest. rewrite append_cons. split; [done|].
      left. by rewrite Hp.
    + exists (String a p), (String b s'). rewrite append_cons. split; [done|].
      right. exists b, s'. split_and!; [done..| |].
      * cbn [length16]. rewrite Hu. done.
      * by rewrite Hp, append_cons.
  - destruct n as [|n]; [exists "", (String a s); by split; [|left]|].
    destruct (IH n) as (p & rest & -> & [Hp|(b & s' & -> & Hb & Hn & Hp)]).
    + exists (String a p), rest. rewrite append_cons. split; [done|].
      left. by rewrite Hp.
    + exists (String a p), (String b s'). rewrite append_cons. split; [done|].
      right. exists b, s'. split_and!; [done..| |].
      * cbn [length16]. rewrite Hu. lia.
      * by rewrite Hp, append_cons.
  - destruct n as [|[|n]].
    + exists "", (String a s). by split; [|left].
    + exists "", (String a s). split; [done|]. right. by exists a, s.
    + destruct (IH n) as (p & rest & -> & [Hp|(b & s' & -> & Hb & Hn & Hp)]).
      * exists (String a p), rest. rewrite append_cons. split; [done|].
        left. by rewrite Hp.
      * exists (String a p), (String b s'). rewrite append_cons. split; [done|].
        right. exists b, s'. split_and!; [done..| |].
        -- cbn [length16]. rewrite Hu. lia.
        -- by rewrite Hp, append_cons.
Qed.

(** On a text of ASCII characters the code units are the bytes. *)
Lemma is_ascii_bytes s :
  is_ascii s = true →
  length16 s = String.length s ∧
  ∀ n, substring16 n s = String.substring 0 n s.
Proof.
  induction s as [|a s IH]; [intros _; split; [done|by intros []]|].
  cbn [is_ascii]. intros [Ha Hs]%andb_prop.
  destruct (IH Hs) as [Hl Hsub]. apply units_ascii in Ha. split.
  - cbn [length16 String.length]. rewrite Ha, Hl. done.
  - intros n. cbn [substring16]. rewrite Ha.
    destruct n as [|n]; [done|]. simpl. by rewrite Hsub.
Qed.

Example length16_of_an_emoji :
  length16 "a😀b" = 4%nat ∧ String.length "a😀b" = 6%nat ∧
  length16 "é" = 1%nat ∧ String.length "é" = 2%nat.
Proof. by split_and!. Qed.

Example substring16_of_an_emoji :
  substring16 1 "a😀b" = "a" ∧
  substring16 2 "a😀b" =
    String "a" (String (ascii_of_N 0xED) (String (ascii_of_N 0xA0)
      (String (ascii_of_N 0xBD) ""))) ∧
  substring16 3 "a😀b" = "a😀" ∧
  substring16 1 "éa" = "é".
Proof. by split_and!. Qed.

Lemma truncatedText_short t :
  (length16 t ≤ 200)%nat → truncatedText t = t.
Proof. intros H. unfold truncatedText. by rewrite decide_False by lia. Qed.

Lemma truncatedText_long t :
  (200 < length16 t)%nat → truncatedText t = substring16 200 t +:+ "...".
Proof. intros H. unfold truncatedText. by rewrite decide_True. Qed.

Lemma truncatedText_length t : (length16 (truncatedText t) ≤ 203)%nat.
Proof.
  destruct (decide (200 < length16 t)%nat) as [H|H].
  - rewrite truncatedText_long by done.
    rewrite length16_append, length16_substring16.
    change (length16 "...") with 3%nat. lia.
  - rewrite truncatedText_short by lia. lia.
Qed.

Lemma replyToText_Some original text :
  replyToText (Some original) = Some text ↔
  text ≠ "" ∧
  (hm_content original = CText text ∨ hm_content original = CObject (Some text)).
Proof.
  unfold replyToText.
  destruct (hm_content original) as [|[|a t]|[[|a t]|]]; simpl; naive_solver.
Qed.

Lemma add_context_cases ev hashes :
  let r := add_context ev hashes in
  (r.1 = None ∧
   ∃ messages, re_messages ev 100%nat = Returns messages ∧
     checkMessageArray (re_conversation ev) (hm_message <$> messages) hashes
       = (r.2, true)) ∨
  (r.1 = Some (re_content ev) ∧
   ∀ messages, re_messages ev 100%nat = Returns messages →
     replyToText (find_message (re_reference ev) messages) = None) ∨
  (∃ messages text,
     re_messages ev 100%nat = Returns messages ∧
     replyToText (find_message (re_reference ev) messages) = Some text ∧
     r.1 = Some (with_context text (re_content ev))).
Proof.
  cbv zeta. unfold add_context.
  destruct (re_messages ev 100%nat) as [messages|e] eqn:Hm.
  - destruct (checkMessageArray _ _ hashes) as [hashes' needsReset] eqn:Hc.
    destruct needsReset; simpl.
    + left. split; [done|]. by exists messages.
    + destruct (replyToText _) as [text|] eqn:Ht; simpl.
      * right. right. by exists messages, text.
      * right. left. split; [done|]. by intros ? [= <-].
  - right. left. by split.
Qed.

Lemma respond_cases E post ev messageContent senderAddress :
  ∃ response,
    processMessage E post messageContent senderAddress (re_conversation ev) None
      = Returns response ∧
    respond E post ev messageContent senderAddress =
      match re_sendText ev response with
      | Returns _ => [response]
      | Throws _ => [response; SORRY_REPLY]
      end.
Proof.
  destruct (processMessage_returns E post messageContent senderAddress
              (re_conversation ev) None) as [response Hr].
  exists response. split; [done|]. unfold respond. by rewrite Hr.
Qed.

Lemma verify_group_dm ev t :
  re_isGroup ev = false → verify_group ev t = (None, t).
Proof. intros H. unfold verify_group. by rewrite H. Qed.

Lemma verify_group_ok ev t messages m t' :
  re_isGroup ev = true →
  re_messages ev 300%nat = Returns messages →
  checkMessageArray (re_conversation ev) (hm_message <$> messages) t = (t', false) →
  find_message (re_reference ev) messages = Some m →
  m_senderInboxId (hm_message m) = re_agent_inboxId ev →
  verify_group ev t = (None, t').
Proof.
  intros Hg Hm Hc Hf Hs. unfold verify_group.
  rewrite Hg, Hm, Hc, Hf. by rewrite decide_True.
Qed.

Lemma verify_group_exit ev t messages t' :
  re_isGroup ev = true →
  re_messages ev 300%nat = Returns messages →
  checkMessageArray (re_conversation ev) (hm_message <$> messages) t = (t', true) →
  verify_group ev t = (Some Exited, t').
Proof.
  intros Hg Hm Hc. unfold verify_group. by rewrite Hg, Hm, Hc.
Qed.

Lemma add_context_ok ev t messages t' :
  re_messages ev 100%nat = Returns messages →
  checkMessageArray (re_conversation ev) (hm_message <$> messages) t = (t', false) →
  ∃ messageContent, add_context ev t = (Some messageContent, t').
Proof.
  intros Hm Hc. unfold add_context. rewrite Hm, Hc.
  destruct (replyToText _); by eexists.
Qed.

Lemma add_context_exit ev t messages t' :
  re_messages ev 100%nat = Returns messages →
  checkMessageArray (re_conversation ev) (hm_message <$> messages) t = (t', true) →
  add_context ev t = (None, t').
Proof. intros Hm Hc. unfold add_context. by rewrite Hm, Hc. Qed.

Lemma find_message_Some reference messages m :
  find_message reference messages = Some m →
  m ∈ messages ∧ m_id (hm_message m) = reference.
Proof.
  unfold find_message. intros [Hin Hid]%find_some. split.
  - by apply list_elem_of_In.
  - by apply bool_decide_eq_true in Hid.
Qed.

Lemma has_add_other id id' s :
  id ≠ id' → Ledger.has id s = false → Ledger.has id (Ledger.add id' s) = false.
Proof.
  intros Hne Hh. unfold Ledger.add, Ledger.has in *.
  apply bool_decide_eq_false in Hh.
  destruct (bool_decide (id' ∈ s)); apply bool_decide_eq_false; [done|].
  set_solver.
Qed.

(** A reply in a group whose two checks ask for no reset is passed on. *)
Lemma on_reply_group_passes now E post ev processed t mappings
    wide recent referenced senderAddress t1 t2 :
  Ledger.has (re_id ev) processed = false →
  re_getSenderAddress ev = Returns senderAddress →
  re_isGroup ev = true →
  re_messages ev 300%nat = Returns wide →
  re_messages ev 100%nat = Returns recent →
  find_message (re_reference ev) wide = Some referenced →
  m_senderInboxId (hm_message referenced) = re_agent_inboxId ev →
  checkMessageArray (re_conversation ev) (hm_message <$> wide) t = (t1, false) →
  checkMessageArray (re_conversation ev) (hm_message <$> recent) t1 = (t2, false) →
  let r := on_reply now E post ev processed t mappings in
  (∃ messageContent, r_outcome r = Processed messageContent) ∧
  r_processed r = Ledger.add (re_id ev) processed ∧ r_hashes r = t2.
Proof.
  intros Hh Hs Hg Hw Hr Hf Ha C1 C2.
  destruct (add_context_ok ev t1 recent t2 Hr C2) as [mc Hctx].
  cbv zeta. unfold on_reply. rewrite Hh, Hs.
  rewrite (verify_group_ok ev t wide referenced t1) by done.
  rewrite Hctx. simpl. split_and!; [by eexists|done..].
Qed.

(** A reply in a group whose first check asks for a reset. *)
Lemma on_reply_group_exits now E post ev processed t mappings
    wide senderAddress t1 :
  Ledger.has (re_id ev) processed = false →
  re_getSenderAddress ev = Returns senderAddress →
  re_isGroup ev = true →
  re_messages ev 300%nat = Returns wide →
  checkMessageArray (re_conversation ev) (hm_message <$> wide) t = (t1, true) →
  let r := on_reply now E post ev processed t mappings in
  r_outcome r = Exited ∧ r_hashes r = t1.
Proof.
  intros Hh Hs Hg Hw C1. cbv zeta. unfold on_reply. rewrite Hh, Hs.
  by rewrite (verify_group_exit ev t wide t1).
Qed.

(** A reply outside a group whose check asks for no reset is passed on. *)
Lemma on_reply_dm_passes now E post ev processed t mappings
    recent senderAddress t1 :
  Ledger.has (re_id ev) processed = false →
  re_getSenderAddress ev = Returns senderAddress →
  re_isGroup ev = false →
  re_messages ev 100%nat = Returns recent →
  checkMessageArray (re_conversation ev) (hm_message <$> recent) t = (t1, false) →
  let r := on_reply now E post ev processed t mappings in
  (∃ messageContent, r_outcome r = Processed messageContent) ∧
  r_processed r = Ledger.add (re_id ev) processed ∧ r_hashes r = t1.
Proof.
  intros Hh Hs Hg Hr C1.
  destruct (add_context_ok ev t recent t1 Hr C1) as [mc Hctx].
  cbv zeta. unfold on_reply. rewrite Hh, Hs.
  rewrite verify_group_dm by done.
  rewrite Hctx. simpl. split_and!; [by eexists|done..].
Qed.

(** A reply outside a group whose check asks for a reset. *)
Lemma on_reply_dm_exits now E post ev processed t mappings
    recent senderAddress t1 :
  Ledger.has (re_id ev) processed = false →
  re_getSenderAddress ev = Returns senderAddress →
  re_isGroup ev = false →
  re_messages ev 100%nat = Returns recent →
  checkMessageArray (re_conversation ev) (hm_message <$> recent) t = (t1, true) →
  let r := on_reply now E post ev processed t mappings in
  r_outcome r = Exited ∧ r_hashes r = t1.
Proof.
  intros Hh Hs Hg Hr C1. cbv zeta. unfold on_reply. rewrite Hh, Hs.
  rewrite verify_group_dm by done.
  by rewrite (add_context_exit ev t recent t1).
Qed.

End ReplyHandlerLaws.

Section ReplyHandlerFurther.
Import DBHealth DBHealthFacts Backend BackendFacts ReplyHandler StringFacts.
Import ReplyHandlerLaws.

(** X24. The text that the reply handler passes on. When the history is
    fetched, the check asks for no reset, and the referenced message is
    among the last 100 with a non-empty text, the text passed on is
    [[Immediate parent message]: "q"], an empty line and the text of the
    reply, where q is the referenced text when that has at most 200
    UTF-16 code units, and otherwise its first 200 code units followed
    by three dots (203 code units). In every other case in which the
    handler goes on (history unreadable, message not found, no text) the
    text passed on is the text of the reply alone. The first 200 code
    units are the first bytes of the text, followed by a high surrogate
    when the cut falls inside a character of two code units; on a text
    of ASCII characters code units and bytes agree. *)
Theorem X24_reply_context_format ev hashes :
  let quoted q :=
    "[Immediate parent message]: " +:+ QUOTE +:+ q +:+ QUOTE +:+ LFLF +:+
    re_content ev in
  (∀ messages hashes' original text,
     re_messages ev 100%nat = Returns messages →
     checkMessageArray (re_conversation ev) (hm_message <$> messages) hashes
       = (hashes', false) →
     find_message (re_reference ev) messages = Some original →
     replyToText (Some original) = Some text →
     add_context ev hashes = (Some (quoted (truncatedText text)), hashes')) ∧
  (∀ messages hashes',
     re_messages ev 100%nat = Returns messages →
     checkMessageArray (re_conversation ev) (hm_message <$> messages) hashes
       = (hashes', false) →
     replyToText (find_message (re_reference ev) messages) = None →
     add_context ev hashes = (Some (re_content ev), hashes')) ∧
  (∀ e, re_messages ev 100%nat = Throws e →
     add_context ev hashes = (Some (re_content ev), hashes)) ∧
  (∀ messageContent, (add_context ev hashes).1 = Some messageContent →
     (∃ prefix, messageContent = prefix +:+ re_content ev) ∧
     (messageContent = re_content ev ∨
      ∃ messages original text,
        re_messages ev 100%nat = Returns messages ∧
        find_message (re_reference ev) messages = Some original ∧
        m_id (hm_message original) = re_reference ev ∧
        replyToText (Some original) = Some text ∧
        messageContent = quoted (truncatedText text))) ∧
  (∀ original text,
     replyToText (Some original) = Some text ↔
     text ≠ "" ∧
     (hm_content original = CText text ∨
      hm_content original = CObject (Some text))) ∧
  (∀ text,
     let q := truncatedText text in
     (length16 q ≤ 203)%nat ∧
     ((length16 text ≤ 200)%nat → q = text) ∧
     ((200 < length16 text)%nat →
        q = substring16 200 text +:+ "..." ∧
        length16 (substring16 200 text) = 200%nat ∧
        length16 q = 203%nat ∧
        ∃ p rest, text = p +:+ rest ∧
          (substring16 200 text = p ∨
           ∃ a s', rest = String a s' ∧ units a = 2%nat ∧
                   length16 p = 199%nat ∧
                   substring16 200 text = p +:+ high_surrogate a s')) ∧
     (is_ascii text = true →
        length16 text = String.length text ∧
        substring16 200 text = String.substring 0 200 text)).
Proof.
  intros quoted. split_and!.
  - intros messages hashes' original text Hm Hc Hf Ht.
    unfold add_context. by rewrite Hm, Hc, Hf, Ht.
  - intros messages hashes' Hm Hc Ht.
    unfold add_context. by rewrite Hm, Hc, Ht.
  - intros e He. unfold add_context. by rewrite He.
  - intros messageContent Hmc.
    destruct (add_context_cases ev hashes)
      as [(Hn & _)|[(Hs & _)|(messages & text & Hm & Ht & Hs)]].
    + congruence.
    + rewrite Hs in Hmc. injection Hmc as <-. split; [by exists ""|by left].
    + rewrite Hs in Hmc. injection Hmc as <-. split.
      * unfold with_context. eexists. by rewrite <- !append_assoc.
      * right.
        destruct (find_message (re_reference ev) messages) as [original|] eqn:Hf;
          [|done].
        exists messages, original, text. split_and!; [done..| |done|done].
        by apply find_message_Some in Hf as [_ ?].
  - apply replyToText_Some.
  - intros text q. split_and!.
    + apply truncatedText_length.
    + apply truncatedText_short.
    + intros Hlong. unfold q. rewrite truncatedText_long by done.
      pose proof (length16_substring16 text 200) as Hl.
      rewrite Nat.min_l in Hl by lia.
      split_and!; [done|done| |].
      * rewrite length16_append, Hl. done.
      * destruct (substring16_prefix text 200)
          as (p & rest & Ht & [Hp|(a & s' & Hr & Ha & Hn & Hp)]).
        -- exists p, rest. split; [done|by left].
        -- exists p, rest. split; [done|]. right. exists a, s'.
           split_and!; [done..| |done]. lia.
    + intros Ha. destruct (is_ascii_bytes text Ha) as [Hl Hs]. by split.
Qed.

(** X25. The reply handler adds a mapping and answers only for a reply it
    passes on: for a reply it skips (already in the ledger, not to a
    message of the agent in a group, history unreadable in a group), for
    one on which it fails and for one on which the process exits, the
    mappings are unchanged and nothing is sent. A reply passed on was
    not in the ledger and is in it afterwards; the conversation is mapped
    under its own identifier to the sender; the text first sent is what
    [processMessage] returned for the passed text, and the apology
    follows exactly when that send threw. In a group the referenced
    message was found among the last 300 and was written by the
    agent. *)
Theorem X25_reply_handler_contract now E post ev processedMessages hashes mappings :
  let r := on_reply now E post ev processedMessages hashes mappings in
  ((∀ messageContent, r_outcome r ≠ Processed messageContent) →
     r_mappings r = mappings ∧ r_sent r = []) ∧
  (∀ messageContent, r_outcome r = Processed messageContent →
     Ledger.has (re_id ev) processedMessages = false ∧
     r_processed r = processedMessages ++ [re_id ev] ∧
     (∃ senderAddress response,
        re_getSenderAddress ev = Returns senderAddress ∧
        r_mappings r =
          Reply.addMapping now (re_conversation ev) (re_conversation ev)
            senderAddress None mappings ∧
        processMessage E post messageContent senderAddress
          (re_conversation ev) None = Returns response ∧
        r_sent r = match re_sendText ev response with
                   | Returns _ => [response]
                   | Throws _ => [response; SORRY_REPLY]
                   end) ∧
     (re_isGroup ev = true →
        ∃ messages referenced,
          re_messages ev 300%nat = Returns messages ∧
          find_message (re_reference ev) messages = Some referenced ∧
          m_senderInboxId (hm_message referenced) = re_agent_inboxId ev)).
Proof.
  cbv zeta. unfold on_reply.
  destruct (Ledger.has (re_id ev) processedMessages) eqn:Hhas; [by split|].
  destruct (re_getSenderAddress ev) as [senderAddress|e] eqn:Hsender;
    [|by split].
  destruct (verify_group ev hashes) as [[outcome|] hashes1] eqn:Hv.
  - simpl. split; [done|]. intros mc ->.
    unfold verify_group in Hv.
    destruct (re_isGroup ev); [|done].
    destruct (re_messages ev 300%nat) as [messages|]; [|done].
    destruct (checkMessageArray _ _ hashes) as [h needsReset].
    destruct needsReset; [done|].
    destruct (find_message _ messages) as [m|]; [|done].
    by case_decide.
  - destruct (add_context ev hashes1) as [[messageContent|] hashes2] eqn:Hc;
      [|by split].
    simpl. split; [intros H; by destruct (H messageContent)|].
    intros mc [= <-]. split_and!.
    + done.
    + unfold Ledger.add. by rewrite Hhas.
    + destruct (respond_cases E post ev messageContent senderAddress)
        as (response & Hr & Hs).
      by exists senderAddress, response.
    + intros Hg. unfold verify_group in Hv. rewrite Hg in Hv.
      destruct (re_messages ev 300%nat) as [messages|]; [|done].
      destruct (checkMessageArray _ _ hashes) as [h needsReset].
      destruct needsReset; [done|].
      destruct (find_message _ messages) as [m|] eqn:Hf; [|done].
      case_decide; [|done]. by exists messages, m.
Qed.

(** X26. The reply handler runs the staleness check on every history it
    fetches: in a group on the last 300 messages and then on the last
    100, outside a group on the last 100 only. Take three replies in a
    conversation not yet in the table, each of which fetches the same
    two lists. Outside a group the count goes 1, 2, 3: two replies are
    passed on and the third exits. In a group whose two lists have the
    same fingerprint (a history of at most 100 messages) both fetches
    count: the first reply is passed on and leaves a count of 2, and the
    first check of the second reply counts 3 and exits. In a group whose
    two lists differ (a longer history) every check finds another
    fingerprint than the one before: the count stays 1 and every reply
    to the agent is passed on. *)
Theorem X26_group_replies_count_twice now1 now2 now3 E post ev1 ev2 ev3
    processedMessages hashes mappings wide recent :
  re_conversation ev2 = re_conversation ev1 →
  re_conversation ev3 = re_conversation ev1 →
  re_isGroup ev2 = re_isGroup ev1 → re_isGroup ev3 = re_isGroup ev1 →
  NoDup [re_id ev1; re_id ev2; re_id ev3] →
  (∀ ev, ev ∈ [ev1; ev2; ev3] →
     Ledger.has (re_id ev) processedMessages = false ∧
     re_messages ev 300%nat = Returns wide ∧
     re_messages ev 100%nat = Returns recent ∧
     ∃ senderAddress, re_getSenderAddress ev = Returns senderAddress) →
  (re_isGroup ev1 = true →
     ∃ referenced,
       find_message (re_reference ev1) wide = Some referenced ∧
       m_senderInboxId (hm_message referenced) = re_agent_inboxId ev1) →
  hashes !! re_conversation ev1 = None →
  let r1 := on_reply now1 E post ev1 processedMessages hashes mappings in
  let r2 := on_reply now2 E post ev2 (r_processed r1) (r_hashes r1) (r_mappings r1) in
  let r3 := on_reply now3 E post ev3 (r_processed r2) (r_hashes r2) (r_mappings r2) in
  let count (r : Result) := repeatCount <$> r_hashes r !! re_conversation ev1 in
  (∃ messageContent, r_outcome r1 = Processed messageContent) ∧
  (re_isGroup ev1 = true →
   fingerprint (hm_message <$> wide) = fingerprint (hm_message <$> recent) →
     count r1 = Some 2 ∧ r_outcome r2 = Exited ∧ count r2 = Some 3) ∧
  (re_isGroup ev1 = true →
   fingerprint (hm_message <$> wide) ≠ fingerprint (hm_message <$> recent) →
   (∀ ev, ev ∈ [ev2; ev3] →
      ∃ referenced,
        find_message (re_reference ev) wide = Some referenced ∧
        m_senderInboxId (hm_message referenced) = re_agent_inboxId ev) →
     count r1 = Some 1 ∧
     (∃ messageContent, r_outcome r2 = Processed messageContent) ∧
     count r2 = Some 1 ∧
     (∃ messageContent, r_outcome r3 = Processed messageContent) ∧
     count r3 = Some 1) ∧
  (re_isGroup ev1 = false →
     count r1 = Some 1 ∧
     (∃ messageContent, r_outcome r2 = Processed messageContent) ∧
     count r2 = Some 2 ∧
     r_outcome r3 = Exited ∧ count r3 = Some 3).
Proof.
  intros Hc2 Hc3 Hg2 Hg3 Hnd Hev Href Hnone.
  set (c := re_conversation ev1) in *.
  set (ws := hm_message <$> wide). set (rs := hm_message <$> recent).
  destruct (Hev ev1 ltac:(set_solver)) as (Hh1 & Hw1 & Hr1 & s1 & Hsend1).
  destruct (Hev ev2 ltac:(set_solver)) as (Hh2 & Hw2 & Hr2 & s2 & Hsend2).
  destruct (Hev ev3 ltac:(set_solver)) as (Hh3 & Hw3 & Hr3 & s3 & Hsend3).
  apply NoDup_cons in Hnd as [Hn1 Hnd]. apply NoDup_cons in Hnd as [Hn2 _].
  assert (H12 : re_id ev2 ≠ re_id ev1) by set_solver.
  assert (H13 : re_id ev3 ≠ re_id ev1) by set_solver.
  assert (H23 : re_id ev3 ≠ re_id ev2) by set_solver.
  set (ew := λ k, {| hash := fingerprint ws; repeatCount := k;
                     lastMessageIds := sort (m_id <$> ws) |}).
  set (er := λ k, {| hash := fingerprint rs; repeatCount := k;
                     lastMessageIds := sort (m_id <$> rs) |}).
  assert (Cw1 : checkMessageArray c ws hashes = (<[c := ew 1]> hashes, false))
    by by apply check_first.
  assert (Cr1 : checkMessageArray c rs hashes = (<[c := er 1]> hashes, false))
    by by apply check_first.
  (* one more check of the list that was checked last *)
  assert (Csame : ∀ ms (e : Entry),
    hash e = fingerprint ms →
    checkMessageArray c ms (<[c := e]> hashes) =
      (<[c := {| hash := hash e; repeatCount := repeatCount e + 1;
                 lastMessageIds := lastMessageIds e |}]> hashes,
       bool_decide (3 ≤ repeatCount e + 1))).
  { intros ms e He.
    rewrite (check_same c ms _ e) by (done || apply lookup_insert_eq).
    by rewrite insert_insert_eq. }
  (* a check of another list *)
  assert (Cdiff : ∀ ms (e : Entry),
    hash e ≠ fingerprint ms →
    checkMessageArray c ms (<[c := e]> hashes) =
      (<[c := {| hash := fingerprint ms; repeatCount := 1;
                 lastMessageIds := sort (m_id <$> ms) |}]> hashes, false)).
  { intros ms e He.
    rewrite (check_differs c ms _ e) by (done || apply lookup_insert_eq).
    by rewrite insert_insert_eq. }
  intros r1 r2 r3 count.
  assert (Hcount : ∀ r e, r_hashes r = <[c := e]> hashes →
                          count r = Some (repeatCount e)).
  { intros r e Hr. unfold count. by rewrite Hr, lookup_insert_eq. }
  destruct (re_isGroup ev1) eqn:Hg1.
  - destruct (Href eq_refl) as (ref1 & Hf1 & Ha1).
    destruct (decide (fingerprint ws = fingerprint rs)) as [Heq|Hne].
    + (* both fetches of the first reply are counted *)
      destruct (on_reply_group_passes now1 E post ev1 processedMessages hashes
        mappings wide recent ref1 s1 _ _ Hh1 Hsend1 Hg1 Hw1 Hr1 Hf1 Ha1 Cw1
        (Csame rs (ew 1) Heq)) as (Ho1 & Hp1 & Ht1).
      fold r1 in Ho1, Hp1, Ht1.
      destruct (on_reply_group_exits now2 E post ev2 (r_processed r1)
        (r_hashes r1) (r_mappings r1) wide s2 (<[c := ew 3]> hashes))
        as (Ho2 & Ht2); [rewrite Hp1; by apply has_add_other|done|congruence|done
                        |rewrite Hc2, Ht1; by rewrite (Csame ws)|].
      fold r2 in Ho2, Ht2.
      split_and!; [done| |done|done].
      intros _ _. split_and!; [by rewrite (Hcount _ _ Ht1)|done
                              |by rewrite (Hcount _ _ Ht2)].
    + (* every check finds the fingerprint of the other list *)
      assert (Hne' : fingerprint rs ≠ fingerprint ws) by done.
      destruct (on_reply_group_passes now1 E post ev1 processedMessages hashes
        mappings wide recent ref1 s1 _ _ Hh1 Hsend1 Hg1 Hw1 Hr1 Hf1 Ha1 Cw1
        (Cdiff rs (ew 1) Hne)) as (Ho1 & Hp1 & Ht1).
      fold r1 in Ho1, Hp1, Ht1.
      split_and!; [done|done| |done].
      intros _ _ Hrefs.
      destruct (Hrefs ev2 ltac:(set_solver)) as (ref2 & Hf2 & Ha2).
      destruct (Hrefs ev3 ltac:(set_solver)) as (ref3 & Hf3 & Ha3).
      destruct (on_reply_group_passes now2 E post ev2 (r_processed r1)
        (r_hashes r1) (r_mappings r1) wide recent ref2 s2
        (<[c := ew 1]> hashes) (<[c := er 1]> hashes))
        as (Ho2 & Hp2 & Ht2);
        [rewrite Hp1; by apply has_add_other|done|congruence|done..
        |rewrite Hc2, Ht1; by apply (Cdiff ws)
        |rewrite Hc2; by apply (Cdiff rs (ew 1))|].
      fold r2 in Ho2, Hp2, Ht2.
      destruct (on_reply_group_passes now3 E post ev3 (r_processed r2)
        (r_hashes r2) (r_mappings r2) wide recent ref3 s3
        (<[c := ew 1]> hashes) (<[c := er 1]> hashes))
        as (Ho3 & Hp3 & Ht3);
        [rewrite Hp2, Hp1; apply has_add_other; [done|]; by apply has_add_other|done|congruence|done..
        |rewrite Hc3, Ht2; by apply (Cdiff ws)
        |rewrite Hc3; by apply (Cdiff rs (ew 1))|].
      fold r3 in Ho3, Hp3, Ht3.
      split_and!; [by rewrite (Hcount _ _ Ht1)|done|by rewrite (Hcount _ _ Ht2)
                  |done|by rewrite (Hcount _ _ Ht3)].
  - (* outside a group: one fetch for each reply *)
    destruct (on_reply_dm_passes now1 E post ev1 processedMessages hashes
      mappings recent s1 _ Hh1 Hsend1 Hg1 Hr1 Cr1) as (Ho1 & Hp1 & Ht1).
    fold r1 in Ho1, Hp1, Ht1.
    destruct (on_reply_dm_passes now2 E post ev2 (r_processed r1)
      (r_hashes r1) (r_mappings r1) recent s2 (<[c := er 2]> hashes))
      as (Ho2 & Hp2 & Ht2);
      [rewrite Hp1; by apply has_add_other|done|congruence|done
      |rewrite Hc2, Ht1; by rewrite (Csame rs)|].
    fold r2 in Ho2, Hp2, Ht2.
    destruct (on_reply_dm_exits now3 E post ev3 (r_processed r2)
      (r_hashes r2) (r_mappings r2) recent s3 (<[c := er 3]> hashes))
      as (Ho3 & Ht3);
      [rewrite Hp2, Hp1; apply has_add_other; [done|]; by apply has_add_other|done|congruence|done
      |rewrite Hc3, Ht2; by rewrite (Csame rs)|].
    fold r3 in Ho3, Ht3.
    split_and!; [done|done|done|].
    intros _. split_and!; [by rewrite (Hcount _ _ Ht1)|done
                          |by rewrite (Hcount _ _ Ht2)|done
                          |by rewrite (Hcount _ _ Ht3)].
Qed.

Lemma X26_group_replies_count_twice_witness :
  let r1 := on_reply 1 Greeting.env0 Greeting.unreachable_backend
              (reply_to_agent "r1" true) [] ∅ ∅ in
  let r2 := on_reply 2 Greeting.env0 Greeting.unreachable_backend
              (reply_to_agent "r2" true)
              (r_processed r1) (r_hashes r1) (r_mappings r1) in
  (∃ messageContent, r_outcome r1 = Processed messageContent) ∧
  repeatCount <$> r_hashes r1 !! "c1" = Some 2 ∧
  r_outcome r2 = Exited ∧
  repeatCount <$> r_hashes r2 !! "c1" = Some 3.
Proof.
  pose proof (X26_group_replies_count_twice 1 2 3 Greeting.env0
    Greeting.unreachable_backend
    (reply_to_agent "r1" true) (reply_to_agent "r2" true)
    (reply_to_agent "r3" true) [] ∅ ∅
    [{| hm_message := {| m_id := "m1"; m_senderInboxId := "agent" |};
        hm_content := CText "hello" |}]
    [{| hm_message := {| m_id := "m1"; m_senderInboxId := "agent" |};
        hm_content := CText "hello" |}]) as H.
  destruct H as (H1 & H2 & _).
  - reflexivity.
  - reflexivity.
  - reflexivity.
  - reflexivity.
  - apply (bool_decide_unpack _). vm_compute. exact I.
  - intros ev Hin.
    repeat (apply elem_of_cons in Hin as [->|Hin]);
      [..|by apply elem_of_nil in Hin];
      (split_and!; [done|done|done|by eexists]).
  - intros _. eexists. split; reflexivity.
  - reflexivity.
  - intros r1 r2. destruct (H2 eq_refl eq_refl) as (H3 & H4 & H5).
    split_and!; [exact H1|exact H3|exact H4|exact H5].
Defined.
End ReplyHandlerFurther.

(** ** The message built for an image *)

Module ImageLaws.
Import Image StringFacts.

Lemma given_Some o s : given o = Some s → o = Some s ∧ s ≠ "".
Proof. destruct o as [[|a r]|]; simpl; [done| |done]. by intros [= <-]. Qed.

Lemma given_Some_iff o s : given o = Some s ↔ o = Some s ∧ s ≠ "".
Proof.
  split; [apply given_Some|]. intros [-> Hne]. by destruct s.
Qed.

Lemma formatForBackend_shape result filename :
  formatForBackend result filename = message_of_shape (shape result).
Proof.
  unfold formatForBackend, shape, message_of_shape.
  destruct (success result); simpl.
  - destruct (given (analysis result)) as [a|] eqn:Ha.
    + apply given_Some in Ha as [-> _]. by rewrite bool_decide_eq_true_2 by eauto.
    + rewrite bool_decide_eq_false_2 by (by intros [? ?]).
      destruct (given (error result)) as [e|] eqn:He.
      * apply given_Some in He as [-> _]. by rewrite bool_decide_eq_true_2 by eauto.
      * by rewrite bool_decide_eq_false_2 by (by intros [? ?]).
  - destruct (given (error result)) as [e|] eqn:He.
    + apply given_Some in He as [-> _]. by rewrite bool_decide_eq_true_2 by eauto.
    + by rewrite bool_decide_eq_false_2 by (by intros [? ?]).
Qed.

Lemma bracket_inj a b : a +:+ "]" = b +:+ "]" → a = b.
Proof. apply append_inv_tail. Qed.

Lemma message_of_shape_inj s1 s2 :
  message_of_shape s1 = message_of_shape s2 → s1 = s2.
Proof.
  unfold message_of_shape. intros H.
  apply append_inv_head, append_inv_head in H.
  destruct s1 as [a1|e1|], s2 as [a2|e2|]; try done.
  - apply (append_inv_head "[Image Analysis: ") in H.
    by apply bracket_inj in H as ->.
  - apply (append_inv_head "[Image analysis failed: ") in H.
    by apply bracket_inj in H as ->.
Qed.

End ImageLaws.

Section ImageFurther.
Import Image StringFacts ImageLaws.

(** X27. The message built for an image tells its result. It is never
    empty and does not depend on the file name; two results get the same
    message exactly when they agree on what the message reports: a
    non-empty analysis of a successful result, else a non-empty error,
    else neither. In particular a successful result whose analysis is
    empty is reported as a failure when it carries an error, and as
    unavailable otherwise. *)
Theorem X27_image_message_tells_result r1 r2 f1 f2 :
  formatForBackend r1 f1 ≠ "" ∧
  formatForBackend r1 f1 = formatForBackend r1 f2 ∧
  (formatForBackend r1 f1 = formatForBackend r2 f2 ↔ shape r1 = shape r2) ∧
  (∀ a, shape r1 = Analysed a ↔
        success r1 = true ∧ analysis r1 = Some a ∧ a ≠ "") ∧
  (∀ e, shape r1 = FailedWith e ↔
        (success r1 = false ∨ given (analysis r1) = None) ∧
        error r1 = Some e ∧ e ≠ "") ∧
  (shape r1 = Unavailable ↔
        (success r1 = false ∨ given (analysis r1) = None) ∧
        given (error r1) = None).
Proof.
  split_and!.
  - rewrite formatForBackend_shape. unfold message_of_shape.
    by rewrite append_cons.
  - by rewrite !formatForBackend_shape.
  - rewrite !formatForBackend_shape. split.
    + apply message_of_shape_inj.
    + by intros ->.
  - intros a. unfold shape. destruct (success r1).
    + destruct (given (analysis r1)) as [a'|] eqn:Ha.
      * apply given_Some in Ha as [Ha Hne]. split.
        -- intros [= <-]. done.
        -- intros (_ & Ha' & _). congruence.
      * split.
        -- by destruct (given (error r1)).
        -- intros (_ & Ha' & Hne). rewrite Ha' in Ha.
           destruct a; [done|]. done.
    + split; [by destruct (given (error r1))|]. by intros [? _].
  - intros e. unfold shape.
    destruct (success r1).
    + destruct (given (analysis r1)) as [a'|] eqn:Ha.
      * split; [done|]. by intros [[?|?] _].
      * destruct (given (error r1)) as [e'|] eqn:He'.
        -- apply given_Some_iff in He' as [He' Hne]. split.
           ++ intros [= <-]. split_and!; [by right|done..].
           ++ intros (_ & He'' & _). congruence.
        -- split; [done|]. intros (_ & He'' & Hne).
           assert (given (error r1) = Some e) by by apply given_Some_iff. congruence.
    + destruct (given (error r1)) as [e'|] eqn:He'.
      * apply given_Some_iff in He' as [He' Hne]. split.
        -- intros [= <-]. split_and!; [by left|done..].
        -- intros (_ & He'' & _). congruence.
      * split; [done|]. intros (_ & He'' & Hne).
        assert (given (error r1) = Some e) by by apply given_Some_iff. congruence.
  - unfold shape.
    destruct (success r1), (given (analysis r1)) as [a'|],
      (given (error r1)) as [e'|]; naive_solver.
Qed.
End ImageFurther.

(** ** The table of the health service, and replies after a reply *)

Module ComposeLaws.
Import DBHealth DBHealthFacts DBHealthLaws Backend ReplyHandler.

Lemma dom_checkMessageArray c ms (t : gmap string Entry) :
  dom (checkMessageArray c ms t).1 = {[ c ]} ∪ dom t.
Proof.
  unfold checkMessageArray.
  destruct (t !! c) as [e|]; [case_decide|]; simpl; apply dom_insert_L.
Qed.

Lemma dom_observe_log calls : ∀ (t : gmap string Entry),
  dom (observe_log calls t).1 = list_to_set calls.*1 ∪ dom t.
Proof.
  induction calls as [|[c ms] calls IH]; intros t.
  - simpl. set_solver.
  - cbn [observe_log]. pose proof (dom_checkMessageArray c ms t) as Hd.
    destruct (checkMessageArray c ms t) as [t1 r]. simpl in Hd.
    specialize (IH t1). destruct (observe_log calls t1) as [t2 rs].
    simpl in *. rewrite IH, Hd. set_solver.
Qed.

Lemma size_list_to_set_remove_dups (l : list string) :
  size (list_to_set (C := gset string) l) = length (remove_dups l).
Proof.
  rewrite <- (size_list_to_set (C := gset string) (remove_dups l))
    by apply NoDup_remove_dups.
  f_equal. apply set_eq. intros x.
  by rewrite !elem_of_list_to_set, elem_of_remove_dups.
Qed.

Lemma on_reply_processed now E post ev processedMessages hashes mappings mc :
  r_outcome (on_reply now E post ev processedMessages hashes mappings)
    = Processed mc →
  ∃ senderAddress,
    re_getSenderAddress ev = Returns senderAddress ∧
    r_mappings (on_reply now E post ev processedMessages hashes mappings) =
      Reply.addMapping now (re_conversation ev) (re_conversation ev)
        senderAddress None mappings.
Proof.
  unfold on_reply.
  destruct (Ledger.has (re_id ev) processedMessages); [done|].
  destruct (re_getSenderAddress ev) as [senderAddress|e]; [|done].
  destruct (verify_group ev hashes) as [[outcome|] hashes1] eqn:Hv.
  - simpl. intros ->. exfalso. unfold verify_group in Hv.
    destruct (re_isGroup ev); [|done].
    destruct (re_messages ev 300%nat) as [messages|]; [|done].
    destruct (checkMessageArray _ _ hashes) as [h needsReset].
    destruct needsReset; [done|].
    destruct (find_message _ messages) as [m|]; [|done].
    by case_decide.
  - destruct (add_context ev hashes1) as [[messageContent|] hashes2]; [|done].
    simpl. intros _. by exists senderAddress.
Qed.

End ComposeLaws.

Section ComposeFurther.
Import DBHealth DBHealthFacts DBHealthLaws Backend ReplyHandler ComposeLaws.

(** X28. The health service keeps an entry for every conversation it has
    ever checked: after any calls from an empty table the table holds
    exactly the conversations of the calls, and [getStats] reports their
    number, with one report for each. A report has a repeat count of at
    least 1 and is flagged as stuck exactly when its count is 3 or
    more. Only [clearConversation] takes an entry away. *)
Theorem X28_table_tracks_every_conversation calls :
  let t := (observe_log calls ∅).1 in
  (∀ c, is_Some (t !! c) ↔ c ∈ calls.*1) ∧
  trackedConversations (getStats t) = length (remove_dups calls.*1) ∧
  length (conversations (getStats t)) = trackedConversations (getStats t) ∧
  (∀ s, s ∈ conversations (getStats t) →
     1 ≤ cs_repeatCount s ∧ (cs_isStuck s = true ↔ 3 ≤ cs_repeatCount s)) ∧
  (∀ c, c ∈ calls.*1 →
     trackedConversations (getStats (clearConversation c t)) =
       (trackedConversations (getStats t) - 1)%nat).
Proof.
  intros t.
  assert (Hdom : dom t = list_to_set calls.*1).
  { unfold t. rewrite dom_observe_log. set_solver. }
  assert (Hin : ∀ c, is_Some (t !! c) ↔ c ∈ calls.*1).
  { intros c. rewrite <- elem_of_dom, Hdom. apply elem_of_list_to_set. }
  split_and!.
  - exact Hin.
  - simpl. rewrite <- (size_dom (D := gset string)), Hdom.
    apply size_list_to_set_remove_dups.
  - simpl. by rewrite length_fmap, length_map_to_list.
  - intros s. simpl. intros ([c e] & -> & He)%list_elem_of_fmap.
    apply elem_of_map_to_list in He.
    assert (Hok : map_Forall (λ _ e, entry_ok e) t).
    { apply observe_log_entries, map_Forall_empty. }
    destruct (Hok c e He) as (H1 & _). simpl. split; [done|].
    unfold isStuck, REPEAT_THRESHOLD. by rewrite bool_decide_eq_true.
  - intros c Hc. simpl. unfold clearConversation.
    apply Hin in Hc.
    rewrite map_size_delete_Some by done. lia.
Qed.

(** X29. A reply that the handler passes on opens its thread: the
    conversation is mapped under its own identifier, so a later
    [sendReply] that names that identifier as threadId (and no
    conversationId) finds the conversation through the mapping, sends
    the text there and refreshes the mapping. *)
Theorem X29_processed_reply_opens_thread now now' E post ev processedMessages
    hashes mappings messageContent client conv text :
  r_outcome (on_reply now E post ev processedMessages hashes mappings)
    = Processed messageContent →
  truthy (re_conversation ev) = true →
  ReplyRoute.getConversationById client (re_conversation ev)
    = ReplyRoute.Found conv →
  ReplyRoute.conv_send conv text = ReplyRoute.SendOk →
  let c := re_conversation ev in
  let r := on_reply now E post ev processedMessages hashes mappings in
  ∃ senderAddress,
    let mapping :=
      {| Reply.threadId := c; Reply.conversationId := c;
         Reply.walletAddress := senderAddress; Reply.lastActivity := now;
         Reply.agentId := None |} in
    re_getSenderAddress ev = Returns senderAddress ∧
    Reply.getMapping c (r_mappings r) = Some mapping ∧
    ReplyRoute.sendReply now' (Some client)
      {| ReplyRoute.r_threadId := Some c; ReplyRoute.r_conversationId := None;
         ReplyRoute.r_message := text |} (r_mappings r)
    = ReplyRoute.sent (<[c := ReplyRoute.touch now' mapping]> (r_mappings r))
        (ReplyRoute.conv_id conv) text.
Proof.
  intros Hout Hc Hfound Hsend c r.
  destruct (on_reply_processed _ _ _ _ _ _ _ _ Hout) as (senderAddress & Hs & Hm).
  exists senderAddress. fold r in Hm. fold c in Hm, Hc, Hfound. cbv zeta.
  assert (Hl : r_mappings r !! c =
    Some {| Reply.threadId := c; Reply.conversationId := c;
            Reply.walletAddress := senderAddress; Reply.lastActivity := now;
            Reply.agentId := None |}).
  { rewrite Hm. unfold Reply.addMapping. apply lookup_insert_eq. }
  split_and!; [done|exact Hl|].
  unfold ReplyRoute.sendReply. simpl. rewrite Hc, Hl. simpl.
  rewrite Hfound. simpl. by rewrite Hsend.
Qed.

Lemma X29_processed_reply_opens_thread_witness :
  ∃ senderAddress,
    re_getSenderAddress (reply_to_agent "r1" false) = Returns senderAddress ∧
    Reply.getMapping "c1"
      (r_mappings (on_reply 7 Greeting.env0 Greeting.unreachable_backend
                     (reply_to_agent "r1" false) [] ∅ ∅))
    = Some {| Reply.threadId := "c1"; Reply.conversationId := "c1";
              Reply.walletAddress := senderAddress; Reply.lastActivity := 7;
              Reply.agentId := None |}.
Proof.
  destruct (X29_processed_reply_opens_thread 7 9 Greeting.env0
    Greeting.unreachable_backend (reply_to_agent "r1" false) [] ∅ ∅
    (ReplyHandler.with_context "hello" "and then?")
    ReplyRoute.client_c1
    {| ReplyRoute.conv_id := "c1"; ReplyRoute.conv_send := λ _, ReplyRoute.SendOk |}
    "later") as (senderAddress & H1 & H2 & _).
  - reflexivity.
  - reflexivity.
  - reflexivity.
  - reflexivity.
  - exists senderAddress. split; [exact H1|exact H2].
Defined.
End ComposeFurther.
